(** * NSX-T agent: reconciliation and synchronization engine

    A shallow embedding of
    [networking_nsxv3/plugins/ml2/drivers/nsxv3/agent/nsxv3_agent.py]:
    the revision diff, the paged revision retrieval, the security-group
    rule reconciler, the full and shallow inventory passes, the
    synchronization gate and the polling entry point, with the properties
    the specification states about them.

    Python dictionaries are finite maps keyed by strings, sets are finite
    sets, exceptions and the calls made to the collaborators (lock manager,
    task runner, source-store RPC, target-store facade, logger) are explicit:
    every method is a computation over a [World] that records the calls in
    the order they are made. *)

From Stdlib Require Import ZArith String DecimalString.
From stdpp Require Import gmap strings list fin_maps.

Open Scope Z_scope.
Open Scope string_scope.

(** ** Python values *)

(** The dynamically typed values the agent handles: rule and port records
    are dictionaries of such values. *)
#[local] Set Warnings "-register-all".
Inductive pyval : Type :=
  | PNone
  | PBool (b : bool)
  | PInt (z : Z)
  | PStr (s : string)
  | PList (l : list pyval)
  | PDict (d : gmap string pyval).

(** Truth value of an object in a condition ([if v:], [not v], [a and b]). *)
Definition truthy (v : pyval) : bool :=
  match v with
  | PNone => false
  | PBool b => b
  | PInt z => negb (Z.eqb z 0)
  | PStr s => negb (String.eqb s "")
  | PList l => match l with [] => false | _ => true end
  | PDict d => negb (bool_decide (d = ∅))
  end.

(** [v == s] for a string [s]: only the very same string is equal to it. *)
Definition pyval_eq_str (v : pyval) (s : string) : bool :=
  match v with
  | PStr s' => String.eqb s' s
  | _ => false
  end.

(** [d.get(k)]: the value under [k], [None] when the key is missing. *)
Definition dict_get {V} (none : V) (d : gmap string V) (k : string) : V :=
  default none (d !! k).

(** [str(n)] of an integer. *)
Definition str (n : Z) : string := NilZero.string_of_int (Z.to_int n).

Lemma pyval_eq_str_true v s : pyval_eq_str v s = true ↔ v = PStr s.
Proof.
  destruct v; simpl; try (split; [discriminate | congruence]).
  rewrite String.eqb_eq. split; congruence.
Qed.

(** ** Exceptions, outcomes and collaborators *)

(** The instances of [Exception] a method can raise: the built-in errors of
    the dictionary and list operations, and the failures of a collaborator
    (an RPC or a target-store request that fails). *)
Inductive exn : Type :=
  | IndexError
  | KeyError (k : string)
  | TypeError
  | AttributeError
  | StoreError (msg : string).

(** How a call ends: it returns, it raises, or the bounded number of loop
    iterations given to it did not suffice ([Diverge]). *)
Inductive outcome (A : Type) : Type :=
  | Ret (a : A)
  | Raise (e : exn)
  | Diverge.
Arguments Ret {A} a.
Arguments Raise {A} e.
Arguments Diverge {A}.

(** Modelled from the spec: [sync.Priority] is declared in
    [networking_nsxv3.common.synchronization], which is not among the
    sources; the constants are ordered as their names say, [HIGHEST] first.
    [prio_rank] is 0 for the highest priority. *)
Inductive Priority : Type :=
  HIGHEST | HIGHER | HIGH | MEDIUM | LOW | LOWER.

Definition prio_rank (p : Priority) : nat :=
  match p with
  | HIGHEST => 0 | HIGHER => 1 | HIGH => 2
  | MEDIUM => 3 | LOW => 4 | LOWER => 5
  end%nat.

(** [lower_priority p q]: [p] is served strictly after [q]. *)
Definition lower_priority (p q : Priority) : Prop :=
  (prio_rank q < prio_rank p)%nat.

Global Instance Priority_eq_dec : EqDecision Priority.
Proof. solve_decision. Defined.

(** The bound methods handed to the runner. *)
Inductive Handler : Type :=
  | H_security_group_updated
  | H_security_group_member_updated
  | H_security_group_rule_updated
  | H_sync_security_group
  | H_sync_security_group_orphaned
  | H_sync_qos
  | H_sync_qos_orphaned
  | H_sync_port
  | H_sync_port_orphaned.

Global Instance Handler_eq_dec : EqDecision Handler.
Proof. solve_decision. Defined.

(** The handlers that remove an object from the target store. *)
Definition is_orphan_handler (h : Handler) : bool :=
  match h with
  | H_sync_security_group_orphaned | H_sync_qos_orphaned
  | H_sync_port_orphaned => true
  | _ => false
  end.

(** The three paged revision queries of the source store. *)
Inductive Query : Type :=
  | get_security_group_revision_tuples
  | get_qos_policy_revision_tuples
  | get_port_revision_tuples.

(** The target-store object kinds passed as [sdk_model]. *)
Inductive SdkModel : Type :=
  IPSet | QosSwitchingProfile | LogicalPort | FirewallRule.

(** A record of a revision query: (key, revision, createdAt). *)
Definition rev_tuple : Type := string * Z * Z.

(** The epoch, [datetime.datetime(1970, 1, 1)], on the scale of createdAt. *)
Definition epoch : Z := 0.

(** Calls to the source store ([self.rpc]). *)
Inductive RpcCall : Type :=
  | Rpc_revision_tuples (q : Query) (limit created_after : Z)
  | Rpc_get_rules_for_security_groups_id (sg_id : string)
  | Rpc_get_security_group_revision (sg_id : string).

(** Calls to the target-store facade ([self.nsxv3]) and to the timestamp
    marker it stores. *)
Inductive NsxCall : Type :=
  | Nsx_get_revisions (m : SdkModel) (attr : option (string * string))
  | Nsx_get_or_create_security_group (sg_id : string)
  | Nsx_update_security_group_rules
      (sg_id : pyval) (revision_number : pyval)
      (add_rules del_rules : list pyval)
  | Nsx_port_update
      (port_id revision_number security_groups : pyval)
      (address_bindings : list (pyval * pyval)) (qos_name : pyval)
  | Nsx_timestamp_has_expired
  | Nsx_timestamp_update.

Inductive LogLevel : Type := DEBUG | INFO | ERROR.

(** Everything a method does to the outside, in the order it does it. *)
Inductive Event : Type :=
  | EvAcquire (key : string)
  | EvRelease (key : string)
  | EvRpc (c : RpcCall)
  | EvNsx (c : NsxCall)
  | EvRun (p : Priority) (items : gset string) (h : Handler)
  | EvLog (lvl : LogLevel) (msg : string)
  | EvReport (object_name : string) (outdated orphaned : gset string).

(** What the collaborators answer. A collaborator that fails answers with
    the exception it raises. *)
Record Env : Type := {
  (* cfg.CONF *)
  rpc_max_records_per_query : Z;
  conf_host : string;
  polling_interval : Z;
  (* self.rpc: the source store *)
  rpc_query : Query → Z → Z → list rev_tuple;
  rpc_get_rules_for_security_groups_id :
    string → exn + list (gmap string pyval);
  rpc_get_security_group_revision : string → exn + (pyval * pyval);
  (* self.nsxv3: the target store *)
  nsx_get_revisions :
    SdkModel → option (string * string) →
    exn + (gmap string pyval * gmap string pyval * gmap string pyval);
  nsx_get_or_create_security_group : string → exn + (string * string * string);
  nsx_get_security_group_rule_spec : gmap string pyval → pyval;
  nsx_mutation : NsxCall → option exn;
  (* the timestamp marker *)
  timestamp_has_expired : exn + bool;
  (* self.runner *)
  runner_active : nat;
  runner_passive : nat
}.

(** The mutable state: the record of calls, the agent's [updated_devices]
    (a set, kept as the sequence of the values added to it, the last one
    first) and the manager's [last_sync_time]. *)
Record World : Type := {
  events : list Event;
  updated_devices : list pyval;
  last_sync_time : Z
}.

Definition add_event (e : Event) (w : World) : World :=
  {| events := events w ++ [e];
     updated_devices := updated_devices w;
     last_sync_time := last_sync_time w |}.

(** ** The monad of methods *)

Definition M (A : Type) : Type := World → outcome A * World.

Global Instance M_ret : MRet M := λ A a w, (Ret a, w).

Global Instance M_bind : MBind M := λ A B f c w,
  match c w with
  | (Ret a, w1) => f a w1
  | (Raise e, w1) => (Raise e, w1)
  | (Diverge, w1) => (Diverge, w1)
  end.

Definition emit (e : Event) : M unit := λ w, (Ret tt, add_event e w).

Definition raise {A} (e : exn) : M A := λ w, (Raise e, w).

Definition diverge {A} : M A := λ w, (Diverge, w).

(** The answer of a collaborator: returned, or raised. *)
Definition answer {A} (r : exn + A) : M A :=
  match r with
  | inl e => raise e
  | inr a => mret a
  end.

(** [with LockManager.get_lock(key): body]: the lock is released on every
    way out of the body. *)
Definition with_lock {A} (key : string) (body : M A) : M A := λ w,
  match body (add_event (EvAcquire key) w) with
  | (Diverge, w1) => (Diverge, w1)
  | (r, w1) => (r, add_event (EvRelease key) w1)
  end.

(** [try: body / except Exception: handler]. *)
Definition try_except {A} (body : M A) (handler : exn → M A) : M A := λ w,
  match body w with
  | (Raise e, w1) => handler e w1
  | r => r
  end.

Definition log (lvl : LogLevel) (msg : string) : M unit :=
  emit (EvLog lvl msg).

(** ** Revision retrieval and revision diff *)

(** [self.rpc.<query>(limit=..., created_after=...)]. *)
Definition rpc_revision_tuples (env : Env) (q : Query)
    (limit created_after : Z) : M (list rev_tuple) :=
  emit (EvRpc (Rpc_revision_tuples q limit created_after));;
  mret (rpc_query env q limit created_after).

(** The [for port, revision, _ in pr_tuples: rev[port] = str(revision)]
    loop. *)
Definition record_revisions (rev : gmap string string)
    (pr_tuples : list rev_tuple) : gmap string string :=
  foldl (λ rev t, <[t.1.1 := str t.1.2]> rev) rev pr_tuples.

(** The [while True] loop of [get_revisions]; [fuel] bounds the number of
    pages read. *)
Fixpoint get_revisions_loop (env : Env) (fuel : nat) (query : Query)
    (rev : gmap string string) (created_after : Z)
    : M (gmap string string) :=
  match fuel with
  | O => diverge
  | S fuel' =>
      let limit := rpc_max_records_per_query env in
      pr_tuples ← rpc_revision_tuples env query limit created_after;
      let rev := record_revisions rev pr_tuples in
      if bool_decide (Z.of_nat (length pr_tuples) < limit) then mret rev
      else
        match last pr_tuples with
        | None => raise IndexError
        | Some t => get_revisions_loop env fuel' query rev t.2
        end
  end.

Definition get_revisions (env : Env) (fuel : nat) (query : Query)
    : M (gmap string string) :=
  get_revisions_loop env fuel query ∅ epoch.

(** [self.nsxv3.get_revisions(sdk_model, attr_key, attr_val)]: the
    revisions, the target-store ids and the metadata, each keyed by name. *)
Definition nsxv3_get_revisions (env : Env) (sdk_model : SdkModel)
    (attr : option (string * string))
    : M (gmap string pyval * gmap string pyval * gmap string pyval) :=
  emit (EvNsx (Nsx_get_revisions sdk_model attr));;
  answer (nsx_get_revisions env sdk_model attr).

(** The body of [_sync_get_content] once both maps are read. *)
Definition revision_diff (revs_os : gmap string string)
    (revs_nsx : gmap string pyval) : gset string * gset string :=
  let outdated :=
    map_fold (λ key rev (outdated : gset string),
                if negb (pyval_eq_str (dict_get PNone revs_nsx key) rev)
                then {[key]} ∪ outdated else outdated)
             ∅ revs_os in
  let orphaned := dom revs_nsx ∖ dom revs_os in
  (outdated, orphaned).

Definition _sync_get_content (env : Env) (fuel : nat)
    (sdk_model : SdkModel) (os_query : Query)
    : M (gset string * gset string) :=
  revs_os ← get_revisions env fuel os_query;
  r ← nsxv3_get_revisions env sdk_model None;
  mret (revision_diff revs_os r.1.1).

(** ** Properties of the revision diff *)

Section RevisionDiff.
Implicit Types (revs_os : gmap string string) (revs_nsx : gmap string pyval).

(** A source key is outdated when the target holds another revision for
    it, or none. *)
Definition stale revs_nsx (k rev : string) : Prop :=
  revs_nsx !! k = None ∨ ∃ v, revs_nsx !! k = Some v ∧ v ≠ PStr rev.

Lemma stale_test revs_nsx k rev :
  negb (pyval_eq_str (dict_get PNone revs_nsx k) rev) = true
  ↔ stale revs_nsx k rev.
Proof.
  rewrite negb_true_iff, <- not_true_iff_false, pyval_eq_str_true.
  unfold dict_get, stale. destruct (revs_nsx !! k) as [v|]; simpl.
  - split.
    + intros Hv. right. exists v. done.
    + intros [|(v' & [= <-] & Hv)]; done.
  - split; [by left | done].
Qed.

Lemma revision_diff_outdated revs_os revs_nsx k :
  k ∈ (revision_diff revs_os revs_nsx).1
  ↔ ∃ rev, revs_os !! k = Some rev ∧ stale revs_nsx k rev.
Proof.
  unfold revision_diff; simpl. revert k.
  apply (map_fold_weak_ind
           (λ (r : gset string) (m : gmap string string),
              ∀ k, k ∈ r ↔ ∃ rev, m !! k = Some rev ∧ stale revs_nsx k rev)).
  - intros k. split; [set_solver |]. intros (rev & Hk & _).
    by rewrite lookup_empty in Hk.
  - intros i x m r Hi IH k.
    destruct (negb (pyval_eq_str (dict_get PNone revs_nsx i) x)) eqn:Ht.
    + apply stale_test in Ht. rewrite elem_of_union, elem_of_singleton, IH.
      split.
      * intros [-> | (rev & Hk & Hs)].
        -- exists x. by rewrite lookup_insert_eq.
        -- exists rev. split; [|done].
           rewrite lookup_insert_ne; [done | congruence].
      * intros (rev & Hk & Hs). destruct (decide (i = k)) as [->|Hne].
        -- by left.
        -- right. exists rev. by rewrite lookup_insert_ne in Hk.
    + rewrite IH. split.
      * intros (rev & Hk & Hs). exists rev. split; [|done].
        rewrite lookup_insert_ne; [done | congruence].
      * intros (rev & Hk & Hs). destruct (decide (i = k)) as [->|Hne].
        -- rewrite lookup_insert_eq in Hk. injection Hk as <-.
           apply stale_test in Hs. congruence.
        -- exists rev. by rewrite lookup_insert_ne in Hk.
Qed.

Lemma revision_diff_orphaned revs_os revs_nsx k :
  k ∈ (revision_diff revs_os revs_nsx).2
  ↔ k ∈ dom revs_nsx ∧ k ∉ dom revs_os.
Proof. unfold revision_diff; simpl. apply elem_of_difference. Qed.

Lemma revision_diff_disjoint revs_os revs_nsx :
  (revision_diff revs_os revs_nsx).1 ## (revision_diff revs_os revs_nsx).2.
Proof.
  intros k H1 H2. apply revision_diff_outdated in H1 as (rev & Hk & _).
  apply revision_diff_orphaned in H2 as [_ Hn].
  apply Hn, elem_of_dom. eauto.
Qed.

Lemma sync_get_content_run env fuel sdk_model os_query w w1 revs_os r :
  get_revisions env fuel os_query w = (Ret revs_os, w1) →
  nsx_get_revisions env sdk_model None = inr r →
  _sync_get_content env fuel sdk_model os_query w
  = (Ret (revision_diff revs_os r.1.1),
     add_event (EvNsx (Nsx_get_revisions sdk_model None)) w1).
Proof.
  intros Hos Hnsx. unfold _sync_get_content, mbind, M_bind.
  rewrite Hos. unfold nsxv3_get_revisions, mbind, M_bind, emit.
  rewrite Hnsx. reflexivity.
Qed.
End RevisionDiff.

(** The scenario of the specification: source [{A: 1, B: 2}], target
    [{A: "1", C: "9"}]. *)
Module Scenario.
Definition source_page : list rev_tuple := [("A", 1, 10); ("B", 2, 20)].

Definition target : gmap string pyval :=
  <["A" := PStr "1"]> (<["C" := PStr "9"]> ∅).

(** The collaborators of the scenario, with a backlog of [passive] units
    in the runner and a timestamp marker that answers [expired]. *)
Definition env_gate (passive : nat) (expired : exn + bool) : Env :=
  {| rpc_max_records_per_query := 100;
     conf_host := "node-1";
     polling_interval := 30;
     rpc_query := λ _ _ created_after,
       filter (λ t : rev_tuple, created_after < t.2) source_page;
     rpc_get_rules_for_security_groups_id := λ _, inr [];
     rpc_get_security_group_revision := λ sg, inr (PStr sg, PInt 1);
     nsx_get_revisions := λ _ _, inr (target, ∅, ∅);
     nsx_get_or_create_security_group := λ sg, inr (sg, sg, sg);
     nsx_get_security_group_rule_spec := PDict;
     nsx_mutation := λ _, None;
     timestamp_has_expired := expired;
     runner_active := 0;
     runner_passive := passive |}.

Definition env : Env := env_gate 0 (inr false).

Definition world : World :=
  {| events := []; updated_devices := []; last_sync_time := 0 |}.
End Scenario.

(** C1. For every source and target revision map that [_sync_get_content]
    reads, it returns as outdated exactly the source keys whose revision is
    missing from the target map or differs from the target's revision, and
    as orphaned exactly the keys of the target map that the source map does
    not have; the two sets are disjoint. For source [{A: "1", B: "2"}] and
    target [{A: "1", C: "9"}] the result is outdated [{B}] and orphaned
    [{C}]. *)
Theorem sync_get_content_diff :
  (∀ env fuel sdk_model os_query w w1 revs_os revs_nsx ids meta,
     get_revisions env fuel os_query w = (Ret revs_os, w1) →
     nsx_get_revisions env sdk_model None = inr (revs_nsx, ids, meta) →
     ∃ outdated orphaned w2,
       _sync_get_content env fuel sdk_model os_query w
       = (Ret (outdated, orphaned), w2)
       ∧ (∀ k, k ∈ outdated ↔
               ∃ rev, revs_os !! k = Some rev
                      ∧ (revs_nsx !! k = None
                         ∨ ∃ v, revs_nsx !! k = Some v ∧ v ≠ PStr rev))
       ∧ (∀ k, k ∈ orphaned ↔ k ∈ dom revs_nsx ∧ k ∉ dom revs_os)
       ∧ outdated ## orphaned)
  ∧ revision_diff (<["A" := "1"]> (<["B" := "2"]> ∅))
                  (<["A" := PStr "1"]> (<["C" := PStr "9"]> ∅))
    = ({["B"]}, {["C"]}).
Proof.
  split.
  - intros env fuel sdk_model os_query w w1 revs_os revs_nsx ids meta Hos Hnsx.
    exists (revision_diff revs_os revs_nsx).1, (revision_diff revs_os revs_nsx).2.
    eexists. split; [|split; [|split]].
    + rewrite (sync_get_content_run _ _ _ _ _ _ _ _ Hos Hnsx). reflexivity.
    + apply revision_diff_outdated.
    + apply revision_diff_orphaned.
    + apply revision_diff_disjoint.
  - vm_compute. reflexivity.
Qed.

Lemma sync_get_content_diff_witness :
  ∃ outdated orphaned w2,
    _sync_get_content Scenario.env 1 IPSet get_security_group_revision_tuples
      Scenario.world
    = (Ret (outdated, orphaned), w2)
    ∧ (∀ k, k ∈ outdated ↔
            ∃ rev, (<["A" := "1"]> (<["B" := "2"]> ∅) : gmap string string)
                     !! k = Some rev
                   ∧ (Scenario.target !! k = None
                      ∨ ∃ v, Scenario.target !! k = Some v ∧ v ≠ PStr rev))
    ∧ (∀ k, k ∈ orphaned ↔
            k ∈ dom Scenario.target
            ∧ k ∉ dom (<["A" := "1"]> (<["B" := "2"]> ∅) : gmap string string))
    ∧ outdated ## orphaned.
Proof.
  apply (proj1 sync_get_content_diff Scenario.env 1%nat IPSet
           get_security_group_revision_tuples Scenario.world
           (add_event (EvRpc (Rpc_revision_tuples
                                get_security_group_revision_tuples 100 epoch))
              Scenario.world)
           _ Scenario.target ∅ ∅).
  - vm_compute. reflexivity.
  - reflexivity.
Defined.

(** ** Paged retrieval of the source revisions *)

Definition add_events (l : list Event) (w : World) : World :=
  {| events := events w ++ l;
     updated_devices := updated_devices w;
     last_sync_time := last_sync_time w |}.

Lemma add_event_events e w : add_event e w = add_events [e] w.
Proof. reflexivity. Qed.

Lemma add_events_nil w : add_events [] w = w.
Proof. destruct w. unfold add_events; simpl. by rewrite app_nil_r. Qed.

Lemma add_events_app l1 l2 w :
  add_events l2 (add_events l1 w) = add_events (l1 ++ l2) w.
Proof. unfold add_events; simpl. by rewrite app_assoc. Qed.

Section Paging.
Variables (env : Env) (query : Query).

(** The paging protocol in the words of the specification: the first page
    is asked for after the epoch, each later one after the createdAt of
    the last record of the page before it. *)
Fixpoint watermark (n : nat) : Z :=
  match n with
  | O => epoch
  | S n' =>
      let prev :=
        rpc_query env query (rpc_max_records_per_query env) (watermark n') in
      match last prev with
      | Some t => t.2
      | None => watermark n'
      end
  end.

Definition page (n : nat) : list rev_tuple :=
  rpc_query env query (rpc_max_records_per_query env) (watermark n).

Definition short_page (n : nat) : Prop :=
  Z.of_nat (length (page n)) < rpc_max_records_per_query env.

(** The queries sent for the pages [i .. i + k - 1]. *)
Definition page_queries (i k : nat) : list Event :=
  (λ n, EvRpc (Rpc_revision_tuples query (rpc_max_records_per_query env)
                 (watermark n))) <$> seq i k.

(** The records of the pages [i .. i + k - 1], in the order returned. *)
Definition returned (i k : nat) : list rev_tuple :=
  concat (page <$> seq i k).

(** The revision a key was last returned with. *)
Definition latest_revision (k : string) (l : list rev_tuple)
    : option string :=
  (λ t : rev_tuple, str t.1.2) <$> last (filter (λ t : rev_tuple, t.1.1 = k) l).

Lemma record_revisions_app rev l1 l2 :
  record_revisions rev (l1 ++ l2)
  = record_revisions (record_revisions rev l1) l2.
Proof. apply foldl_app. Qed.

Lemma record_revisions_lookup rev l k :
  record_revisions rev l !! k
  = match latest_revision k l with
    | Some r => Some r
    | None => rev !! k
    end.
Proof.
  unfold latest_revision.
  induction l as [|t l IH] using rev_ind; [done|].
  rewrite record_revisions_app, filter_app. simpl.
  rewrite filter_cons, filter_nil.
  destruct (decide (t.1.1 = k)) as [<-|Hne].
  - rewrite last_snoc. simpl. apply lookup_insert_eq.
  - rewrite app_nil_r, lookup_insert_ne by done. apply IH.
Qed.

Lemma get_revisions_loop_step fuel rev created_after w :
  get_revisions_loop env (S fuel) query rev created_after w
  = let limit := rpc_max_records_per_query env in
    let pr_tuples := rpc_query env query limit created_after in
    let rev' := record_revisions rev pr_tuples in
    let w' :=
      add_event (EvRpc (Rpc_revision_tuples query limit created_after)) w in
    if bool_decide (Z.of_nat (length pr_tuples) < limit) then (Ret rev', w')
    else match last pr_tuples with
         | None => (Raise IndexError, w')
         | Some t => get_revisions_loop env fuel query rev' t.2 w'
         end.
Proof.
  simpl. unfold mbind, M_bind, rpc_revision_tuples, emit; simpl.
  case_bool_decide; [done|]. by destruct (last _).
Qed.

Lemma watermark_next i t :
  last (page i) = Some t → watermark (S i) = t.2.
Proof. unfold page. simpl. by intros ->. Qed.

Lemma returned_cons i k : returned i (S k) = (page i ++ returned (S i) k)%list.
Proof. reflexivity. Qed.

Lemma page_queries_cons i k :
  page_queries i (S k)
  = EvRpc (Rpc_revision_tuples query (rpc_max_records_per_query env)
             (watermark i)) :: page_queries (S i) k.
Proof. reflexivity. Qed.

Lemma get_revisions_loop_pages k : ∀ i rev w fuel,
  (∀ m, (i ≤ m < i + k)%nat → ¬ short_page m) →
  short_page (i + k) →
  (k < fuel)%nat →
  get_revisions_loop env fuel query rev (watermark i) w
  = (Ret (record_revisions rev (returned i (S k))),
     add_events (page_queries i (S k)) w).
Proof.
  induction k as [|k IH]; intros i rev w fuel Hlong Hshort Hfuel;
    (destruct fuel as [|fuel]; [lia|]);
    rewrite get_revisions_loop_step; cbv zeta; fold (page i).
  - rewrite Nat.add_0_r in Hshort.
    rewrite bool_decide_eq_true_2 by done.
    rewrite returned_cons, page_queries_cons.
    unfold returned, page_queries; simpl. by rewrite app_nil_r.
  - assert (Hi : ¬ short_page i) by (apply Hlong; lia).
    rewrite bool_decide_eq_false_2 by done.
    destruct (last (page i)) as [t|] eqn:Hlast.
    + rewrite <- (watermark_next _ _ Hlast), IH.
      * rewrite (returned_cons i), (page_queries_cons i).
        by rewrite record_revisions_app, add_event_events, add_events_app.
      * intros m Hm. apply Hlong. lia.
      * by replace (S i + k)%nat with (i + S k)%nat by lia.
      * lia.
    + apply last_None in Hlast. exfalso. apply Hi.
      unfold short_page in *. rewrite Hlast. simpl. lia.
Qed.

Lemma first_short_page_below n :
  (∀ m, (m < n)%nat → ¬ short_page m)
  ∨ ∃ n0, short_page n0 ∧ ∀ m, (m < n0)%nat → ¬ short_page m.
Proof.
  induction n as [|n [IH|IH]]; [left; lia | | by right].
  destruct (decide (short_page n)) as [Hn|Hn].
  - right. by exists n.
  - left. intros m Hm. destruct (decide (m = n)) as [->|]; [done|].
    apply IH. lia.
Qed.

Lemma first_short_page n :
  short_page n → ∃ n0, short_page n0 ∧ ∀ m, (m < n0)%nat → ¬ short_page m.
Proof.
  intros Hn. destruct (first_short_page_below (S n)) as [Hno|]; [|done].
  exfalso. apply (Hno n); [lia | done].
Qed.
End Paging.

(** C6. When some page of the paging protocol has fewer records than the
    configured limit, [get_revisions] terminates: it sends exactly the
    queries for the pages up to the first such page, each with the limit
    and with the createdAt of the last record of the page before it as
    watermark (the epoch for the first page), and it returns the map that
    gives every returned key the revision it was last returned with. *)
Theorem get_revisions_terminates env query w :
  (∃ n, short_page env query n) →
  ∃ n,
    short_page env query n
    ∧ (∀ m, (m < n)%nat →
            (rpc_max_records_per_query env
             ≤ Z.of_nat (length (page env query m)))%Z)
    ∧ ∀ fuel, (n < fuel)%nat →
        ∃ rev,
          get_revisions env fuel query w
          = (Ret rev, add_events (page_queries env query 0 (S n)) w)
          ∧ ∀ k, rev !! k = latest_revision k (returned env query 0 (S n)).
Proof.
  intros [n' Hn']. destruct (first_short_page _ _ _ Hn') as (n & Hn & Hmin).
  exists n. split; [done|]. split.
  - intros m Hm. specialize (Hmin m Hm). unfold short_page in Hmin. lia.
  - intros fuel Hfuel. eexists. split.
    + unfold get_revisions. change epoch with (watermark env query 0).
      apply get_revisions_loop_pages; [|done..].
      intros m Hm. apply Hmin. lia.
    + intros k. rewrite record_revisions_lookup.
      destruct (latest_revision _ _); [done|]. apply lookup_empty.
Qed.

Lemma get_revisions_terminates_witness :
  ∃ n,
    short_page Scenario.env get_security_group_revision_tuples n
    ∧ (∀ m, (m < n)%nat →
            (rpc_max_records_per_query Scenario.env
             ≤ Z.of_nat
                 (length (page Scenario.env
                            get_security_group_revision_tuples m)))%Z)
    ∧ ∀ fuel, (n < fuel)%nat →
        ∃ rev,
          get_revisions Scenario.env fuel get_security_group_revision_tuples
            Scenario.world
          = (Ret rev,
             add_events
               (page_queries Scenario.env
                  get_security_group_revision_tuples 0 (S n))
               Scenario.world)
          ∧ ∀ k, rev !! k
                 = latest_revision k
                     (returned Scenario.env
                        get_security_group_revision_tuples 0 (S n)).
Proof.
  apply (get_revisions_terminates Scenario.env
           get_security_group_revision_tuples Scenario.world).
  exists 0%nat. reflexivity.
Defined.

(** ** The inventory passes and the synchronization gate *)

(** Modelled from the spec: [sync.Runner] is declared in
    [networking_nsxv3.common.synchronization], which is not among the
    sources. [run(priority, items, handler)] enqueues the items with the
    handler under the priority and returns at once. *)
Definition runner_run (p : Priority) (items : gset string) (h : Handler)
    : M unit :=
  emit (EvRun p items h).

Definition AGENT_SYNCHRONIZATION_LOCK : string := "AGENT_SYNCHRONIZATION_LOCK".

Definition _sync_report (object_name : string)
    (outdated orphaned : gset string) : M unit :=
  emit (EvReport object_name outdated orphaned).

Definition _sync_inventory_full (env : Env) (fuel : nat) : M unit :=
  revs ← get_revisions env fuel get_security_group_revision_tuples;
  runner_run HIGHER (dom revs) H_sync_security_group;;
  revs ← get_revisions env fuel get_qos_policy_revision_tuples;
  runner_run HIGH (dom revs) H_sync_qos;;
  revs ← get_revisions env fuel get_port_revision_tuples;
  runner_run MEDIUM (dom revs) H_sync_port.

Definition _sync_inventory_shallow (env : Env) (fuel : nat) : M unit :=
  let sg_query := get_security_group_revision_tuples in
  let qos_query := get_qos_policy_revision_tuples in
  let port_query := get_port_revision_tuples in
  (* Security Groups Synchronization *)
  ips ← _sync_get_content env fuel IPSet sg_query;
  let outdated_ips := ips.1 in
  let orphaned_ips := ips.2 in
  runner_run HIGHER outdated_ips H_security_group_updated;;
  runner_run HIGH outdated_ips H_security_group_member_updated;;
  runner_run MEDIUM outdated_ips H_security_group_rule_updated;;
  runner_run LOW orphaned_ips H_sync_security_group_orphaned;;
  (* QoS Policies Synchronization *)
  qos ← _sync_get_content env fuel QosSwitchingProfile qos_query;
  let outdated_qos := qos.1 in
  let orphaned_qos := qos.2 in
  runner_run LOWER outdated_qos H_sync_qos;;
  (* Ports Synchronization *)
  lps ← _sync_get_content env fuel LogicalPort port_query;
  let outdated_lps := lps.1 in
  let orphaned_lps := lps.2 in
  runner_run LOW outdated_lps H_sync_port;;
  runner_run LOW orphaned_lps H_sync_port_orphaned;;
  _sync_report "Security Groups" outdated_ips orphaned_ips;;
  _sync_report "QoS Profiles" outdated_qos orphaned_qos;;
  _sync_report "Ports" outdated_lps orphaned_lps.

(** Modelled from the spec: [nsxv3_facada.Timestamp] is not among the
    sources. [has_expired()] reads the marker from the target store on
    every call, [update()] writes the current time to it. *)
Definition timestamp_has_expired_call (env : Env) : M bool :=
  emit (EvNsx Nsx_timestamp_has_expired);;
  answer (timestamp_has_expired env).

Definition timestamp_update (env : Env) : M unit :=
  emit (EvNsx Nsx_timestamp_update);;
  match nsx_mutation env Nsx_timestamp_update with
  | Some e => raise e
  | None => mret tt
  end.

(** [runner_passive env] is the backlog [self.runner.passive()] reports to
    the test of the gate. *)
Definition sync_inventory (env : Env) (fuel : nat) : M unit :=
  with_lock AGENT_SYNCHRONIZATION_LOCK (
    log INFO "Synchronization events pools size HIGHPRIORITY={} LOWPRIORITY={}";;
    if bool_decide (0 < runner_passive env)%nat then mret tt
    else
      expired ← timestamp_has_expired_call env;
      if expired : bool then
        log INFO "Starting a full inventory synchronization";;
        _sync_inventory_full env fuel;;
        timestamp_update env
      else
        log INFO "Starting a shallow inventory synchronization";;
        _sync_inventory_shallow env fuel).

(** ** Footprints: which calls a method can make *)

(** [emits_only P c]: however [c] ends, all it does to the world is to add
    calls that satisfy [P] to the record. *)
Definition emits_only {A} (P : Event → Prop) (c : M A) : Prop :=
  ∀ w, ∃ evs, (c w).2 = add_events evs w ∧ Forall P evs.

Section Footprint.
Context (P : Event → Prop).

Lemma emits_only_ret {A} (a : A) : emits_only P (mret a).
Proof. intros w. exists []. by rewrite add_events_nil. Qed.

Lemma emits_only_raise {A} e : emits_only P (raise e : M A).
Proof. intros w. exists []. by rewrite add_events_nil. Qed.

Lemma emits_only_diverge {A} : emits_only P (diverge : M A).
Proof. intros w. exists []. by rewrite add_events_nil. Qed.

Lemma emits_only_emit e : P e → emits_only P (emit e).
Proof. intros He w. exists [e]. split; [done | by constructor]. Qed.

Lemma emits_only_bind {A B} (c : M A) (f : A → M B) :
  emits_only P c → (∀ a, emits_only P (f a)) → emits_only P (c ≫= f).
Proof.
  intros Hc Hf w. destruct (Hc w) as (l1 & Hw1 & Hl1).
  unfold mbind, M_bind. destruct (c w) as [[a|e|] w1]; simpl in *; subst w1.
  - destruct (Hf a (add_events l1 w)) as (l2 & Hw2 & Hl2).
    exists (l1 ++ l2)%list. rewrite Hw2, add_events_app.
    split; [done | by apply Forall_app].
  - by exists l1.
  - by exists l1.
Qed.

Lemma emits_only_answer {A} (r : exn + A) : emits_only P (answer r).
Proof. destruct r; [apply emits_only_raise | apply emits_only_ret]. Qed.

Lemma emits_only_with_lock {A} key (body : M A) :
  P (EvAcquire key) → P (EvRelease key) →
  emits_only P body → emits_only P (with_lock key body).
Proof.
  intros Ha Hr Hb w. unfold with_lock.
  destruct (Hb (add_event (EvAcquire key) w)) as (l & Hw & Hl).
  destruct (body _) as [[a|e|] w1]; simpl in *; subst w1;
    rewrite !add_event_events, !add_events_app; eexists; (split; [done|]);
    repeat (apply Forall_app; split); auto.
Qed.

Lemma emits_only_try_except {A} (body : M A) handler :
  emits_only P body → (∀ e, emits_only P (handler e)) →
  emits_only P (try_except body handler).
Proof.
  intros Hb Hh w. unfold try_except.
  destruct (Hb w) as (l1 & Hw1 & Hl1).
  destruct (body w) as [[a|e|] w1]; simpl in *; subst w1;
    [by exists l1 | | by exists l1].
  destruct (Hh e (add_events l1 w)) as (l2 & Hw2 & Hl2).
  exists (l1 ++ l2)%list. rewrite Hw2, add_events_app.
  split; [done | by apply Forall_app].
Qed.

Lemma emits_only_if {A} (b : bool) (c1 c2 : M A) :
  emits_only P c1 → emits_only P c2 → emits_only P (if b then c1 else c2).
Proof. by destruct b. Qed.

Lemma emits_only_get_revisions env fuel query :
  (∀ limit created_after,
     P (EvRpc (Rpc_revision_tuples query limit created_after))) →
  emits_only P (get_revisions env fuel query).
Proof.
  intros HP. unfold get_revisions. generalize (∅ : gmap string string) epoch.
  induction fuel as [|fuel IH]; intros rev created_after; simpl.
  - apply emits_only_diverge.
  - apply emits_only_bind.
    + apply emits_only_bind; [by apply emits_only_emit|].
      intros _. apply emits_only_ret.
    + intros pr_tuples. apply emits_only_if; [apply emits_only_ret|].
      destruct (last pr_tuples); [apply IH | apply emits_only_raise].
Qed.
End Footprint.

(** The submissions to the runner among some calls. *)
Definition submission : Type := Priority * gset string * Handler.

Definition submissions (l : list Event) : list submission :=
  omap (λ e, match e with
             | EvRun p items h => Some (p, items, h)
             | _ => None
             end) l.

Lemma submissions_app l1 l2 :
  submissions (l1 ++ l2) = (submissions l1 ++ submissions l2)%list.
Proof. apply omap_app. Qed.

Lemma submissions_page_queries env query i k :
  submissions (page_queries env query i k) = [].
Proof.
  unfold page_queries. generalize (seq i k). intros l.
  induction l as [|n l IH]; [done|]. simpl. apply IH.
Qed.

(** ** Running the passes *)

Lemma bind_run {A B} (c : M A) (f : A → M B) w a w1 :
  c w = (Ret a, w1) → (c ≫= f) w = f a w1.
Proof. intros Hc. unfold mbind, M_bind. by rewrite Hc. Qed.

(** [n] is the first page of the protocol with fewer records than the
    limit. *)
Definition first_short_page_at (env : Env) (query : Query) (n : nat) : Prop :=
  short_page env query n ∧ ∀ m, (m < n)%nat → ¬ short_page env query m.

(** The revisions read from the pages [0 .. n]. *)
Definition source_revisions (env : Env) (query : Query) (n : nat)
    : gmap string string :=
  record_revisions ∅ (returned env query 0 (S n)).

Lemma get_revisions_run env query n fuel w :
  first_short_page_at env query n → (n < fuel)%nat →
  get_revisions env fuel query w
  = (Ret (source_revisions env query n),
     add_events (page_queries env query 0 (S n)) w).
Proof.
  intros [Hn Hmin] Hfuel. unfold get_revisions.
  change epoch with (watermark env query 0).
  apply get_revisions_loop_pages; [|done..].
  intros m Hm. apply Hmin. lia.
Qed.

Lemma source_revisions_dom env query n k :
  k ∈ dom (source_revisions env query n)
  ↔ ∃ t, t ∈ returned env query 0 (S n) ∧ t.1.1 = k.
Proof.
  unfold source_revisions. generalize (returned env query 0 (S n)).
  intros l. rewrite elem_of_dom, record_revisions_lookup, lookup_empty.
  unfold latest_revision.
  destruct (last (filter (λ t : rev_tuple, t.1.1 = k) l)) as [t|] eqn:Hl;
    simpl.
  - split; [intros _ | by eauto].
    apply last_Some_elem_of, list_elem_of_filter in Hl. exists t. tauto.
  - split; [by intros [? ?]|]. intros (t & Ht & Hk).
    apply last_None in Hl.
    assert (t ∈ filter (λ t : rev_tuple, t.1.1 = k) l)
      by (by apply list_elem_of_filter).
    rewrite Hl in *. by apply not_elem_of_nil in H.
Qed.

Section Passes.
Variable env : Env.
Variables n_sg n_qos n_port : nat.

Let sg_query := get_security_group_revision_tuples.
Let qos_query := get_qos_policy_revision_tuples.
Let port_query := get_port_revision_tuples.

(** The source queries end: page [n_sg], [n_qos], [n_port] is the first
    short page of the respective query. *)
Definition source_pages_end : Prop :=
  first_short_page_at env sg_query n_sg
  ∧ first_short_page_at env qos_query n_qos
  ∧ first_short_page_at env port_query n_port.

Definition enough_fuel (fuel : nat) : Prop :=
  (n_sg < fuel ∧ n_qos < fuel ∧ n_port < fuel)%nat.

(** What a full pass does. *)
Definition full_pass_events : list Event :=
  page_queries env sg_query 0 (S n_sg)
  ++ [EvRun HIGHER (dom (source_revisions env sg_query n_sg))
        H_sync_security_group]
  ++ page_queries env qos_query 0 (S n_qos)
  ++ [EvRun HIGH (dom (source_revisions env qos_query n_qos)) H_sync_qos]
  ++ page_queries env port_query 0 (S n_port)
  ++ [EvRun MEDIUM (dom (source_revisions env port_query n_port))
        H_sync_port].

Lemma sync_inventory_full_run fuel w :
  source_pages_end → enough_fuel fuel →
  _sync_inventory_full env fuel w = (Ret tt, add_events full_pass_events w).
Proof.
  intros (Hsg & Hqos & Hport) (Fsg & Fqos & Fport).
  unfold _sync_inventory_full.
  erewrite bind_run by (by apply get_revisions_run).
  erewrite bind_run by reflexivity.
  erewrite bind_run by (by apply get_revisions_run).
  erewrite bind_run by reflexivity.
  erewrite bind_run by (by apply get_revisions_run).
  unfold runner_run, emit, full_pass_events.
  rewrite !add_event_events, !add_events_app.
  by rewrite <- ?app_assoc.
Qed.

Lemma full_pass_submissions :
  submissions full_pass_events
  = [(HIGHER, dom (source_revisions env sg_query n_sg),
      H_sync_security_group);
     (HIGH, dom (source_revisions env qos_query n_qos), H_sync_qos);
     (MEDIUM, dom (source_revisions env port_query n_port), H_sync_port)].
Proof.
  unfold full_pass_events.
  by rewrite !submissions_app, !submissions_page_queries.
Qed.

(** What the target store answers to the three revision reads of a
    shallow pass. *)
Variables r_ips r_qos r_lps
  : gmap string pyval * gmap string pyval * gmap string pyval.

Definition target_answers : Prop :=
  nsx_get_revisions env IPSet None = inr r_ips
  ∧ nsx_get_revisions env QosSwitchingProfile None = inr r_qos
  ∧ nsx_get_revisions env LogicalPort None = inr r_lps.

Definition diff_ips := revision_diff (source_revisions env sg_query n_sg) r_ips.1.1.
Definition diff_qos := revision_diff (source_revisions env qos_query n_qos) r_qos.1.1.
Definition diff_lps := revision_diff (source_revisions env port_query n_port) r_lps.1.1.

(** What a shallow pass does. *)
Definition shallow_pass_events : list Event :=
  page_queries env sg_query 0 (S n_sg)
  ++ [EvNsx (Nsx_get_revisions IPSet None);
      EvRun HIGHER diff_ips.1 H_security_group_updated;
      EvRun HIGH diff_ips.1 H_security_group_member_updated;
      EvRun MEDIUM diff_ips.1 H_security_group_rule_updated;
      EvRun LOW diff_ips.2 H_sync_security_group_orphaned]
  ++ page_queries env qos_query 0 (S n_qos)
  ++ [EvNsx (Nsx_get_revisions QosSwitchingProfile None);
      EvRun LOWER diff_qos.1 H_sync_qos]
  ++ page_queries env port_query 0 (S n_port)
  ++ [EvNsx (Nsx_get_revisions LogicalPort None);
      EvRun LOW diff_lps.1 H_sync_port;
      EvRun LOW diff_lps.2 H_sync_port_orphaned;
      EvReport "Security Groups" diff_ips.1 diff_ips.2;
      EvReport "QoS Profiles" diff_qos.1 diff_qos.2;
      EvReport "Ports" diff_lps.1 diff_lps.2].

Lemma sync_inventory_shallow_run fuel w :
  source_pages_end → enough_fuel fuel → target_answers →
  _sync_inventory_shallow env fuel w
  = (Ret tt, add_events shallow_pass_events w).
Proof.
  intros (Hsg & Hqos & Hport) (Fsg & Fqos & Fport) (Aips & Aqos & Alps).
  unfold _sync_inventory_shallow. cbv zeta.
  erewrite bind_run
    by (eapply sync_get_content_run; [by apply get_revisions_run | done]).
  do 4 (erewrite bind_run by reflexivity).
  erewrite bind_run
    by (eapply sync_get_content_run; [by apply get_revisions_run | done]).
  erewrite bind_run by reflexivity.
  erewrite bind_run
    by (eapply sync_get_content_run; [by apply get_revisions_run | done]).
  do 4 (erewrite bind_run by reflexivity).
  unfold _sync_report, emit, shallow_pass_events.
  rewrite !add_event_events, !add_events_app.
  by rewrite <- ?app_assoc.
Qed.

Lemma shallow_pass_submissions :
  submissions shallow_pass_events
  = [(HIGHER, diff_ips.1, H_security_group_updated);
     (HIGH, diff_ips.1, H_security_group_member_updated);
     (MEDIUM, diff_ips.1, H_security_group_rule_updated);
     (LOW, diff_ips.2, H_sync_security_group_orphaned);
     (LOWER, diff_qos.1, H_sync_qos);
     (LOW, diff_lps.1, H_sync_port);
     (LOW, diff_lps.2, H_sync_port_orphaned)].
Proof.
  unfold shallow_pass_events.
  by rewrite !submissions_app, !submissions_page_queries.
Qed.
End Passes.

(** The object kind a handler works on. *)
Inductive Kind : Type := SecurityGroups | QosPolicies | Ports.

Definition handler_kind (h : Handler) : Kind :=
  match h with
  | H_security_group_updated | H_security_group_member_updated
  | H_security_group_rule_updated | H_sync_security_group
  | H_sync_security_group_orphaned => SecurityGroups
  | H_sync_qos | H_sync_qos_orphaned => QosPolicies
  | H_sync_port | H_sync_port_orphaned => Ports
  end.

(** One step of a footprint proof; the side conditions on the calls are
    inequalities between constructors. *)
Ltac footprint_step :=
  first
    [ apply emits_only_ret
    | apply emits_only_raise
    | apply emits_only_diverge
    | apply emits_only_answer
    | apply emits_only_emit; cbv beta; first [done | discriminate | tauto]
    | apply emits_only_get_revisions; intros; cbv beta;
      first [done | discriminate | tauto]
    | apply emits_only_with_lock;
      [cbv beta; first [done | discriminate | tauto]
      |cbv beta; first [done | discriminate | tauto] |]
    | apply emits_only_bind; [|intros ?]
    | apply emits_only_if ].

Ltac footprint := repeat footprint_step.

Lemma emits_only_ext {A} P (c c' : M A) :
  (∀ w, c w = c' w) → emits_only P c' → emits_only P c.
Proof. intros Heq Hc w. rewrite Heq. apply Hc. Qed.

Lemma emits_only_sync_get_content P env fuel sdk_model os_query :
  (∀ limit created_after,
     P (EvRpc (Rpc_revision_tuples os_query limit created_after))) →
  P (EvNsx (Nsx_get_revisions sdk_model None)) →
  emits_only P (_sync_get_content env fuel sdk_model os_query).
Proof.
  intros Hq Hn. unfold _sync_get_content, nsxv3_get_revisions.
  apply emits_only_bind; [by apply emits_only_get_revisions|]. intros revs.
  apply emits_only_bind; [|intros; apply emits_only_ret].
  apply emits_only_bind; [by apply emits_only_emit|]. intros _.
  apply emits_only_answer.
Qed.

(** A pass never touches the timestamp marker. *)
Definition not_marker_write (e : Event) : Prop :=
  e ≠ EvNsx Nsx_timestamp_update.

Lemma sync_inventory_shallow_no_marker env fuel :
  emits_only not_marker_write (_sync_inventory_shallow env fuel).
Proof.
  unfold _sync_inventory_shallow, runner_run, _sync_report, not_marker_write.
  cbv zeta.
  repeat first
    [ apply emits_only_sync_get_content; [intros; discriminate | discriminate]
    | footprint_step ].
Qed.

(** ** The full pass *)

(** C7. A full inventory pass whose three source queries end submits
    exactly three batches: the keys of the security-group revision query to
    [sync_security_group] at [HIGHER], the keys of the QoS revision query to
    [sync_qos] at [HIGH] and the keys of the port revision query to
    [sync_port] at [MEDIUM], each priority strictly below the one before.
    The key sets are all the keys the source returned, whatever the target
    store holds: the pass makes no call to the target store, submits no
    orphan handler, and a key the source did not return is in no batch. *)
Theorem sync_inventory_full_submits env n_sg n_qos n_port fuel w :
  source_pages_end env n_sg n_qos n_port →
  enough_fuel n_sg n_qos n_port fuel →
  ∃ evs,
    _sync_inventory_full env fuel w = (Ret tt, add_events evs w)
    ∧ submissions evs
      = [(HIGHER,
          dom (source_revisions env get_security_group_revision_tuples n_sg),
          H_sync_security_group);
         (HIGH,
          dom (source_revisions env get_qos_policy_revision_tuples n_qos),
          H_sync_qos);
         (MEDIUM,
          dom (source_revisions env get_port_revision_tuples n_port),
          H_sync_port)]
    ∧ lower_priority HIGH HIGHER ∧ lower_priority MEDIUM HIGH
    ∧ (∀ q n k, k ∈ dom (source_revisions env q n)
                ↔ ∃ t, t ∈ returned env q 0 (S n) ∧ t.1.1 = k)
    ∧ Forall (λ e, ∀ c, e ≠ EvNsx c) evs
    ∧ Forall (λ s : submission, is_orphan_handler s.2 = false)
        (submissions evs).
Proof.
  intros Hsrc Hfuel. exists (full_pass_events env n_sg n_qos n_port).
  split; [by apply sync_inventory_full_run|].
  split; [apply full_pass_submissions|].
  split; [unfold lower_priority; simpl; lia|].
  split; [unfold lower_priority; simpl; lia|].
  split; [apply source_revisions_dom|].
  split.
  - unfold full_pass_events, page_queries.
    repeat (apply Forall_app; split);
      try (apply Forall_fmap, Forall_forall; intros; simpl; discriminate).
    all: by repeat constructor.
  - rewrite full_pass_submissions. by repeat constructor.
Qed.

Lemma scenario_pages_end passive expired :
  source_pages_end (Scenario.env_gate passive expired) 0 0 0.
Proof.
  repeat split; try (intros m Hm; exfalso; apply (Nat.nlt_0_r _ Hm)).
Defined.

Lemma sync_inventory_full_submits_witness :
  ∃ evs,
    _sync_inventory_full Scenario.env 1 Scenario.world
    = (Ret tt, add_events evs Scenario.world)
    ∧ submissions evs
      = [(HIGHER,
          dom (source_revisions Scenario.env
                 get_security_group_revision_tuples 0),
          H_sync_security_group);
         (HIGH,
          dom (source_revisions Scenario.env
                 get_qos_policy_revision_tuples 0),
          H_sync_qos);
         (MEDIUM,
          dom (source_revisions Scenario.env get_port_revision_tuples 0),
          H_sync_port)]
    ∧ lower_priority HIGH HIGHER ∧ lower_priority MEDIUM HIGH
    ∧ (∀ q n k, k ∈ dom (source_revisions Scenario.env q n)
                ↔ ∃ t, t ∈ returned Scenario.env q 0 (S n) ∧ t.1.1 = k)
    ∧ Forall (λ e, ∀ c, e ≠ EvNsx c) evs
    ∧ Forall (λ s : submission, is_orphan_handler s.2 = false)
        (submissions evs).
Proof.
  apply (sync_inventory_full_submits Scenario.env 0 0 0 1 Scenario.world).
  - exact (scenario_pages_end 0 (inr false)).
  - unfold enough_fuel. lia.
Defined.

(** ** The shallow pass *)

(** The statement of the specification about a pass, over the batches it
    submitted: every kind has an orphan batch, and each orphan batch has a
    strictly lower priority than every other batch of its kind. *)
Definition orphans_strictly_below (subs : list submission) : Prop :=
  ∀ K : Kind,
    (∃ s, s ∈ subs ∧ handler_kind s.2 = K ∧ is_orphan_handler s.2 = true)
    ∧ ∀ s s', s ∈ subs → s' ∈ subs →
        handler_kind s.2 = K → handler_kind s'.2 = K →
        is_orphan_handler s.2 = true → is_orphan_handler s'.2 = false →
        lower_priority s.1.1 s'.1.1.

(** What the code guarantees for every kind: an orphan batch is never
    ahead of another batch of its kind. *)
Definition orphans_not_ahead (subs : list submission) : Prop :=
  ∀ s s', s ∈ subs → s' ∈ subs →
    handler_kind s.2 = handler_kind s'.2 →
    is_orphan_handler s.2 = true → is_orphan_handler s'.2 = false →
    (prio_rank s'.1.1 ≤ prio_rank s.1.1)%nat.

(** In the scenario of the specification the port orphans go to the runner
    at the priority of the outdated ports, and no batch is submitted for the
    QoS orphans: the orphan batches are not all strictly below. *)
Lemma shallow_pass_orphans_not_below :
  ∃ evs,
    _sync_inventory_shallow Scenario.env 1 Scenario.world
    = (Ret tt, add_events evs Scenario.world)
    ∧ submissions evs
      = [(HIGHER, {["B"]}, H_security_group_updated);
         (HIGH, {["B"]}, H_security_group_member_updated);
         (MEDIUM, {["B"]}, H_security_group_rule_updated);
         (LOW, {["C"]}, H_sync_security_group_orphaned);
         (LOWER, {["B"]}, H_sync_qos);
         (LOW, {["B"]}, H_sync_port);
         (LOW, {["C"]}, H_sync_port_orphaned)]
    ∧ ¬ lower_priority LOW LOW
    ∧ ¬ orphans_strictly_below (submissions evs).
Proof.
  eexists. split; [vm_compute; reflexivity|].
  split; [vm_compute; reflexivity|].
  split; [unfold lower_priority; lia|].
  intros Hall. destruct (Hall Ports) as [_ Hports].
  specialize (Hports (LOW, {["C"]}, H_sync_port_orphaned)
                     (LOW, {["B"]}, H_sync_port)).
  unfold lower_priority in Hports. simpl in Hports.
  assert (4 < 4)%nat; [|lia].
  apply Hports; try reflexivity.
  - apply list_elem_of_In. vm_compute. do 6 right. left. reflexivity.
  - apply list_elem_of_In. vm_compute. do 5 right. left. reflexivity.
Qed.

(** C3 (amended). A shallow inventory pass whose source queries end and
    whose target reads are answered submits seven batches, in this order:
    the outdated security groups at [HIGHER], [HIGH] and [MEDIUM], the
    orphaned security groups at [LOW] (strictly below the three), the
    outdated QoS policies at [LOWER], the outdated ports at [LOW] and then
    the orphaned ports at the same priority [LOW]. The orphaned QoS
    policies are reported and submitted to no handler. So no orphan batch is
    ahead of another batch of its kind, and the security-group orphans are
    strictly below the batches of the outdated security groups. *)
Theorem sync_inventory_shallow_priorities
    env n_sg n_qos n_port r_ips r_qos r_lps fuel w :
  source_pages_end env n_sg n_qos n_port →
  enough_fuel n_sg n_qos n_port fuel →
  target_answers env r_ips r_qos r_lps →
  ∃ evs,
    _sync_inventory_shallow env fuel w = (Ret tt, add_events evs w)
    ∧ submissions evs
      = [(HIGHER, (diff_ips env n_sg r_ips).1, H_security_group_updated);
         (HIGH, (diff_ips env n_sg r_ips).1, H_security_group_member_updated);
         (MEDIUM, (diff_ips env n_sg r_ips).1, H_security_group_rule_updated);
         (LOW, (diff_ips env n_sg r_ips).2, H_sync_security_group_orphaned);
         (LOWER, (diff_qos env n_qos r_qos).1, H_sync_qos);
         (LOW, (diff_lps env n_port r_lps).1, H_sync_port);
         (LOW, (diff_lps env n_port r_lps).2, H_sync_port_orphaned)]
    ∧ (∀ s, s ∈ submissions evs → handler_kind s.2 = SecurityGroups →
            is_orphan_handler s.2 = false →
            lower_priority LOW s.1.1)
    ∧ orphans_not_ahead (submissions evs)
    ∧ (∀ s, s ∈ submissions evs → s.2 ≠ H_sync_qos_orphaned).
Proof.
  intros Hsrc Hfuel Htgt.
  exists (shallow_pass_events env n_sg n_qos n_port r_ips r_qos r_lps).
  split; [by apply sync_inventory_shallow_run|].
  rewrite shallow_pass_submissions. split; [done|].
  unfold orphans_not_ahead, lower_priority.
  split; [|split].
  - intros s Hs. repeat (apply elem_of_cons in Hs as [->|Hs]);
      try (by apply not_elem_of_nil in Hs); simpl; intros; (lia || done).
  - intros s s' Hs Hs'.
    repeat (apply elem_of_cons in Hs as [->|Hs]);
      try (by apply not_elem_of_nil in Hs); simpl; try done;
      repeat (apply elem_of_cons in Hs' as [->|Hs']);
      try (by apply not_elem_of_nil in Hs'); simpl; intros; (lia || done).
  - intros s Hs. repeat (apply elem_of_cons in Hs as [->|Hs]);
      try (by apply not_elem_of_nil in Hs); done.
Qed.

Lemma scenario_target_answers :
  target_answers Scenario.env
    (Scenario.target, ∅, ∅) (Scenario.target, ∅, ∅) (Scenario.target, ∅, ∅).
Proof. repeat split. Defined.

Lemma sync_inventory_shallow_priorities_witness :
  let r := (Scenario.target, ∅, ∅) in
  ∃ evs,
    _sync_inventory_shallow Scenario.env 1 Scenario.world
    = (Ret tt, add_events evs Scenario.world)
    ∧ submissions evs
      = [(HIGHER, (diff_ips Scenario.env 0 r).1, H_security_group_updated);
         (HIGH, (diff_ips Scenario.env 0 r).1,
          H_security_group_member_updated);
         (MEDIUM, (diff_ips Scenario.env 0 r).1,
          H_security_group_rule_updated);
         (LOW, (diff_ips Scenario.env 0 r).2, H_sync_security_group_orphaned);
         (LOWER, (diff_qos Scenario.env 0 r).1, H_sync_qos);
         (LOW, (diff_lps Scenario.env 0 r).1, H_sync_port);
         (LOW, (diff_lps Scenario.env 0 r).2, H_sync_port_orphaned)]
    ∧ (∀ s, s ∈ submissions evs → handler_kind s.2 = SecurityGroups →
            is_orphan_handler s.2 = false →
            lower_priority LOW s.1.1)
    ∧ orphans_not_ahead (submissions evs)
    ∧ (∀ s, s ∈ submissions evs → s.2 ≠ H_sync_qos_orphaned).
Proof.
  apply (sync_inventory_shallow_priorities Scenario.env 0 0 0
           (Scenario.target, ∅, ∅) (Scenario.target, ∅, ∅)
           (Scenario.target, ∅, ∅) 1 Scenario.world).
  - exact (scenario_pages_end 0 (inr false)).
  - unfold enough_fuel. lia.
  - exact scenario_target_answers.
Defined.

(** ** The synchronization gate *)

Definition pools_size_line : Event :=
  EvLog INFO
    "Synchronization events pools size HIGHPRIORITY={} LOWPRIORITY={}".

Lemma sync_inventory_backlog env fuel w :
  (0 < runner_passive env)%nat →
  sync_inventory env fuel w
  = (Ret tt,
     add_events [EvAcquire AGENT_SYNCHRONIZATION_LOCK; pools_size_line;
                 EvRelease AGENT_SYNCHRONIZATION_LOCK] w).
Proof.
  intros Hp. unfold sync_inventory, with_lock.
  erewrite bind_run by reflexivity.
  rewrite bool_decide_eq_true_2 by done. unfold mret, M_ret.
  by rewrite !add_event_events, !add_events_app.
Qed.

Lemma sync_inventory_expired env n_sg n_qos n_port fuel w :
  runner_passive env = 0%nat →
  timestamp_has_expired env = inr true →
  source_pages_end env n_sg n_qos n_port →
  enough_fuel n_sg n_qos n_port fuel →
  sync_inventory env fuel w
  = (match nsx_mutation env Nsx_timestamp_update with
     | Some e => Raise e
     | None => Ret tt
     end,
     add_events
       ([EvAcquire AGENT_SYNCHRONIZATION_LOCK; pools_size_line;
         EvNsx Nsx_timestamp_has_expired;
         EvLog INFO "Starting a full inventory synchronization"]
        ++ full_pass_events env n_sg n_qos n_port
        ++ [EvNsx Nsx_timestamp_update;
            EvRelease AGENT_SYNCHRONIZATION_LOCK]) w).
Proof.
  intros Hp Hexp Hsrc Hfuel. unfold sync_inventory, with_lock.
  erewrite bind_run by reflexivity.
  rewrite bool_decide_eq_false_2 by lia.
  unfold timestamp_has_expired_call. rewrite Hexp.
  erewrite bind_run by reflexivity. cbv iota.
  erewrite bind_run by reflexivity.
  erewrite bind_run by (by apply sync_inventory_full_run).
  unfold timestamp_update, emit, log, mbind, M_bind, raise, mret, M_ret.
  destruct (nsx_mutation env Nsx_timestamp_update);
    rewrite !add_event_events, !add_events_app; by rewrite <- ?app_assoc.
Qed.

Lemma sync_inventory_fresh env n_sg n_qos n_port r_ips r_qos r_lps fuel w :
  runner_passive env = 0%nat →
  timestamp_has_expired env = inr false →
  source_pages_end env n_sg n_qos n_port →
  enough_fuel n_sg n_qos n_port fuel →
  target_answers env r_ips r_qos r_lps →
  sync_inventory env fuel w
  = (Ret tt,
     add_events
       ([EvAcquire AGENT_SYNCHRONIZATION_LOCK; pools_size_line;
         EvNsx Nsx_timestamp_has_expired;
         EvLog INFO "Starting a shallow inventory synchronization"]
        ++ shallow_pass_events env n_sg n_qos n_port r_ips r_qos r_lps
        ++ [EvRelease AGENT_SYNCHRONIZATION_LOCK]) w).
Proof.
  intros Hp Hexp Hsrc Hfuel Htgt. unfold sync_inventory, with_lock.
  erewrite bind_run by reflexivity.
  rewrite bool_decide_eq_false_2 by lia.
  unfold timestamp_has_expired_call. rewrite Hexp.
  erewrite bind_run by reflexivity. cbv iota.
  erewrite bind_run by reflexivity.
  erewrite sync_inventory_shallow_run by done.
  rewrite !add_event_events, !add_events_app; by rewrite <- ?app_assoc.
Qed.

Lemma sync_inventory_fresh_no_marker env fuel :
  timestamp_has_expired env = inr false →
  emits_only not_marker_write (sync_inventory env fuel).
Proof.
  intros Hexp. unfold sync_inventory, log, timestamp_has_expired_call.
  rewrite Hexp.
  apply emits_only_with_lock; [done..|].
  apply emits_only_bind; [by apply emits_only_emit|]. intros _.
  apply emits_only_if; [apply emits_only_ret|].
  apply (emits_only_ext _ _
           (emit (EvNsx Nsx_timestamp_has_expired);;
            emit (EvLog INFO "Starting a shallow inventory synchronization");;
            _sync_inventory_shallow env fuel)); [done|].
  apply emits_only_bind; [by apply emits_only_emit|]. intros _.
  apply emits_only_bind; [by apply emits_only_emit|]. intros _.
  apply sync_inventory_shallow_no_marker.
Qed.

(** C4. [sync_inventory] works between the acquisition and the release of
    the global synchronization lock. With a backlog in the runner it only
    logs the pool sizes: nothing is submitted and the marker is not
    written. Without a backlog it reads the marker; when the timestamp has
    expired it submits the full pass and then writes the marker, and when it
    has not it submits the shallow pass, and however that ends the marker is
    not written. *)
Theorem sync_inventory_gate env fuel w :
  ((0 < runner_passive env)%nat →
   sync_inventory env fuel w
   = (Ret tt,
      add_events [EvAcquire AGENT_SYNCHRONIZATION_LOCK; pools_size_line;
                  EvRelease AGENT_SYNCHRONIZATION_LOCK] w))
  ∧ (runner_passive env = 0%nat →
     timestamp_has_expired env = inr true →
     ∀ n_sg n_qos n_port,
       source_pages_end env n_sg n_qos n_port →
       enough_fuel n_sg n_qos n_port fuel →
       sync_inventory env fuel w
       = (match nsx_mutation env Nsx_timestamp_update with
          | Some e => Raise e
          | None => Ret tt
          end,
          add_events
            ([EvAcquire AGENT_SYNCHRONIZATION_LOCK; pools_size_line;
              EvNsx Nsx_timestamp_has_expired;
              EvLog INFO "Starting a full inventory synchronization"]
             ++ full_pass_events env n_sg n_qos n_port
             ++ [EvNsx Nsx_timestamp_update;
                 EvRelease AGENT_SYNCHRONIZATION_LOCK]) w))
  ∧ (runner_passive env = 0%nat →
     timestamp_has_expired env = inr false →
     (∀ n_sg n_qos n_port r_ips r_qos r_lps,
        source_pages_end env n_sg n_qos n_port →
        enough_fuel n_sg n_qos n_port fuel →
        target_answers env r_ips r_qos r_lps →
        sync_inventory env fuel w
        = (Ret tt,
           add_events
             ([EvAcquire AGENT_SYNCHRONIZATION_LOCK; pools_size_line;
               EvNsx Nsx_timestamp_has_expired;
               EvLog INFO "Starting a shallow inventory synchronization"]
              ++ shallow_pass_events env n_sg n_qos n_port r_ips r_qos r_lps
              ++ [EvRelease AGENT_SYNCHRONIZATION_LOCK]) w))
     ∧ ∃ evs, (sync_inventory env fuel w).2 = add_events evs w
              ∧ Forall not_marker_write evs).
Proof.
  split; [apply sync_inventory_backlog|]. split.
  - intros Hp Hexp n_sg n_qos n_port. by apply sync_inventory_expired.
  - intros Hp Hexp. split.
    + intros n_sg n_qos n_port r_ips r_qos r_lps.
      by apply sync_inventory_fresh.
    + by apply sync_inventory_fresh_no_marker.
Qed.

Lemma sync_inventory_gate_witness :
  sync_inventory (Scenario.env_gate 2 (inr false)) 1 Scenario.world
  = (Ret tt,
     add_events [EvAcquire AGENT_SYNCHRONIZATION_LOCK; pools_size_line;
                 EvRelease AGENT_SYNCHRONIZATION_LOCK] Scenario.world)
  ∧ sync_inventory (Scenario.env_gate 0 (inr true)) 1 Scenario.world
    = (Ret tt,
       add_events
         ([EvAcquire AGENT_SYNCHRONIZATION_LOCK; pools_size_line;
           EvNsx Nsx_timestamp_has_expired;
           EvLog INFO "Starting a full inventory synchronization"]
          ++ full_pass_events (Scenario.env_gate 0 (inr true)) 0 0 0
          ++ [EvNsx Nsx_timestamp_update;
              EvRelease AGENT_SYNCHRONIZATION_LOCK]) Scenario.world)
  ∧ sync_inventory Scenario.env 1 Scenario.world
    = (Ret tt,
       add_events
         ([EvAcquire AGENT_SYNCHRONIZATION_LOCK; pools_size_line;
           EvNsx Nsx_timestamp_has_expired;
           EvLog INFO "Starting a shallow inventory synchronization"]
          ++ shallow_pass_events Scenario.env 0 0 0
               (Scenario.target, ∅, ∅) (Scenario.target, ∅, ∅)
               (Scenario.target, ∅, ∅)
          ++ [EvRelease AGENT_SYNCHRONIZATION_LOCK]) Scenario.world).
Proof.
  split; [|split].
  - apply (proj1 (sync_inventory_gate (Scenario.env_gate 2 (inr false)) 1
                    Scenario.world)).
    simpl. lia.
  - apply (proj1 (proj2 (sync_inventory_gate (Scenario.env_gate 0 (inr true))
                           1 Scenario.world))
             eq_refl eq_refl 0%nat 0%nat 0%nat).
    + exact (scenario_pages_end 0 (inr true)).
    + unfold enough_fuel. lia.
  - apply (proj1 (proj2 (proj2 (sync_inventory_gate Scenario.env 1
                                  Scenario.world)) eq_refl eq_refl)
             0%nat 0%nat 0%nat).
    + exact (scenario_pages_end 0 (inr false)).
    + unfold enough_fuel. lia.
    + exact scenario_target_answers.
Defined.

(** ** The security-group rule reconciler *)

(** [d[k]] for a string key. *)
Definition dict_item {V} (d : gmap string V) (k : string) : M V :=
  match d !! k with
  | Some v => mret v
  | None => raise (KeyError k)
  end.

(** Lists and dictionaries cannot be looked up in a dictionary. *)
Definition hashable (v : pyval) : bool :=
  match v with
  | PList _ | PDict _ => false
  | _ => true
  end.

(** [k in d] for a hashable [k]: the keys of the maps are strings. *)
Definition dict_has {V} (d : gmap string V) (k : pyval) : bool :=
  match k with
  | PStr s => bool_decide (is_Some (d !! s))
  | _ => false
  end.

(** [k in d]. *)
Definition dict_contains {V} (d : gmap string V) (k : pyval) : M bool :=
  if hashable k then mret (dict_has d k) else raise TypeError.

(** [d.get(k)] for a hashable [k]. *)
Definition dict_get_val (d : gmap string pyval) (k : pyval) : pyval :=
  match k with
  | PStr s => dict_get PNone d s
  | _ => PNone
  end.

(** [v.get(k)]: only a dictionary has the method. *)
Definition py_get (v : pyval) (k : string) : M pyval :=
  match v with
  | PDict d => mret (dict_get PNone d k)
  | _ => raise AttributeError
  end.

Definition attrs : list string :=
  ["id"; "port_range_min"; "port_range_max"; "protocol"; "ethertype";
   "direction"; "remote_group_id"; "remote_ip_prefix"; "security_group_id"].

(** [for key in attrs: fwr[key] = rule[key]]. *)
Fixpoint copy_attrs (rule : gmap string pyval) (keys : list string)
    (fwr : gmap string pyval) : M (gmap string pyval) :=
  match keys with
  | [] => mret fwr
  | key :: keys =>
      v ← dict_item rule key;
      copy_attrs rule keys (<[key := v]> fwr)
  end.

(** The first part of the loop body: the rule of the source store in the
    shape of the target store. *)
Definition project_rule (ipset_id nsg_id : string)
    (revs_ips : gmap string pyval) (rule : gmap string pyval)
    : M (gmap string pyval) :=
  remote_group_id ← dict_item rule "remote_group_id";
  fwr ← copy_attrs rule attrs ∅;
  let fwr := <["local_group_id" := PStr ipset_id]> fwr in
  let fwr := <["apply_to" := PStr nsg_id]> fwr in
  known ← dict_contains revs_ips remote_group_id;
  if known : bool
  then mret (<["remote_group_id" := dict_get_val revs_ips remote_group_id]> fwr)
  else mret fwr.

(** The body of [for rule in neutron_rules], on [add_rules] and
    [revs_fwr]. *)
Definition reconcile_rule (env : Env) (ipset_id nsg_id : string)
    (revs_ips meta_fwr : gmap string pyval)
    (st : list pyval * gmap string pyval) (rule : gmap string pyval)
    : M (list pyval * gmap string pyval) :=
  let add_rules := st.1 in
  let revs_fwr := st.2 in
  name ← dict_item rule "id";
  fwr ← project_rule ipset_id nsg_id revs_ips rule;
  present ← dict_contains revs_fwr name;
  skip ← (if present : bool then
            (* If the rule is disabled recreate it *)
            disabled ← py_get (dict_get_val meta_fwr name)
                         "FirewallRule.disabled";
            mret (negb (truthy disabled))
          else mret false);
  if skip : bool then
    mret (add_rules,
          match name with PStr s => delete s revs_fwr | _ => revs_fwr end)
  else
    let fwr_spec := nsx_get_security_group_rule_spec env fwr in
    if truthy fwr_spec
    then mret ((add_rules ++ [fwr_spec])%list, revs_fwr)
    else mret (add_rules, revs_fwr).

Fixpoint reconcile_rules (env : Env) (ipset_id nsg_id : string)
    (revs_ips meta_fwr : gmap string pyval)
    (neutron_rules : list (gmap string pyval))
    (st : list pyval * gmap string pyval)
    : M (list pyval * gmap string pyval) :=
  match neutron_rules with
  | [] => mret st
  | rule :: rest =>
      st ← reconcile_rule env ipset_id nsg_id revs_ips meta_fwr st rule;
      reconcile_rules env ipset_id nsg_id revs_ips meta_fwr rest st
  end.

(** [revs_fwr.values()]. *)
Definition dict_values (d : gmap string pyval) : list pyval :=
  (map_to_list d).*2.

Definition nsxv3_get_or_create_security_group (env : Env) (sg_id : string)
    : M (string * string * string) :=
  emit (EvNsx (Nsx_get_or_create_security_group sg_id));;
  answer (nsx_get_or_create_security_group env sg_id).

Definition nsxv3_mutate (env : Env) (c : NsxCall) : M unit :=
  emit (EvNsx c);;
  match nsx_mutation env c with
  | Some e => raise e
  | None => mret tt
  end.

Definition security_group_rule_updated (env : Env) (sg_id : string)
    : M unit :=
  log DEBUG "Updating Security Group '{}' rules";;
  with_lock sg_id (
    sg ← nsxv3_get_or_create_security_group env sg_id;
    let ipset_id := sg.1.1 in
    let nsg_id := sg.1.2 in
    let sec_id := sg.2 in
    r_ips ← nsxv3_get_revisions env IPSet None;
    let revs_ips := r_ips.1.2 in
    r_fwr ← nsxv3_get_revisions env FirewallRule (Some ("section_id", sec_id));
    let revs_fwr := r_fwr.1.2 in
    let meta_fwr := r_fwr.2 in
    emit (EvRpc (Rpc_get_rules_for_security_groups_id sg_id));;
    neutron_rules ← answer (rpc_get_rules_for_security_groups_id env sg_id);
    st ← reconcile_rules env ipset_id nsg_id revs_ips meta_fwr neutron_rules
           ([], revs_fwr);
    let add_rules := st.1 in
    let del_rules := dict_values st.2 in
    emit (EvRpc (Rpc_get_security_group_revision sg_id));;
    rv ← answer (rpc_get_security_group_revision env sg_id);
    nsxv3_mutate env
      (Nsx_update_security_group_rules rv.1 rv.2 add_rules del_rules)).

(** A rule of the source store carries every attribute the loop reads, and
    its id and remote group id can be looked up in a dictionary. *)
Definition wf_rule (rule : gmap string pyval) : Prop :=
  (∀ k, k ∈ attrs → is_Some (rule !! k))
  ∧ hashable (dict_get PNone rule "id") = true
  ∧ hashable (dict_get PNone rule "remote_group_id") = true.

Definition empty_world : World :=
  {| events := []; updated_devices := []; last_sync_time := 0 |}.

(** The dictionary [project_rule] returns. *)
Definition projection (ipset_id nsg_id : string)
    (revs_ips : gmap string pyval) (rule : gmap string pyval)
    : gmap string pyval :=
  match (project_rule ipset_id nsg_id revs_ips rule empty_world).1 with
  | Ret fwr => fwr
  | _ => ∅
  end.

Section Projection.
Variables (ipset_id nsg_id : string) (revs_ips : gmap string pyval).

Lemma dict_item_run {V} (d : gmap string V) k v w :
  d !! k = Some v → dict_item d k w = (Ret v, w).
Proof. intros Hk. unfold dict_item. by rewrite Hk. Qed.

Lemma copy_attrs_run rule keys : ∀ fwr w,
  (∀ k, k ∈ keys → is_Some (rule !! k)) →
  copy_attrs rule keys fwr w
  = (Ret (foldl (λ fwr k, <[k := dict_get PNone rule k]> fwr) fwr keys), w).
Proof.
  induction keys as [|key keys IH]; intros fwr w Hall; [done|].
  destruct (Hall key) as [v Hv]; [constructor|]. simpl.
  erewrite bind_run by (by apply dict_item_run).
  rewrite IH by (intros k Hk; apply Hall; by constructor).
  unfold dict_get. by rewrite Hv.
Qed.

(** The copy of the attributes with the references of the owning group. *)
Definition base_fwr (rule : gmap string pyval) : gmap string pyval :=
  <["apply_to" := PStr nsg_id]>
    (<["local_group_id" := PStr ipset_id]>
       (foldl (λ fwr k, <[k := dict_get PNone rule k]> fwr) ∅ attrs)).

Lemma project_rule_run rule w :
  wf_rule rule →
  project_rule ipset_id nsg_id revs_ips rule w
  = (Ret (let remote_group_id := dict_get PNone rule "remote_group_id" in
          if dict_has revs_ips remote_group_id
          then <["remote_group_id" :=
                   dict_get_val revs_ips remote_group_id]> (base_fwr rule)
          else base_fwr rule), w).
Proof.
  intros (Hattrs & _ & Hhash). unfold project_rule.
  destruct (Hattrs "remote_group_id") as [g Hg];
    [unfold attrs; set_solver|].
  erewrite bind_run by (by apply dict_item_run).
  erewrite bind_run by (by apply copy_attrs_run).
  unfold dict_get in *. rewrite Hg in *. simpl in *.
  unfold dict_contains. rewrite Hhash.
  erewrite bind_run by reflexivity.
  by destruct (dict_has revs_ips g).
Qed.

Lemma projection_run rule w :
  wf_rule rule →
  project_rule ipset_id nsg_id revs_ips rule w
  = (Ret (projection ipset_id nsg_id revs_ips rule), w).
Proof.
  intros Hwf. unfold projection.
  by rewrite !project_rule_run.
Qed.

Lemma projection_id rule :
  wf_rule rule →
  projection ipset_id nsg_id revs_ips rule !! "id" = rule !! "id".
Proof.
  intros Hwf. unfold projection. rewrite project_rule_run by done.
  destruct Hwf as (Hattrs & _). destruct (Hattrs "id") as [v Hv];
    [unfold attrs; set_solver|].
  cbv zeta. simpl.
  destruct (dict_has _ _); unfold base_fwr, attrs, dict_get; simpl;
    rewrite Hv; by simplify_map_eq.
Qed.

Lemma projection_remote_group_id rule :
  wf_rule rule →
  projection ipset_id nsg_id revs_ips rule !! "remote_group_id"
  = Some (match dict_get PNone rule "remote_group_id" with
          | PStr g => default (PStr g) (revs_ips !! g)
          | v => v
          end).
Proof.
  intros Hwf. unfold projection. rewrite project_rule_run by done.
  cbv zeta. simpl.
  destruct (dict_get PNone rule "remote_group_id") as [| | |g| |] eqn:Hg;
    simpl; try (unfold base_fwr, attrs; simpl; rewrite Hg;
                by simplify_map_eq).
  case_bool_decide as Hin.
  - destruct Hin as [ref Href]. unfold dict_get. rewrite Href. simpl.
    by simplify_map_eq.
  - apply eq_None_not_Some in Hin. rewrite Hin. simpl.
    unfold base_fwr, attrs; simpl; rewrite Hg. by simplify_map_eq.
Qed.
End Projection.

Section Reconcile.
Variables (env : Env) (ipset_id nsg_id : string).
Variables (revs_ips meta_fwr : gmap string pyval).

Definition rule_name (rule : gmap string pyval) : pyval :=
  dict_get PNone rule "id".

(** The disabled flag the target store holds for the rule of that name. *)
Definition rule_disabled (name : pyval) : bool :=
  truthy (match dict_get_val meta_fwr name with
          | PDict d => dict_get PNone d "FirewallRule.disabled"
          | _ => PNone
          end).

(** The rule exists in the target and is not disabled: the loop leaves it
    alone. *)
Definition untouched (revs_fwr : gmap string pyval)
    (rule : gmap string pyval) : bool :=
  dict_has revs_fwr (rule_name rule) && negb (rule_disabled (rule_name rule)).

Definition rule_spec (rule : gmap string pyval) : pyval :=
  nsx_get_security_group_rule_spec env
    (projection ipset_id nsg_id revs_ips rule).

(** The metadata of every target rule is a dictionary. *)
Definition wf_meta (revs_fwr : gmap string pyval) : Prop :=
  ∀ s, is_Some (revs_fwr !! s) → ∃ d, meta_fwr !! s = Some (PDict d).

Definition drop_name (name : pyval) (revs_fwr : gmap string pyval)
    : gmap string pyval :=
  match name with PStr s => delete s revs_fwr | _ => revs_fwr end.

Lemma reconcile_rule_run add_rules revs_fwr rule w :
  wf_rule rule → wf_meta revs_fwr →
  reconcile_rule env ipset_id nsg_id revs_ips meta_fwr
    (add_rules, revs_fwr) rule w
  = (Ret (if untouched revs_fwr rule
          then (add_rules, drop_name (rule_name rule) revs_fwr)
          else if truthy (rule_spec rule)
               then ((add_rules ++ [rule_spec rule])%list, revs_fwr)
               else (add_rules, revs_fwr)), w).
Proof.
  intros Hwf Hmeta. pose proof Hwf as (Hattrs & Hid & _).
  destruct (Hattrs "id") as [name Hname]; [unfold attrs; set_solver|].
  unfold reconcile_rule, untouched, rule_spec, rule_name, rule_disabled in *.
  unfold dict_get in *. rewrite Hname in *. simpl in *.
  erewrite bind_run by (by apply dict_item_run).
  erewrite bind_run by (by apply projection_run).
  unfold dict_contains. rewrite Hid.
  erewrite bind_run by reflexivity.
  destruct (dict_has revs_fwr name) eqn:Hhas; simpl.
  - destruct name as [| | |s| |]; try discriminate. simpl in *.
    apply bool_decide_eq_true in Hhas.
    destruct (Hmeta s Hhas) as [d Hd]. unfold dict_get. rewrite Hd. simpl.
    unfold mbind, M_bind, mret, M_ret, dict_get.
    destruct (truthy (default PNone (d !! "FirewallRule.disabled")));
      simpl; [destruct (truthy _)|]; reflexivity.
  - erewrite bind_run by reflexivity. by destruct (truthy _).
Qed.

Lemma drop_name_lookup name revs_fwr k :
  drop_name name revs_fwr !! k
  = if pyval_eq_str name k then None else revs_fwr !! k.
Proof.
  destruct name as [| | |s| |]; simpl; try done.
  destruct (String.eqb s k) eqn:Hk.
  - apply String.eqb_eq in Hk as ->. apply lookup_delete_eq.
  - apply String.eqb_neq in Hk. by apply lookup_delete_ne.
Qed.

Lemma wf_meta_drop name revs_fwr :
  wf_meta revs_fwr → wf_meta (drop_name name revs_fwr).
Proof.
  intros Hmeta s. rewrite drop_name_lookup.
  destruct (pyval_eq_str name s); [by intros [? ?] | apply Hmeta].
Qed.

Lemma untouched_drop name revs_fwr rule :
  rule_name rule ≠ name →
  untouched (drop_name name revs_fwr) rule = untouched revs_fwr rule.
Proof.
  intros Hne. unfold untouched. f_equal.
  destruct (rule_name rule) as [| | |s| |]; simpl; try done.
  rewrite drop_name_lookup.
  destruct (pyval_eq_str name s) eqn:Hs; [|done].
  apply pyval_eq_str_true in Hs. congruence.
Qed.

(** The rules the loop builds a spec for, and the specs it keeps. *)
Definition recreated (revs_fwr : gmap string pyval)
    (rules : list (gmap string pyval)) : list (gmap string pyval) :=
  filter (λ rule, untouched revs_fwr rule = false) rules.

Definition added (revs_fwr : gmap string pyval)
    (rules : list (gmap string pyval)) : list pyval :=
  filter (λ s, truthy s = true) (rule_spec <$> recreated revs_fwr rules).

(** The target rules left for deletion. *)
Definition remaining (revs_fwr : gmap string pyval)
    (rules : list (gmap string pyval)) : gmap string pyval :=
  foldl (λ fw rule,
           if untouched revs_fwr rule then drop_name (rule_name rule) fw
           else fw)
        revs_fwr rules.

Lemma reconcile_rules_run rules : ∀ add_rules revs_fwr w,
  Forall wf_rule rules → wf_meta revs_fwr →
  NoDup (rule_name <$> rules) →
  reconcile_rules env ipset_id nsg_id revs_ips meta_fwr rules
    (add_rules, revs_fwr) w
  = (Ret ((add_rules ++ added revs_fwr rules)%list,
          remaining revs_fwr rules), w).
Proof.
  induction rules as [|rule rules IH]; intros add_rules revs_fwr w Hwf Hmeta Hnd.
  - simpl. unfold added, recreated, remaining. simpl.
    by rewrite app_nil_r.
  - apply Forall_cons in Hwf as [Hrule Hwf].
    rewrite fmap_cons in Hnd. apply NoDup_cons in Hnd as [Hfresh Hnd].
    simpl. erewrite bind_run by (by apply reconcile_rule_run).
    assert (Hsame : ∀ fw,
               foldl (λ fw r, if untouched (drop_name (rule_name rule) revs_fwr) r
                              then drop_name (rule_name r) fw else fw) fw rules
               = foldl (λ fw r, if untouched revs_fwr r
                                then drop_name (rule_name r) fw else fw) fw rules).
    { intros fw. revert fw Hfresh. clear. induction rules as [|r rules IH];
        intros fw Hfresh; [done|]. simpl.
      rewrite fmap_cons in Hfresh. apply not_elem_of_cons in Hfresh as [Hne Hfresh].
      rewrite untouched_drop by done. by apply IH. }
    assert (Hrec : recreated (drop_name (rule_name rule) revs_fwr) rules
                   = recreated revs_fwr rules).
    { revert Hfresh. clear. unfold recreated.
      induction rules as [|r rules IH]; intros Hfresh; [done|].
      rewrite fmap_cons in Hfresh. apply not_elem_of_cons in Hfresh as [Hne Hfresh].
      rewrite !filter_cons, untouched_drop by done.
      by rewrite IH. }
    unfold added, remaining, recreated in *. rewrite filter_cons. simpl.
    destruct (untouched revs_fwr rule) eqn:Hun.
    + rewrite IH by (try done; by apply wf_meta_drop).
      rewrite decide_False by done. by rewrite Hrec, Hsame.
    + rewrite decide_True by done. rewrite fmap_cons, filter_cons.
      destruct (truthy (rule_spec rule)) eqn:Hspec.
      * rewrite IH by done. rewrite decide_True by done.
        by rewrite <- app_assoc.
      * rewrite IH by done. by rewrite decide_False by congruence.
Qed.

Lemma remaining_step fw0 rules k : ∀ fw,
  foldl (λ fw rule, if untouched fw0 rule
                    then drop_name (rule_name rule) fw else fw)
    fw rules !! k
  = None
  ∨ (foldl (λ fw rule, if untouched fw0 rule
                       then drop_name (rule_name rule) fw else fw)
       fw rules !! k
     = fw !! k
     ∧ ¬ ∃ rule, rule ∈ rules ∧ rule_name rule = PStr k
                 ∧ untouched fw0 rule = true).
Proof.
  induction rules as [|rule rules IH]; intros fw; simpl.
  - right. split; [done|]. intros (rule & Hin & _).
    by apply not_elem_of_nil in Hin.
  - destruct (IH (if untouched fw0 rule
                  then drop_name (rule_name rule) fw else fw))
      as [Hnone | [Hsame Hno]]; [by left|].
    rewrite Hsame. destruct (untouched fw0 rule) eqn:Hun.
    + rewrite drop_name_lookup.
      destruct (pyval_eq_str (rule_name rule) k) eqn:Hk; [by left|].
      right. split; [done|]. intros (r & Hin & Hr & Hu).
      apply elem_of_cons in Hin as [->|Hin]; [|by eauto].
      apply pyval_eq_str_true in Hr. congruence.
    + right. split; [done|]. intros (r & Hin & Hr & Hu).
      apply elem_of_cons in Hin as [->|Hin]; [congruence | by eauto].
Qed.

Lemma remaining_dropped fw0 rules k : ∀ fw,
  (∃ rule, rule ∈ rules ∧ rule_name rule = PStr k
           ∧ untouched fw0 rule = true) →
  foldl (λ fw rule, if untouched fw0 rule
                    then drop_name (rule_name rule) fw else fw)
    fw rules !! k
  = None.
Proof.
  intros fw Hex.
  destruct (remaining_step fw0 rules k fw) as [Hnone | [_ Hno]]; done.
Qed.

Lemma remaining_kept fw0 rules k : ∀ fw,
  (¬ ∃ rule, rule ∈ rules ∧ rule_name rule = PStr k
             ∧ untouched fw0 rule = true) →
  foldl (λ fw rule, if untouched fw0 rule
                    then drop_name (rule_name rule) fw else fw)
    fw rules !! k
  = fw !! k.
Proof.
  induction rules as [|rule rules IH]; intros fw Hno; [done|]. simpl.
  rewrite IH.
  - destruct (untouched fw0 rule) eqn:Hun; [|done].
    rewrite drop_name_lookup.
    destruct (pyval_eq_str (rule_name rule) k) eqn:Hk; [|done].
    apply pyval_eq_str_true in Hk. exfalso. apply Hno.
    exists rule. split; [constructor | done].
  - intros (r & Hin & Hr). apply Hno. exists r.
    split; [by constructor | done].
Qed.

Lemma remaining_subseteq fw0 rules : ∀ fw,
  foldl (λ fw rule, if untouched fw0 rule
                    then drop_name (rule_name rule) fw else fw)
    fw rules ⊆ fw.
Proof.
  induction rules as [|rule rules IH]; intros fw; [done|]. simpl.
  etrans; [apply IH|]. destruct (untouched fw0 rule); [|done].
  unfold drop_name. destruct (rule_name rule); try done.
  apply delete_subseteq.
Qed.
End Reconcile.

Section RuleUpdate.
Variables (env : Env) (sg_id ipset_id nsg_id sec_id : string).
Variables (r_ips r_fwr : gmap string pyval * gmap string pyval
                         * gmap string pyval).
Variable neutron_rules : list (gmap string pyval).
Variable rv : pyval * pyval.

(** What the collaborators answer to one run of
    [security_group_rule_updated]. *)
Definition rule_update_answers : Prop :=
  nsx_get_or_create_security_group env sg_id
  = inr (ipset_id, nsg_id, sec_id)
  ∧ nsx_get_revisions env IPSet None = inr r_ips
  ∧ nsx_get_revisions env FirewallRule (Some ("section_id", sec_id))
    = inr r_fwr
  ∧ rpc_get_rules_for_security_groups_id env sg_id = inr neutron_rules
  ∧ rpc_get_security_group_revision env sg_id = inr rv.

(** The rule ids of the source store are pairwise distinct, and the rules
    and the metadata of the target rules are well formed. *)
Definition rule_update_inputs : Prop :=
  Forall wf_rule neutron_rules
  ∧ wf_meta r_fwr.2 r_fwr.1.2
  ∧ NoDup (rule_name <$> neutron_rules).

Definition add_rules_of : list pyval :=
  added env ipset_id nsg_id r_ips.1.2 r_fwr.2 r_fwr.1.2 neutron_rules.

Definition del_rules_of : list pyval :=
  dict_values (remaining r_fwr.2 r_fwr.1.2 neutron_rules).

Definition rule_update_call : NsxCall :=
  Nsx_update_security_group_rules rv.1 rv.2 add_rules_of del_rules_of.

Definition rule_update_events : list Event :=
  [EvLog DEBUG "Updating Security Group '{}' rules";
   EvAcquire sg_id;
   EvNsx (Nsx_get_or_create_security_group sg_id);
   EvNsx (Nsx_get_revisions IPSet None);
   EvNsx (Nsx_get_revisions FirewallRule (Some ("section_id", sec_id)));
   EvRpc (Rpc_get_rules_for_security_groups_id sg_id);
   EvRpc (Rpc_get_security_group_revision sg_id);
   EvNsx rule_update_call;
   EvRelease sg_id].

Lemma security_group_rule_updated_run w :
  rule_update_answers → rule_update_inputs →
  security_group_rule_updated env sg_id w
  = (match nsx_mutation env rule_update_call with
     | Some e => Raise e
     | None => Ret tt
     end, add_events rule_update_events w).
Proof.
  intros (Hsg & Hips & Hfwr & Hrules & Hrv) (Hwf & Hmeta & Hnd).
  unfold security_group_rule_updated.
  erewrite bind_run by reflexivity. unfold with_lock.
  unfold nsxv3_get_or_create_security_group. rewrite Hsg.
  erewrite bind_run by reflexivity. cbv zeta. cbn [fst snd].
  unfold nsxv3_get_revisions. rewrite Hips.
  erewrite bind_run by reflexivity. rewrite Hfwr.
  erewrite bind_run by reflexivity.
  erewrite bind_run by reflexivity. rewrite Hrules.
  erewrite bind_run by reflexivity.
  erewrite bind_run by (by apply reconcile_rules_run).
  erewrite bind_run by reflexivity. rewrite Hrv.
  erewrite bind_run by reflexivity.
  unfold nsxv3_mutate, emit, mbind, M_bind, raise, mret, M_ret.
  cbn [fst snd app].
  fold add_rules_of del_rules_of rule_update_call.
  unfold rule_update_events.
  destruct (nsx_mutation env rule_update_call);
    by rewrite !add_event_events, !add_events_app.
Qed.
End RuleUpdate.

(** A security group with one target rule [R] and its rules in the source
    store. *)
Module RuleScenario.
Definition rule (id : string) (remote_group_id : pyval)
    : gmap string pyval :=
  list_to_map
    [("id", PStr id); ("port_range_min", PInt 22);
     ("port_range_max", PInt 22); ("protocol", PStr "tcp");
     ("ethertype", PStr "IPv4"); ("direction", PStr "ingress");
     ("remote_group_id", remote_group_id); ("remote_ip_prefix", PNone);
     ("security_group_id", PStr "sg-1")].

Definition revs_ips : gmap string pyval := {["sg-2" := PStr "ipset-2"]}.

Definition revs_fwr : gmap string pyval := {["R" := PStr "fw-R"]}.

Definition meta_fwr (disabled : bool) : gmap string pyval :=
  {["R" := PDict {["FirewallRule.disabled" := PBool disabled]}]}.

Definition env (spec : gmap string pyval → pyval)
    (rules : list (gmap string pyval)) (disabled : bool) : Env :=
  {| rpc_max_records_per_query := 100;
     conf_host := "node-1";
     polling_interval := 30;
     rpc_query := λ _ _ _, [];
     rpc_get_rules_for_security_groups_id := λ _, inr rules;
     rpc_get_security_group_revision := λ sg, inr (PStr sg, PInt 7);
     nsx_get_revisions := λ m _,
       match m with
       | FirewallRule => inr (∅, revs_fwr, meta_fwr disabled)
       | _ => inr (∅, revs_ips, ∅)
       end;
     nsx_get_or_create_security_group := λ sg,
       inr ("ipset-1", "nsg-1", "section-1");
     nsx_get_security_group_rule_spec := spec;
     nsx_mutation := λ _, None;
     timestamp_has_expired := inr false;
     runner_active := 0;
     runner_passive := 0 |}.

Lemma wf_rule_rule id remote_group_id :
  hashable remote_group_id = true → wf_rule (rule id remote_group_id).
Proof.
  intros Hh. split; [|split]; [|reflexivity|exact Hh].
  intros k Hk. unfold attrs in Hk.
  repeat (apply elem_of_cons in Hk as [->|Hk]); try (by eexists).
  by apply not_elem_of_nil in Hk.
Defined.
End RuleScenario.

Lemma untouched_name meta_fwr revs_fwr rule rule' :
  rule_name rule = rule_name rule' →
  untouched meta_fwr revs_fwr rule = untouched meta_fwr revs_fwr rule'.
Proof. unfold untouched. by intros ->. Qed.

Lemma rule_name_id rule name :
  rule !! "id" = Some name → rule_name rule = name.
Proof. unfold rule_name, dict_get. by intros ->. Qed.

(** C5. The dictionary [security_group_rule_updated] builds for a rule of
    the source store and hands to the rule spec function has, under
    [remote_group_id], the target-store reference of the remote group when
    the IPSet map has one for the rule's remote group id, and the rule's own
    remote group id otherwise. *)
Theorem remote_group_reference_substituted
    env ipset_id nsg_id revs_ips rule w :
  wf_rule rule →
  ∃ fwr,
    project_rule ipset_id nsg_id revs_ips rule w = (Ret fwr, w)
    ∧ (∀ g ref, rule !! "remote_group_id" = Some (PStr g) →
                revs_ips !! g = Some ref →
                fwr !! "remote_group_id" = Some ref)
    ∧ ((∀ g, rule !! "remote_group_id" = Some (PStr g) →
             revs_ips !! g = None) →
       fwr !! "remote_group_id" = rule !! "remote_group_id")
    ∧ (∀ meta_fwr add_rules revs_fwr,
         wf_meta meta_fwr revs_fwr →
         untouched meta_fwr revs_fwr rule = false →
         reconcile_rule env ipset_id nsg_id revs_ips meta_fwr
           (add_rules, revs_fwr) rule w
         = (Ret (let fwr_spec := nsx_get_security_group_rule_spec env fwr in
                 if truthy fwr_spec
                 then ((add_rules ++ [fwr_spec])%list, revs_fwr)
                 else (add_rules, revs_fwr)), w)).
Proof.
  intros Hwf. exists (projection ipset_id nsg_id revs_ips rule).
  split; [by apply projection_run|].
  pose proof (projection_remote_group_id ipset_id nsg_id revs_ips rule Hwf)
    as Hremote.
  destruct Hwf as (Hattrs & Hid & Hh).
  destruct (Hattrs "remote_group_id") as [rg Hrg]; [unfold attrs; set_solver|].
  unfold dict_get in Hremote. rewrite Hrg in Hremote. simpl in Hremote.
  split; [|split].
  - intros g ref Hg Href. rewrite Hrg in Hg. injection Hg as ->.
    rewrite Hremote, Href. done.
  - intros Hnone. rewrite Hremote, Hrg. f_equal.
    destruct rg as [| | |g| |]; try done. by rewrite (Hnone g).
  - intros meta_fwr add_rules revs_fwr Hmeta Hun.
    rewrite reconcile_rule_run by done. by rewrite Hun.
Qed.

Lemma remote_group_reference_substituted_witness :
  ∃ fwr,
    project_rule "ipset-1" "nsg-1" RuleScenario.revs_ips
      (RuleScenario.rule "R" (PStr "sg-2")) Scenario.world
    = (Ret fwr, Scenario.world)
    ∧ fwr !! "remote_group_id" = Some (PStr "ipset-2").
Proof.
  destruct (remote_group_reference_substituted
              (RuleScenario.env PDict [] false) "ipset-1" "nsg-1"
              RuleScenario.revs_ips (RuleScenario.rule "R" (PStr "sg-2"))
              Scenario.world
              (RuleScenario.wf_rule_rule "R" (PStr "sg-2") eq_refl))
    as (fwr & Hrun & Hknown & _).
  exists fwr. split; [exact Hrun|].
  apply (Hknown "sg-2"); reflexivity.
Defined.

(** Two runs of [security_group_rule_updated] on a security group whose
    target section holds the rule [R]. In the first the target rule is
    disabled and the rule spec function rejects the rule: it is deleted and
    the add list is empty. In the second the target rule is enabled and the
    source store lists the rule twice: the add list holds a spec with the id
    [R]. *)
Lemma rule_update_not_as_specified :
  let rule_R := RuleScenario.rule "R" PNone in
  let fwr_R := projection "ipset-1" "nsg-1" RuleScenario.revs_ips rule_R in
  let events add_rules del_rules :=
    [EvLog DEBUG "Updating Security Group '{}' rules";
     EvAcquire "sg-1";
     EvNsx (Nsx_get_or_create_security_group "sg-1");
     EvNsx (Nsx_get_revisions IPSet None);
     EvNsx (Nsx_get_revisions FirewallRule (Some ("section_id", "section-1")));
     EvRpc (Rpc_get_rules_for_security_groups_id "sg-1");
     EvRpc (Rpc_get_security_group_revision "sg-1");
     EvNsx (Nsx_update_security_group_rules (PStr "sg-1") (PInt 7)
              add_rules del_rules);
     EvRelease "sg-1"] in
  security_group_rule_updated
    (RuleScenario.env (λ _, PNone) [rule_R] true) "sg-1" Scenario.world
  = (Ret tt, add_events (events [] [PStr "fw-R"]) Scenario.world)
  ∧ security_group_rule_updated
      (RuleScenario.env PDict [rule_R; rule_R] false) "sg-1" Scenario.world
    = (Ret tt, add_events (events [PDict fwr_R] []) Scenario.world)
  ∧ fwr_R !! "id" = Some (PStr "R").
Proof. split; [|split]; vm_compute; reflexivity. Qed.

(** C2 (amended). [security_group_rule_updated] on well-formed rules with
    pairwise distinct ids passes to [update_security_group_rules] an add
    list and a delete list such that, for every target rule [R] that the
    source store also lists: when [R] is not disabled, the delete list is
    the values of a part of the target rule map that has no entry for [R],
    and every spec of the add list was built from a source rule other than
    [R]; when [R] is disabled, the delete list contains the target rule and
    the add list contains the spec built from the projection of the source
    rule, which carries the id [R], whenever the rule spec function returns
    one. *)
Theorem security_group_rule_updated_reconciles
    env sg_id ipset_id nsg_id sec_id r_ips r_fwr neutron_rules rv w :
  rule_update_answers env sg_id ipset_id nsg_id sec_id r_ips r_fwr
    neutron_rules rv →
  rule_update_inputs r_fwr neutron_rules →
  ∃ add_rules del_rules,
    security_group_rule_updated env sg_id w
    = (match nsx_mutation env
               (Nsx_update_security_group_rules rv.1 rv.2 add_rules del_rules)
       with
       | Some e => Raise e
       | None => Ret tt
       end,
       add_events
         [EvLog DEBUG "Updating Security Group '{}' rules";
          EvAcquire sg_id;
          EvNsx (Nsx_get_or_create_security_group sg_id);
          EvNsx (Nsx_get_revisions IPSet None);
          EvNsx (Nsx_get_revisions FirewallRule
                   (Some ("section_id", sec_id)));
          EvRpc (Rpc_get_rules_for_security_groups_id sg_id);
          EvRpc (Rpc_get_security_group_revision sg_id);
          EvNsx (Nsx_update_security_group_rules rv.1 rv.2
                   add_rules del_rules);
          EvRelease sg_id] w)
    ∧ ∀ R v rule,
        r_fwr.1.2 !! R = Some v →
        rule ∈ neutron_rules →
        rule !! "id" = Some (PStr R) →
        let fwr := projection ipset_id nsg_id r_ips.1.2 rule in
        let fwr_spec := nsx_get_security_group_rule_spec env fwr in
        fwr !! "id" = Some (PStr R)
        ∧ (rule_disabled r_fwr.2 (PStr R) = false →
           (∃ rest, del_rules = dict_values rest
                    ∧ rest ⊆ r_fwr.1.2 ∧ rest !! R = None)
           ∧ ∀ s, s ∈ add_rules →
                  ∃ rule', rule' ∈ neutron_rules
                           ∧ rule' !! "id" ≠ Some (PStr R)
                           ∧ s = nsx_get_security_group_rule_spec env
                                   (projection ipset_id nsg_id r_ips.1.2
                                      rule'))
        ∧ (rule_disabled r_fwr.2 (PStr R) = true →
           v ∈ del_rules
           ∧ (truthy fwr_spec = true → fwr_spec ∈ add_rules)).
Proof.
  intros Hans Hin.
  exists (add_rules_of env ipset_id nsg_id r_ips r_fwr neutron_rules),
         (del_rules_of r_fwr neutron_rules).
  split; [by apply security_group_rule_updated_run|].
  destruct Hin as (Hwf & Hmeta & Hnd).
  intros R v rule Hv Hrule Hid. cbv zeta.
  assert (Hname : rule_name rule = PStr R) by (by apply rule_name_id).
  assert (Hun : untouched r_fwr.2 r_fwr.1.2 rule
                = negb (rule_disabled r_fwr.2 (PStr R))).
  { unfold untouched. rewrite Hname. simpl.
    rewrite bool_decide_eq_true_2 by eauto. done. }
  split; [|split].
  - rewrite projection_id; [done|]. by eapply Forall_forall in Hwf.
  - intros Hen. rewrite Hen in Hun. simpl in Hun. split.
    + exists (remaining r_fwr.2 r_fwr.1.2 neutron_rules).
      split; [done|]. split; [apply remaining_subseteq|].
      apply remaining_dropped. eauto.
    + intros s Hs. unfold add_rules_of, added, recreated in Hs.
      apply list_elem_of_filter in Hs as [_ Hs].
      apply list_elem_of_fmap in Hs as (rule' & -> & Hr').
      apply list_elem_of_filter in Hr' as [Hun' Hr'].
      exists rule'. split; [done|]. split; [|done].
      intros Hid'. apply rule_name_id in Hid'.
      rewrite (untouched_name _ _ rule' rule) in Hun' by congruence.
      congruence.
  - intros Hdis. rewrite Hdis in Hun. simpl in Hun. split.
    + unfold del_rules_of, dict_values.
      apply list_elem_of_fmap. exists (R, v). split; [done|].
      apply elem_of_map_to_list. unfold remaining.
      rewrite remaining_kept; [done|].
      intros (rule' & _ & Hname' & Hun').
      rewrite (untouched_name _ _ rule' rule) in Hun' by congruence.
      congruence.
    + intros Hspec. unfold add_rules_of, added, recreated.
      apply list_elem_of_filter. split; [done|].
      apply list_elem_of_fmap. exists rule. split; [done|].
      by apply list_elem_of_filter.
Qed.

Lemma security_group_rule_updated_reconciles_witness :
  let rule_R := RuleScenario.rule "R" PNone in
  let rule_Q := RuleScenario.rule "Q" (PStr "sg-2") in
  let env := RuleScenario.env PDict [rule_R; rule_Q] true in
  ∃ add_rules del_rules,
    security_group_rule_updated env "sg-1" Scenario.world
    = (Ret tt,
       add_events
         [EvLog DEBUG "Updating Security Group '{}' rules";
          EvAcquire "sg-1";
          EvNsx (Nsx_get_or_create_security_group "sg-1");
          EvNsx (Nsx_get_revisions IPSet None);
          EvNsx (Nsx_get_revisions FirewallRule
                   (Some ("section_id", "section-1")));
          EvRpc (Rpc_get_rules_for_security_groups_id "sg-1");
          EvRpc (Rpc_get_security_group_revision "sg-1");
          EvNsx (Nsx_update_security_group_rules (PStr "sg-1") (PInt 7)
                   add_rules del_rules);
          EvRelease "sg-1"] Scenario.world)
    ∧ PStr "fw-R" ∈ del_rules
    ∧ PDict (projection "ipset-1" "nsg-1" RuleScenario.revs_ips rule_R)
      ∈ add_rules.
Proof.
  intros rule_R rule_Q env.
  destruct (security_group_rule_updated_reconciles env "sg-1"
              "ipset-1" "nsg-1" "section-1"
              (∅, RuleScenario.revs_ips, ∅)
              (∅, RuleScenario.revs_fwr, RuleScenario.meta_fwr true)
              [rule_R; rule_Q] (PStr "sg-1", PInt 7) Scenario.world)
    as (add_rules & del_rules & Hrun & Hall).
  - repeat split.
  - split; [|split].
    + repeat constructor; by apply RuleScenario.wf_rule_rule.
    + intros s [v Hs]. cbn [fst snd] in Hs. unfold RuleScenario.revs_fwr in Hs.
      apply lookup_singleton_Some in Hs as [<- _].
      by eexists.
    + repeat constructor.
      * intros Hin. apply elem_of_cons in Hin as [Hin|Hin]; [discriminate|].
        by apply not_elem_of_nil in Hin.
      * apply not_elem_of_nil.
  - exists add_rules, del_rules. split; [exact Hrun|].
    destruct (Hall "R" (PStr "fw-R") rule_R) as (_ & _ & Hdis);
      [reflexivity | constructor | reflexivity |].
    destruct (Hdis eq_refl) as [Hdel Hadd]. split; [exact Hdel|].
    apply Hadd. reflexivity.
Defined.

(** ** QoS policies and ports *)

(** The lock manager is keyed by the object id, a string. *)
Definition with_lock_val {A} (key : pyval) (body : M A) : M A :=
  match key with
  | PStr s => with_lock s body
  | _ => raise TypeError
  end.

Definition delete_policy (policy : gmap string pyval) : M unit :=
  _ ← dict_item policy "name";
  log DEBUG "Deleting policy={}.";;
  id ← dict_item policy "id";
  with_lock_val id (
    (* TODO self.nsxv3.delete_switch_profile_qos(policy["id"]) *)
    mret tt).

Definition sync_qos_orphaned (qos_id : string) : M unit :=
  log DEBUG "Removing orphaned QoS Policy '{}'.";;
  let policy : gmap string pyval :=
    <["name" := PStr ("ORPHANED-" ++ qos_id)]> (<["id" := PStr qos_id]> ∅) in
  delete_policy policy.

(** The constants of [neutron_lib.api.definitions.portbindings]. *)
Definition VNIC_TYPE : string := "binding:vnic_type".
Definition VIF_TYPE : string := "binding:vif_type".
Definition VNIC_NORMAL : string := "normal".
Definition VIF_TYPE_OVS : string := "ovs".

(** [for x in v]: a list gives its elements, a dictionary its keys, a
    string its characters. *)
Definition py_iter (v : pyval) : M (list pyval) :=
  match v with
  | PList l => mret l
  | PDict d => mret (PStr <$> (map_to_list d).*1)
  | PStr s => mret ((λ c, PStr (String c EmptyString)) <$> list_ascii_of_string s)
  | _ => raise TypeError
  end.

(** [v[k]] for a string [k]: only a dictionary can be indexed by it. *)
Definition py_item (v : pyval) (k : string) : M pyval :=
  match v with
  | PDict d => dict_item d k
  | _ => raise TypeError
  end.

(** [self.updated_devices.add(v)]. *)
Definition updated_devices_add (v : pyval) : M unit := λ w,
  if hashable v
  then (Ret tt, {| events := events w;
                   updated_devices := v :: updated_devices w;
                   last_sync_time := last_sync_time w |})
  else (Raise TypeError, w).

(** The loop over [port["fixed_ips"]]. *)
Fixpoint fixed_ip_bindings (port : gmap string pyval) (addrs : list pyval)
    (address_bindings : list (pyval * pyval)) : M (list (pyval * pyval)) :=
  match addrs with
  | [] => mret address_bindings
  | addr :: addrs =>
      mac ← py_get addr "mac_address";
      mac ← (if truthy mac then mret mac else dict_item port "mac_address");
      ip ← py_item addr "ip_address";
      fixed_ip_bindings port addrs (address_bindings ++ [(ip, mac)])%list
  end.

(** The loop over [port["allowed_address_pairs"]]. *)
Fixpoint allowed_pair_bindings (addrs : list pyval)
    (address_bindings : list (pyval * pyval)) : M (list (pyval * pyval)) :=
  match addrs with
  | [] => mret address_bindings
  | addr :: addrs =>
      ip ← py_item addr "ip_address";
      mac ← py_item addr "mac_address";
      allowed_pair_bindings addrs (address_bindings ++ [(ip, mac)])%list
  end.

Definition port_update (env : Env) (port : gmap string pyval) : M unit :=
  let vnic_type := dict_get PNone port VNIC_TYPE in
  let vif_type := dict_get PNone port VIF_TYPE in
  if negb ((truthy vnic_type && pyval_eq_str vnic_type VNIC_NORMAL)
           && (truthy vif_type && pyval_eq_str vif_type VIF_TYPE_OVS))
  then mret tt
  else if bool_decide (is_Some (port !! "binding:host_id"))
          && negb (pyval_eq_str (dict_get PNone port "binding:host_id")
                     (conf_host env))
  then log DEBUG "Skipping Port='%s'. It is not assigned to agent."
  else
    log DEBUG "Updating Port='%s' with Segment='%s'";;
    fixed_ips ← dict_item port "fixed_ips";
    addrs ← py_iter fixed_ips;
    address_bindings ← fixed_ip_bindings port addrs [];
    allowed ← dict_item port "allowed_address_pairs";
    addrs ← py_iter allowed;
    address_bindings ← allowed_pair_bindings addrs address_bindings;
    id ← dict_item port "id";
    with_lock_val id (
      id ← dict_item port "id";
      revision_number ← dict_item port "revision_number";
      security_groups ← dict_item port "security_groups";
      nsxv3_mutate env
        (Nsx_port_update id revision_number security_groups address_bindings
           (dict_get PNone port "qos_policy_id")));;
    mac ← dict_item port "mac_address";
    updated_devices_add mac.

(** ** The polling entry point *)

Definition get_last_sync_time : M Z := λ w, (Ret (last_sync_time w), w).

Definition set_last_sync_time (t : Z) : M unit := λ w,
  (Ret tt, {| events := events w;
              updated_devices := updated_devices w;
              last_sync_time := t |}).

(** [rpc] tells whether [self.rpc] is set; [now] and [now'] are the two
    readings of [time.time()], in ticks of the clock. *)
Definition get_all_devices (env : Env) (fuel : nat) (rpc : bool)
    (now now' : Z) : M (gset string) :=
  (if rpc then
     try_except
       (last ← get_last_sync_time;
        let elapsed := now' - last in
        if bool_decide (polling_interval env < elapsed) then
          sync_inventory env fuel;;
          set_last_sync_time now
        else mret tt)
       (λ _, log ERROR "traceback.format_exc()")
   else mret tt);;
  mret ∅.

(** ** Frame properties of the QoS and port handlers *)

(** A call that is not made to the target store. *)
Definition not_target_call (e : Event) : Prop := ∀ c, e ≠ EvNsx c.

Lemma emits_only_dict_item {V} P (d : gmap string V) k :
  emits_only P (dict_item d k).
Proof.
  unfold dict_item. destruct (d !! k);
    [apply emits_only_ret | apply emits_only_raise].
Qed.

Lemma emits_only_with_lock_val {A} (P : Event → Prop) key (body : M A) :
  (∀ s, P (EvAcquire s)) → (∀ s, P (EvRelease s)) →
  emits_only P body → emits_only P (with_lock_val key body).
Proof.
  intros Ha Hr Hb. destruct key; simpl; try apply emits_only_raise.
  by apply emits_only_with_lock.
Qed.

Lemma delete_policy_run policy name id w :
  policy !! "name" = Some name → policy !! "id" = Some (PStr id) →
  delete_policy policy w
  = (Ret tt,
     add_events [EvLog DEBUG "Deleting policy={}."; EvAcquire id;
                 EvRelease id] w).
Proof.
  intros Hname Hid. unfold delete_policy.
  erewrite bind_run by (by apply dict_item_run).
  erewrite bind_run by reflexivity.
  erewrite bind_run by (by apply dict_item_run).
  unfold with_lock_val, with_lock, mret, M_ret.
  by rewrite !add_event_events, !add_events_app.
Qed.

(** C9. [delete_policy] takes the lock of the policy and calls the target
    store not at all, however it ends; so [sync_qos_orphaned] of any QoS
    policy id logs two lines, takes and releases the lock of the id, and
    leaves the target store as it was: the orphaned profile is not
    removed. *)
Theorem delete_policy_no_target_operation :
  (∀ policy, emits_only not_target_call (delete_policy policy))
  ∧ (∀ policy name id w,
       policy !! "name" = Some name → policy !! "id" = Some (PStr id) →
       delete_policy policy w
       = (Ret tt,
          add_events [EvLog DEBUG "Deleting policy={}."; EvAcquire id;
                      EvRelease id] w))
  ∧ (∀ qos_id w,
       sync_qos_orphaned qos_id w
       = (Ret tt,
          add_events [EvLog DEBUG "Removing orphaned QoS Policy '{}'.";
                      EvLog DEBUG "Deleting policy={}."; EvAcquire qos_id;
                      EvRelease qos_id] w)).
Proof.
  split; [|split].
  - intros policy. unfold delete_policy, log.
    apply emits_only_bind; [apply emits_only_dict_item|]. intros _.
    apply emits_only_bind; [by apply emits_only_emit|]. intros _.
    apply emits_only_bind; [apply emits_only_dict_item|]. intros id.
    apply emits_only_with_lock_val; [done..|]. apply emits_only_ret.
  - apply delete_policy_run.
  - intros qos_id w. unfold sync_qos_orphaned.
    erewrite bind_run by reflexivity. cbv zeta.
    erewrite delete_policy_run by (by simplify_map_eq).
    by rewrite !add_event_events, !add_events_app.
Qed.

Lemma delete_policy_no_target_operation_witness :
  delete_policy (<["name" := PStr "gold"]> (<["id" := PStr "qos-1"]> ∅))
    Scenario.world
  = (Ret tt,
     add_events [EvLog DEBUG "Deleting policy={}."; EvAcquire "qos-1";
                 EvRelease "qos-1"] Scenario.world).
Proof.
  apply (proj1 (proj2 delete_policy_no_target_operation)
           (<["name" := PStr "gold"]> (<["id" := PStr "qos-1"]> ∅))
           (PStr "gold") "qos-1" Scenario.world); reflexivity.
Defined.

(** A log line. *)
Definition is_log_line (e : Event) : Prop := ∃ lvl msg, e = EvLog lvl msg.

(** C10. When the port's vnic type is not [VNIC_NORMAL], or its vif type
    is not [VIF_TYPE_OVS], or it has a [binding:host_id] other than the
    host of the agent, [port_update] returns having at most written a log
    line: no call to the target store, no lock taken, [updated_devices] as
    before. *)
Theorem port_update_skips env port w :
  dict_get PNone port VNIC_TYPE ≠ PStr VNIC_NORMAL
  ∨ dict_get PNone port VIF_TYPE ≠ PStr VIF_TYPE_OVS
  ∨ (∃ h, port !! "binding:host_id" = Some h ∧ h ≠ PStr (conf_host env)) →
  ∃ evs,
    port_update env port w = (Ret tt, add_events evs w)
    ∧ Forall is_log_line evs
    ∧ updated_devices (add_events evs w) = updated_devices w.
Proof.
  intros Hskip. unfold port_update. cbv zeta.
  destruct (negb _) eqn:Hbind.
  - exists []. rewrite add_events_nil. by repeat split.
  - apply negb_false_iff in Hbind.
    apply andb_prop in Hbind as [Hvnic Hvif].
    apply andb_prop in Hvnic as [_ Hvnic]. apply andb_prop in Hvif as [_ Hvif].
    apply pyval_eq_str_true in Hvnic, Hvif.
    destruct Hskip as [Hs|[Hs|(h & Hh & Hne)]]; [done..|].
    rewrite bool_decide_eq_true_2 by eauto.
    unfold dict_get at 1. rewrite Hh. simpl.
    destruct (pyval_eq_str h (conf_host env)) eqn:Hhost.
    { apply pyval_eq_str_true in Hhost. done. }
    simpl. eexists [_]. split; [reflexivity|].
    split; [|done]. repeat constructor. by eexists _, _.
Qed.

Lemma port_update_skips_witness :
  let port : gmap string pyval :=
    <[VNIC_TYPE := PStr "direct"]>
      (<[VIF_TYPE := PStr VIF_TYPE_OVS]> (<["id" := PStr "port-1"]> ∅)) in
  ∃ evs,
    port_update Scenario.env port Scenario.world
    = (Ret tt, add_events evs Scenario.world)
    ∧ Forall is_log_line evs
    ∧ updated_devices (add_events evs Scenario.world)
      = updated_devices Scenario.world.
Proof.
  intros port. apply (port_update_skips Scenario.env port Scenario.world).
  left. vm_compute. discriminate.
Defined.

(** ** The polling entry point never raises *)

Definition traceback_line : Event := EvLog ERROR "traceback.format_exc()".

Lemma get_all_devices_cases env fuel rpc now now' w :
  let attempted :=
    rpc = true ∧ polling_interval env < now' - last_sync_time w in
  (¬ attempted ∧ get_all_devices env fuel rpc now now' w = (Ret ∅, w))
  ∨ (attempted
     ∧ match sync_inventory env fuel w with
       | (Ret _, w1) =>
           get_all_devices env fuel rpc now now' w
           = (Ret ∅, {| events := events w1;
                        updated_devices := updated_devices w1;
                        last_sync_time := now |})
       | (Raise _, w1) =>
           get_all_devices env fuel rpc now now' w
           = (Ret ∅, add_event traceback_line w1)
       | (Diverge, w1) =>
           get_all_devices env fuel rpc now now' w = (Diverge, w1)
       end).
Proof.
  cbv zeta. unfold get_all_devices.
  destruct rpc; [|left; split; [by intros [? _] | done]].
  unfold try_except, mbind, M_bind, get_last_sync_time.
  destruct (decide (polling_interval env < now' - last_sync_time w))
    as [Hel|Hel].
  - right. split; [done|]. rewrite bool_decide_eq_true_2 by done.
    by destruct (sync_inventory env fuel w) as [[[]|e|] w1].
  - left. split; [by intros [_ ?]|].
    by rewrite bool_decide_eq_false_2 by done.
Qed.

(** C8. [get_all_devices] never raises: an exception of [sync_inventory]
    is caught, the traceback is logged and the empty set is returned, with
    [last_sync_time] left as it was; and whenever the call returns, with or
    without an attempt to synchronize, it returns the empty set. (A
    synchronization that does not end keeps the call from returning.) *)
Theorem get_all_devices_never_raises env fuel rpc now now' w :
  (∀ e, (get_all_devices env fuel rpc now now' w).1 ≠ Raise e)
  ∧ ((get_all_devices env fuel rpc now now' w).1 = Ret ∅
     ∨ (get_all_devices env fuel rpc now now' w).1 = Diverge
       ∧ rpc = true ∧ (sync_inventory env fuel w).1 = Diverge)
  ∧ (∀ e, rpc = true →
          polling_interval env < now' - last_sync_time w →
          (sync_inventory env fuel w).1 = Raise e →
          get_all_devices env fuel rpc now now' w
          = (Ret ∅, add_event traceback_line (sync_inventory env fuel w).2)).
Proof.
  destruct (get_all_devices_cases env fuel rpc now now' w)
    as [[Hno Hrun] | [[Hrpc Hel] Hrun]].
  - rewrite Hrun. split; [done|]. split; [by left|].
    intros e Hrpc Hel _. exfalso. by apply Hno.
  - destruct (sync_inventory env fuel w) as [[[]|e'|] w1];
      rewrite Hrun; simpl.
    + split; [done|]. split; [by left | done].
    + split; [done|]. split; [by left | done].
    + split; [done|]. split; [by right | done].
Qed.

Lemma get_all_devices_never_raises_witness :
  let env := Scenario.env_gate 0 (inl (StoreError "marker read timed out")) in
  (sync_inventory env 1 Scenario.world).1
  = Raise (StoreError "marker read timed out")
  ∧ get_all_devices env 1 true 100 100 Scenario.world
    = (Ret ∅,
       add_event traceback_line (sync_inventory env 1 Scenario.world).2).
Proof.
  intros env. split; [reflexivity|].
  apply (proj2 (proj2 (get_all_devices_never_raises env 1 true 100 100
                          Scenario.world))
           (StoreError "marker read timed out")); reflexivity.
Defined.

(** * Further properties of the engine *)

#[local] Set Warnings "-clear-no-such-hyp".

(** ** The revision diff finds nothing exactly when the stores agree *)

Lemma not_stale revs_nsx k rev :
  ¬ stale revs_nsx k rev ↔ revs_nsx !! k = Some (PStr rev).
Proof.
  rewrite <- stale_test, not_true_iff_false, negb_false_iff, pyval_eq_str_true.
  unfold dict_get. destruct (revs_nsx !! k) as [v|]; simpl.
  - split; congruence.
  - split; discriminate.
Qed.

(** X1. The diff of [_sync_get_content] is empty on both sides exactly when the
    target map holds, for every source key and for no other key, the
    revision string of the source. *)
Theorem revision_diff_empty_iff_in_sync
    (revs_os : gmap string string) (revs_nsx : gmap string pyval) :
  revision_diff revs_os revs_nsx = (∅, ∅) ↔ revs_nsx = PStr <$> revs_os.
Proof.
  split.
  - intros Hdiff. apply map_eq. intros k. rewrite lookup_fmap.
    destruct (revs_os !! k) as [rev|] eqn:Hk; simpl.
    + apply not_stale. intros Hs.
      assert (Hout : k ∈ (revision_diff revs_os revs_nsx).1)
        by (apply revision_diff_outdated; eauto).
      rewrite Hdiff in Hout. by apply not_elem_of_empty in Hout.
    + apply not_elem_of_dom. intros Hin.
      assert (Horph : k ∈ (revision_diff revs_os revs_nsx).2).
      { apply revision_diff_orphaned. split; [done|].
        by apply not_elem_of_dom. }
      rewrite Hdiff in Horph. by apply not_elem_of_empty in Horph.
  - intros ->.
    rewrite (surjective_pairing (revision_diff revs_os (PStr <$> revs_os))).
    f_equal.
    + apply set_eq. intros k. rewrite revision_diff_outdated. split.
      * intros (rev & Hk & Hs). exfalso. revert Hs. apply not_stale.
        by rewrite lookup_fmap, Hk.
      * set_solver.
    + apply set_eq. intros k. rewrite revision_diff_orphaned, dom_fmap.
      set_solver.
Qed.

(** ** When the paged retrieval returns *)

Lemma get_revisions_loop_returns env query fuel : ∀ i rev0 w rev w',
  get_revisions_loop env fuel query rev0 (watermark env query i) w
  = (Ret rev, w') →
  ∃ k, short_page env query (i + k)
       ∧ (∀ m, (i ≤ m < i + k)%nat → ¬ short_page env query m)
       ∧ (k < fuel)%nat.
Proof.
  induction fuel as [|fuel IH]; intros i rev0 w rev w' Hrun; [done|].
  rewrite get_revisions_loop_step in Hrun. cbv zeta in Hrun.
  fold (page env query i) in Hrun.
  destruct (decide (Z.of_nat (length (page env query i))
                    < rpc_max_records_per_query env)) as [Hi|Hi].
  - exists 0%nat. rewrite Nat.add_0_r. split; [done|]. split; [lia | lia].
  - rewrite bool_decide_eq_false_2 in Hrun by done.
    destruct (last (page env query i)) as [t|] eqn:Hlast; [|done].
    rewrite <- (watermark_next _ _ _ _ Hlast) in Hrun.
    apply IH in Hrun as (k & Hk & Hmin & Hfuel).
    exists (S k). replace (i + S k)%nat with (S i + k)%nat by lia.
    split; [done|]. split; [|lia].
    intros m Hm. destruct (decide (m = i)) as [->|]; [done|].
    apply Hmin. lia.
Qed.

(** X2. [get_revisions] returns only when some page of the protocol has fewer
    records than the limit; the first such page is then within the pages
    read, and the result is the one of the pages up to it. *)
Theorem get_revisions_returns_only_after_short_page env fuel query w rev w' :
  get_revisions env fuel query w = (Ret rev, w') →
  ∃ n, first_short_page_at env query n
       ∧ (n < fuel)%nat
       ∧ rev = source_revisions env query n
       ∧ w' = add_events (page_queries env query 0 (S n)) w.
Proof.
  intros Hrun. pose proof Hrun as Hrun'. unfold get_revisions in Hrun'.
  change epoch with (watermark env query 0) in Hrun'.
  apply get_revisions_loop_returns in Hrun' as (n & Hn & Hmin & Hfuel).
  simpl in Hn. exists n.
  assert (Hfirst : first_short_page_at env query n).
  { split; [done|]. intros m Hm. apply Hmin. lia. }
  split; [done|]. split; [done|].
  rewrite (get_revisions_run env query n fuel w Hfirst Hfuel) in Hrun.
  by injection Hrun as <- <-.
Qed.

Lemma get_revisions_returns_only_after_short_page_witness :
  ∃ n, first_short_page_at Scenario.env get_port_revision_tuples n
       ∧ (n < 3)%nat
       ∧ (<["A" := "1"]> (<["B" := "2"]> ∅) : gmap string string)
         = source_revisions Scenario.env get_port_revision_tuples n
       ∧ add_event (EvRpc (Rpc_revision_tuples get_port_revision_tuples
                             100 epoch)) Scenario.world
         = add_events (page_queries Scenario.env get_port_revision_tuples
                         0 (S n)) Scenario.world.
Proof.
  apply (get_revisions_returns_only_after_short_page Scenario.env 3
           get_port_revision_tuples Scenario.world).
  vm_compute. reflexivity.
Defined.

(** X3. With a limit that is not positive no page is short: [get_revisions]
    then never returns, and when the source answers the first query with no
    record it raises [IndexError] on [pr_tuples.pop()]. *)
Theorem get_revisions_nonpositive_limit env fuel query w :
  (rpc_max_records_per_query env ≤ 0)%Z →
  (∀ rev, (get_revisions env fuel query w).1 ≠ Ret rev)
  ∧ (rpc_query env query (rpc_max_records_per_query env) epoch = [] →
     (0 < fuel)%nat →
     get_revisions env fuel query w
     = (Raise IndexError,
        add_event (EvRpc (Rpc_revision_tuples query
                            (rpc_max_records_per_query env) epoch)) w)).
Proof.
  intros Hlimit. split.
  - intros rev Hret.
    destruct (get_revisions env fuel query w) as [o w'] eqn:Hrun.
    simpl in Hret. subst o. unfold get_revisions in Hrun.
    change epoch with (watermark env query 0) in Hrun.
    apply get_revisions_loop_returns in Hrun as (n & Hn & _).
    unfold short_page in Hn. lia.
  - intros Hempty Hfuel. destruct fuel as [|fuel]; [lia|].
    unfold get_revisions. rewrite get_revisions_loop_step. cbv zeta.
    rewrite Hempty. simpl.
    rewrite bool_decide_eq_false_2 by lia. done.
Qed.

Lemma get_revisions_nonpositive_limit_witness :
  let env := RuleScenario.env PDict [] false in
  let env0 :=
    {| rpc_max_records_per_query := 0;
       conf_host := conf_host env;
       polling_interval := polling_interval env;
       rpc_query := rpc_query env;
       rpc_get_rules_for_security_groups_id :=
         rpc_get_rules_for_security_groups_id env;
       rpc_get_security_group_revision := rpc_get_security_group_revision env;
       nsx_get_revisions := nsx_get_revisions env;
       nsx_get_or_create_security_group :=
         nsx_get_or_create_security_group env;
       nsx_get_security_group_rule_spec :=
         nsx_get_security_group_rule_spec env;
       nsx_mutation := nsx_mutation env;
       timestamp_has_expired := timestamp_has_expired env;
       runner_active := 0;
       runner_passive := 0 |} in
  get_revisions env0 5 get_port_revision_tuples Scenario.world
  = (Raise IndexError,
     add_event (EvRpc (Rpc_revision_tuples get_port_revision_tuples 0 epoch))
       Scenario.world).
Proof.
  intros env env0.
  apply (proj2 (get_revisions_nonpositive_limit env0 5
                  get_port_revision_tuples Scenario.world
                  ltac:(simpl; lia))); [reflexivity | lia].
Defined.

(** ** Lock discipline *)

(** The lock held after some calls, starting with [holding]: a lock is
    taken only while none is held, and only the lock held is released.
    [None] when the calls break this. *)
Fixpoint single_lock (holding : option string) (evs : list Event)
    : option (option string) :=
  match evs with
  | [] => Some holding
  | EvAcquire k :: evs =>
      match holding with
      | None => single_lock (Some k) evs
      | Some _ => None
      end
  | EvRelease k :: evs =>
      match holding with
      | Some k' => if String.eqb k k' then single_lock None evs else None
      | None => None
      end
  | _ :: evs => single_lock holding evs
  end.

Definition not_lock_event (e : Event) : Prop :=
  match e with
  | EvAcquire _ | EvRelease _ => False
  | _ => True
  end.

(** A call that ends has taken every lock alone and released it; a call
    that does not end has at least never taken a second one. *)
Definition disciplined {A} (c : M A) : Prop :=
  ∀ w, ∃ evs,
    events (c w).2 = (events w ++ evs)%list
    ∧ match (c w).1 with
      | Diverge => is_Some (single_lock None evs)
      | _ => single_lock None evs = Some None
      end.

Lemma single_lock_app l1 : ∀ h h1 l2,
  single_lock h l1 = Some h1 →
  single_lock h (l1 ++ l2) = single_lock h1 l2.
Proof.
  induction l1 as [|e l1 IH]; intros h h1 l2 Hl1; simpl in *.
  - by injection Hl1 as ->.
  - destruct e; try (by apply IH).
    + destruct h; [done | by apply IH].
    + destruct h as [k'|]; [|done].
      destruct (String.eqb key k'); [by apply IH | done].
Qed.

Lemma single_lock_free l : ∀ h,
  Forall not_lock_event l → single_lock h l = Some h.
Proof.
  induction l as [|e l IH]; intros h Hl; [done|].
  apply Forall_cons in Hl as [He Hl]. destruct e; simpl in *; by try apply IH.
Qed.

Lemma disciplined_emits_only {A} (c : M A) :
  emits_only not_lock_event c → disciplined c.
Proof.
  intros Hc w. destruct (Hc w) as (evs & Hw & Hevs). exists evs.
  rewrite Hw. split; [done|]. rewrite (single_lock_free _ _ Hevs).
  by destruct (c w).1.
Qed.

Lemma disciplined_silent {A} (c : M A) :
  (∀ w, events (c w).2 = events w) → (∀ w, (c w).1 ≠ Diverge) →
  disciplined c.
Proof.
  intros Hc Hd w. exists []. rewrite Hc, app_nil_r. split; [done|].
  specialize (Hd w). by destruct (c w).1.
Qed.

Lemma disciplined_bind {A B} (c : M A) (f : A → M B) :
  disciplined c → (∀ a, disciplined (f a)) → disciplined (c ≫= f).
Proof.
  intros Hc Hf w. destruct (Hc w) as (l1 & Hw1 & Hl1).
  unfold mbind, M_bind. destruct (c w) as [[a|e|] w1]; simpl in *.
  - destruct (Hf a w1) as (l2 & Hw2 & Hl2).
    exists (l1 ++ l2)%list. rewrite Hw2, Hw1, app_assoc. split; [done|].
    by rewrite (single_lock_app _ _ _ _ Hl1).
  - by exists l1.
  - by exists l1.
Qed.

Lemma disciplined_try_except {A} (body : M A) handler :
  disciplined body → (∀ e, disciplined (handler e)) →
  disciplined (try_except body handler).
Proof.
  intros Hb Hh w. unfold try_except. destruct (Hb w) as (l1 & Hw1 & Hl1).
  destruct (body w) as [[a|e|] w1]; simpl in *;
    [by exists l1 | | by exists l1].
  destruct (Hh e w1) as (l2 & Hw2 & Hl2).
  exists (l1 ++ l2)%list. rewrite Hw2, Hw1, app_assoc. split; [done|].
  by rewrite (single_lock_app _ _ _ _ Hl1).
Qed.

Lemma disciplined_with_lock {A} key (body : M A) :
  emits_only not_lock_event body → disciplined (with_lock key body).
Proof.
  intros Hb w. unfold with_lock.
  destruct (Hb (add_event (EvAcquire key) w)) as (l & Hw & Hl).
  pose proof (single_lock_free l (Some key) Hl) as Hfree.
  destruct (body _) as [[a|e|] w1]; simpl in *; subst w1; simpl.
  - exists (EvAcquire key :: l ++ [EvRelease key])%list.
    split; [by rewrite <- !app_assoc|]. simpl.
    rewrite (single_lock_app _ _ _ _ Hfree). simpl.
    by rewrite String.eqb_refl.
  - exists (EvAcquire key :: l ++ [EvRelease key])%list.
    split; [by rewrite <- !app_assoc|]. simpl.
    rewrite (single_lock_app _ _ _ _ Hfree). simpl.
    by rewrite String.eqb_refl.
  - exists (EvAcquire key :: l)%list.
    split; [by rewrite <- !app_assoc|]. simpl. by rewrite Hfree.
Qed.

Lemma disciplined_with_lock_val {A} key (body : M A) :
  emits_only not_lock_event body → disciplined (with_lock_val key body).
Proof.
  intros Hb. destruct key; simpl;
    try (apply disciplined_emits_only, emits_only_raise).
  by apply disciplined_with_lock.
Qed.

(** One step of a footprint proof for calls that take no lock. *)
Ltac lock_free_step :=
  first
    [ apply emits_only_ret
    | apply emits_only_raise
    | apply emits_only_diverge
    | apply emits_only_answer
    | apply emits_only_dict_item
    | apply emits_only_emit; exact I
    | apply emits_only_get_revisions; intros; exact I
    | apply emits_only_sync_get_content; [intros; exact I | exact I]
    | apply emits_only_bind; [|intros ?]
    | apply emits_only_if ].

Lemma emits_only_pure {A} P (c : M A) :
  (∀ w, (c w).2 = w) → emits_only P c.
Proof. intros Hc w. exists []. by rewrite add_events_nil. Qed.

Lemma py_get_pure v k w : (py_get v k w).2 = w.
Proof. by destruct v. Qed.

Lemma py_item_pure v k w : (py_item v k w).2 = w.
Proof. destruct v; try done. simpl. unfold dict_item. by destruct (d !! k). Qed.

Lemma py_iter_pure v w : (py_iter v w).2 = w.
Proof. by destruct v. Qed.

Lemma dict_contains_pure {V} (d : gmap string V) k w :
  (dict_contains d k w).2 = w.
Proof. unfold dict_contains. by destruct (hashable k). Qed.

Lemma emits_only_project_rule P ipset_id nsg_id revs_ips rule :
  emits_only P (project_rule ipset_id nsg_id revs_ips rule).
Proof.
  unfold project_rule.
  apply emits_only_bind; [apply emits_only_dict_item|]. intros g.
  apply emits_only_bind.
  - generalize (∅ : gmap string pyval). induction attrs as [|k ks IH];
      intros fwr; simpl; [apply emits_only_ret|].
    apply emits_only_bind; [apply emits_only_dict_item|]. intros v. apply IH.
  - intros fwr. apply emits_only_bind.
    + apply emits_only_pure, dict_contains_pure.
    + intros []; apply emits_only_ret.
Qed.

Lemma emits_only_reconcile_rules P env ipset_id nsg_id revs_ips meta_fwr rules :
  ∀ st, emits_only P
          (reconcile_rules env ipset_id nsg_id revs_ips meta_fwr rules st).
Proof.
  induction rules as [|rule rules IH]; intros st; simpl;
    [apply emits_only_ret|].
  apply emits_only_bind; [|intros; apply IH].
  unfold reconcile_rule.
  apply emits_only_bind; [apply emits_only_dict_item|]. intros name.
  apply emits_only_bind; [apply emits_only_project_rule|]. intros fwr.
  apply emits_only_bind; [apply emits_only_pure, dict_contains_pure|].
  intros present. apply emits_only_bind.
  - destruct present; [|apply emits_only_ret].
    apply emits_only_bind; [apply emits_only_pure, py_get_pure|].
    intros; apply emits_only_ret.
  - intros []; [apply emits_only_ret|].
    cbv zeta. destruct (truthy _); apply emits_only_ret.
Qed.

Lemma emits_only_fixed_ip_bindings P port addrs :
  ∀ bs, emits_only P (fixed_ip_bindings port addrs bs).
Proof.
  induction addrs as [|addr addrs IH]; intros bs; simpl;
    [apply emits_only_ret|].
  apply emits_only_bind; [apply emits_only_pure, py_get_pure|]. intros mac.
  apply emits_only_bind.
  { destruct (truthy mac); [apply emits_only_ret | apply emits_only_dict_item]. }
  intros mac'. apply emits_only_bind; [apply emits_only_pure, py_item_pure|].
  intros ip. apply IH.
Qed.

Lemma emits_only_allowed_pair_bindings P addrs :
  ∀ bs, emits_only P (allowed_pair_bindings addrs bs).
Proof.
  induction addrs as [|addr addrs IH]; intros bs; simpl;
    [apply emits_only_ret|].
  apply emits_only_bind; [apply emits_only_pure, py_item_pure|]. intros ip.
  apply emits_only_bind; [apply emits_only_pure, py_item_pure|]. intros mac.
  apply IH.
Qed.

Lemma sync_inventory_disciplined env fuel :
  disciplined (sync_inventory env fuel).
Proof.
  unfold sync_inventory. apply disciplined_with_lock.
  unfold log, timestamp_has_expired_call, timestamp_update,
    _sync_inventory_full, _sync_inventory_shallow, runner_run, _sync_report.
  cbv zeta. repeat lock_free_step.
  - destruct a; repeat lock_free_step.
    destruct (nsx_mutation _ _); repeat lock_free_step.
Qed.

Lemma security_group_rule_updated_disciplined env sg_id :
  disciplined (security_group_rule_updated env sg_id).
Proof.
  unfold security_group_rule_updated.
  apply disciplined_bind;
    [apply disciplined_emits_only; by apply emits_only_emit|]. intros _.
  apply disciplined_with_lock.
  unfold nsxv3_get_or_create_security_group, nsxv3_get_revisions, nsxv3_mutate.
  cbv zeta.
  repeat first [apply emits_only_reconcile_rules | lock_free_step].
  destruct (nsx_mutation _ _); repeat lock_free_step.
Qed.

Lemma port_update_disciplined env port : disciplined (port_update env port).
Proof.
  unfold port_update. cbv zeta.
  destruct (negb _); [apply disciplined_emits_only, emits_only_ret|].
  destruct (_ && _);
    [apply disciplined_emits_only; by apply emits_only_emit|].
  apply disciplined_bind;
    [apply disciplined_emits_only; by apply emits_only_emit|]. intros _.
  apply disciplined_bind;
    [apply disciplined_emits_only, emits_only_dict_item|]. intros fixed_ips.
  apply disciplined_bind;
    [apply disciplined_emits_only, emits_only_pure, py_iter_pure|].
  intros addrs. apply disciplined_bind;
    [apply disciplined_emits_only, emits_only_fixed_ip_bindings|].
  intros bs. apply disciplined_bind;
    [apply disciplined_emits_only, emits_only_dict_item|]. intros allowed.
  apply disciplined_bind;
    [apply disciplined_emits_only, emits_only_pure, py_iter_pure|].
  intros addrs'. apply disciplined_bind;
    [apply disciplined_emits_only, emits_only_allowed_pair_bindings|].
  intros bs'. apply disciplined_bind;
    [apply disciplined_emits_only, emits_only_dict_item|]. intros id.
  apply disciplined_bind.
  - apply disciplined_with_lock_val. unfold nsxv3_mutate.
    repeat lock_free_step. destruct (nsx_mutation _ _); repeat lock_free_step.
  - intros _. apply disciplined_bind;
      [apply disciplined_emits_only, emits_only_dict_item|]. intros mac.
    apply disciplined_silent; intros w; unfold updated_devices_add;
      by destruct (hashable mac).
Qed.

Lemma delete_policy_disciplined policy : disciplined (delete_policy policy).
Proof.
  unfold delete_policy.
  apply disciplined_bind;
    [apply disciplined_emits_only, emits_only_dict_item|]. intros _.
  apply disciplined_bind;
    [apply disciplined_emits_only; by apply emits_only_emit|]. intros _.
  apply disciplined_bind;
    [apply disciplined_emits_only, emits_only_dict_item|]. intros id.
  apply disciplined_with_lock_val, emits_only_ret.
Qed.

(** X4. The synchronization gate, the rule reconciler, the port update, the
    policy deletion and the polling entry point keep the lock discipline:
    whichever way a call ends, by returning or by raising, it has taken at
    most one lock at a time and has released each lock it took. *)
Theorem handlers_release_their_locks env fuel :
  disciplined (sync_inventory env fuel)
  ∧ (∀ sg_id, disciplined (security_group_rule_updated env sg_id))
  ∧ (∀ port, disciplined (port_update env port))
  ∧ (∀ policy, disciplined (delete_policy policy))
  ∧ (∀ qos_id, disciplined (sync_qos_orphaned qos_id))
  ∧ (∀ rpc now now', disciplined (get_all_devices env fuel rpc now now')).
Proof.
  split; [apply sync_inventory_disciplined|].
  split; [apply security_group_rule_updated_disciplined|].
  split; [apply port_update_disciplined|].
  split; [apply delete_policy_disciplined|]. split.
  - intros qos_id. unfold sync_qos_orphaned.
    apply disciplined_bind;
      [apply disciplined_emits_only; by apply emits_only_emit|]. intros _.
    apply delete_policy_disciplined.
  - intros rpc now now'. unfold get_all_devices.
    apply disciplined_bind;
      [|intros; apply disciplined_emits_only, emits_only_ret].
    destruct rpc; [|apply disciplined_emits_only, emits_only_ret].
    apply disciplined_try_except;
      [|intros; apply disciplined_emits_only; by apply emits_only_emit].
    apply disciplined_bind; [by apply disciplined_silent|]. intros last.
    cbv zeta. case_bool_decide;
      [|apply disciplined_emits_only, emits_only_ret].
    apply disciplined_bind; [apply sync_inventory_disciplined|]. intros _.
    by apply disciplined_silent.
Qed.

(** ** The delete list and the new rules of the reconciler *)

Lemma dict_values_elem (d : gmap string pyval) v :
  v ∈ dict_values d ↔ ∃ k, d !! k = Some v.
Proof.
  unfold dict_values. rewrite list_elem_of_fmap. split.
  - intros ([k v'] & -> & Hin). exists k. by apply elem_of_map_to_list.
  - intros (k & Hk). exists (k, v). split; [done|].
    by apply elem_of_map_to_list.
Qed.

(** X5. The delete list passed to [update_security_group_rules] holds exactly
    the target rules that are disabled or that no rule of the source store
    names; and a source rule that the target does not have is in the add
    list whenever the rule spec function returns a spec for it. *)
Theorem rule_update_delete_list_exact
    env sg_id ipset_id nsg_id sec_id r_ips r_fwr neutron_rules rv w :
  rule_update_answers env sg_id ipset_id nsg_id sec_id r_ips r_fwr
    neutron_rules rv →
  rule_update_inputs r_fwr neutron_rules →
  ∃ add_rules del_rules,
    (security_group_rule_updated env sg_id w).2
    = add_events
        [EvLog DEBUG "Updating Security Group '{}' rules";
         EvAcquire sg_id;
         EvNsx (Nsx_get_or_create_security_group sg_id);
         EvNsx (Nsx_get_revisions IPSet None);
         EvNsx (Nsx_get_revisions FirewallRule (Some ("section_id", sec_id)));
         EvRpc (Rpc_get_rules_for_security_groups_id sg_id);
         EvRpc (Rpc_get_security_group_revision sg_id);
         EvNsx (Nsx_update_security_group_rules rv.1 rv.2
                  add_rules del_rules);
         EvRelease sg_id] w
    ∧ (∀ v, v ∈ del_rules ↔
            ∃ R, r_fwr.1.2 !! R = Some v
                 ∧ (rule_disabled r_fwr.2 (PStr R) = true
                    ∨ ∀ rule, rule ∈ neutron_rules →
                              rule !! "id" ≠ Some (PStr R)))
    ∧ (∀ rule, rule ∈ neutron_rules →
               dict_has r_fwr.1.2 (rule_name rule) = false →
               let fwr_spec :=
                 nsx_get_security_group_rule_spec env
                   (projection ipset_id nsg_id r_ips.1.2 rule) in
               truthy fwr_spec = true → fwr_spec ∈ add_rules).
Proof.
  intros Hans Hin.
  exists (add_rules_of env ipset_id nsg_id r_ips r_fwr neutron_rules),
         (del_rules_of r_fwr neutron_rules).
  split; [by erewrite security_group_rule_updated_run|].
  destruct Hin as (Hwf & Hmeta & Hnd). split.
  - intros v. unfold del_rules_of. rewrite dict_values_elem. split.
    + intros (R & HR). exists R. unfold remaining in HR.
      destruct (remaining_step r_fwr.2 r_fwr.1.2 neutron_rules R r_fwr.1.2)
        as [Hnone | [Hsame Hno]]; [congruence|].
      rewrite Hsame in HR. split; [done|].
      destruct (rule_disabled r_fwr.2 (PStr R)) eqn:Hdis; [by left|].
      right. intros rule Hrule Hid. apply Hno. exists rule.
      apply rule_name_id in Hid as Hname.
      split; [done|]. split; [done|]. unfold untouched.
      rewrite Hname, Hdis. simpl. by rewrite bool_decide_eq_true_2 by eauto.
    + intros (R & HR & Hwhy). exists R. unfold remaining.
      rewrite remaining_kept; [done|].
      intros (rule & Hrule & Hname & Hun). unfold untouched in Hun.
      rewrite Hname in Hun. apply andb_prop in Hun as [_ Hen].
      apply negb_true_iff in Hen. destruct Hwhy as [Hdis | Hnone];
        [congruence|].
      apply (Hnone rule Hrule).
      assert (Hr : wf_rule rule) by (by eapply Forall_forall in Hwf).
      destruct Hr as (Hattrs & _).
      destruct (Hattrs "id") as [name Hid]; [unfold attrs; set_solver|].
      rewrite Hid. f_equal. by rewrite <- Hname, (rule_name_id _ _ Hid).
  - intros rule Hrule Hnew fwr_spec Hspec.
    unfold add_rules_of, added, recreated.
    apply list_elem_of_filter. split; [done|].
    apply list_elem_of_fmap. exists rule. split; [done|].
    apply list_elem_of_filter. split; [|done].
    unfold untouched. by rewrite Hnew.
Qed.

Lemma rule_update_delete_list_exact_witness :
  let rule_Q := RuleScenario.rule "Q" (PStr "sg-2") in
  let env := RuleScenario.env PDict [rule_Q] false in
  ∃ add_rules del_rules,
    (security_group_rule_updated env "sg-1" Scenario.world).2
    = add_events
        [EvLog DEBUG "Updating Security Group '{}' rules";
         EvAcquire "sg-1";
         EvNsx (Nsx_get_or_create_security_group "sg-1");
         EvNsx (Nsx_get_revisions IPSet None);
         EvNsx (Nsx_get_revisions FirewallRule
                  (Some ("section_id", "section-1")));
         EvRpc (Rpc_get_rules_for_security_groups_id "sg-1");
         EvRpc (Rpc_get_security_group_revision "sg-1");
         EvNsx (Nsx_update_security_group_rules (PStr "sg-1") (PInt 7)
                  add_rules del_rules);
         EvRelease "sg-1"] Scenario.world
    ∧ PStr "fw-R" ∈ del_rules
    ∧ PDict (projection "ipset-1" "nsg-1" RuleScenario.revs_ips rule_Q)
      ∈ add_rules.
Proof.
  intros rule_Q env.
  destruct (rule_update_delete_list_exact env "sg-1"
              "ipset-1" "nsg-1" "section-1"
              (∅, RuleScenario.revs_ips, ∅)
              (∅, RuleScenario.revs_fwr, RuleScenario.meta_fwr false)
              [rule_Q] (PStr "sg-1", PInt 7) Scenario.world)
    as (add_rules & del_rules & Hrun & Hdel & Hadd).
  - repeat split.
  - split; [|split].
    + repeat constructor. by apply RuleScenario.wf_rule_rule.
    + intros s [v Hs]. cbn [fst snd] in Hs.
      unfold RuleScenario.revs_fwr in Hs.
      apply lookup_singleton_Some in Hs as [<- _]. by eexists.
    + repeat constructor. apply not_elem_of_nil.
  - exists add_rules, del_rules. split; [exact Hrun|]. split.
    + apply Hdel. exists "R". split; [reflexivity|]. right.
      intros rule Hrule. apply list_elem_of_singleton in Hrule as ->.
      discriminate.
    + apply (Hadd rule_Q); [constructor | reflexivity | reflexivity].
Defined.

(** ** A malformed rule stops the reconciler before any update *)

Lemma copy_attrs_missing rule keys : ∀ fwr w,
  (∃ k, k ∈ keys ∧ rule !! k = None) →
  ∃ k, copy_attrs rule keys fwr w = (Raise (KeyError k), w)
       ∧ rule !! k = None.
Proof.
  induction keys as [|key keys IH]; intros fwr w (k & Hk & Hnone).
  - by apply not_elem_of_nil in Hk.
  - simpl. destruct (rule !! key) as [v|] eqn:Hkey.
    + erewrite bind_run by (by apply dict_item_run). apply IH.
      apply elem_of_cons in Hk as [->|Hk]; [congruence | eauto].
    + exists key. split; [|done]. unfold mbind, M_bind, dict_item.
      by rewrite Hkey.
Qed.

Lemma reconcile_rule_missing env ipset_id nsg_id revs_ips meta_fwr st rule w :
  (∃ k, k ∈ attrs ∧ rule !! k = None) →
  ∃ k, reconcile_rule env ipset_id nsg_id revs_ips meta_fwr st rule w
       = (Raise (KeyError k), w)
       ∧ rule !! k = None.
Proof.
  intros Hmiss. unfold reconcile_rule, project_rule. cbv zeta.
  unfold mbind, M_bind, dict_item.
  destruct (rule !! "id") as [name|] eqn:Hid; [|by exists "id"].
  destruct (rule !! "remote_group_id") as [g|] eqn:Hg;
    [|by exists "remote_group_id"].
  destruct (copy_attrs_missing rule attrs ∅ w Hmiss) as (k & Hrun & Hk).
  exists k. unfold mret, M_ret. cbv beta iota. by rewrite Hrun.
Qed.

(** A call that leaves the world as it is and ends. *)
Definition silent {A} (c : M A) : Prop :=
  ∀ w, (c w).2 = w ∧ (c w).1 ≠ Diverge.

Lemma silent_ret {A} (a : A) : silent (mret a).
Proof. done. Qed.

Lemma silent_raise {A} e : silent (raise e : M A).
Proof. done. Qed.

Lemma silent_bind {A B} (c : M A) (f : A → M B) :
  silent c → (∀ a, silent (f a)) → silent (c ≫= f).
Proof.
  intros Hc Hf w. destruct (Hc w) as [Hw Hd]. unfold mbind, M_bind.
  destruct (c w) as [[a|e|] w1]; simpl in *; subst w1; [apply Hf|done..].
Qed.

Lemma silent_dict_item {V} (d : gmap string V) k : silent (dict_item d k).
Proof. unfold dict_item. by destruct (d !! k). Qed.

Lemma silent_dict_contains {V} (d : gmap string V) k :
  silent (dict_contains d k).
Proof. unfold dict_contains. by destruct (hashable k). Qed.

Lemma silent_py_get v k : silent (py_get v k).
Proof. by destruct v. Qed.

Lemma silent_copy_attrs rule keys : ∀ fwr, silent (copy_attrs rule keys fwr).
Proof.
  induction keys as [|key keys IH]; intros fwr; simpl; [apply silent_ret|].
  apply silent_bind; [apply silent_dict_item | intros; apply IH].
Qed.

Lemma reconcile_rule_silent env ipset_id nsg_id revs_ips meta_fwr st rule :
  silent (reconcile_rule env ipset_id nsg_id revs_ips meta_fwr st rule).
Proof.
  unfold reconcile_rule, project_rule. cbv zeta.
  apply silent_bind; [apply silent_dict_item|]. intros name.
  apply silent_bind.
  { apply silent_bind; [apply silent_dict_item|]. intros g.
    apply silent_bind; [apply silent_copy_attrs|]. intros fwr.
    apply silent_bind; [apply silent_dict_contains|].
    intros []; apply silent_ret. }
  intros fwr. apply silent_bind; [apply silent_dict_contains|].
  intros present. apply silent_bind.
  - destruct present; [|apply silent_ret].
    apply silent_bind; [apply silent_py_get | intros; apply silent_ret].
  - intros []; [apply silent_ret|]. destruct (truthy _); apply silent_ret.
Qed.

Lemma reconcile_rules_missing env ipset_id nsg_id revs_ips meta_fwr rules :
  ∀ st w,
    (∃ rule k, rule ∈ rules ∧ k ∈ attrs ∧ rule !! k = None) →
    ∃ e, reconcile_rules env ipset_id nsg_id revs_ips meta_fwr rules st w
         = (Raise e, w).
Proof.
  induction rules as [|rule rules IH]; intros st w (bad & k & Hbad & Hk & Hnone).
  - by apply not_elem_of_nil in Hbad.
  - simpl. unfold mbind, M_bind.
    destruct (reconcile_rule_silent env ipset_id nsg_id revs_ips meta_fwr
                st rule w) as [Hw Hd].
    destruct (reconcile_rule env ipset_id nsg_id revs_ips meta_fwr st rule w)
      as [[st'|e|] w1] eqn:Hrun; simpl in *; subst w1; [|by eauto|done].
    apply elem_of_cons in Hbad as [->|Hbad]; [|by eauto 10].
    destruct (reconcile_rule_missing env ipset_id nsg_id revs_ips meta_fwr
                st rule w) as (k' & Hrun' & _); [by eauto|].
    congruence.
Qed.

(** X6. When a rule of the source store lacks one of the attributes the loop
    copies, [security_group_rule_updated] raises, releases the lock of the
    group and has not called [update_security_group_rules]: the rules of
    the group are left as they were, also the ones listed before the
    malformed rule. *)
Theorem rule_update_malformed_rule_changes_nothing
    env sg_id ipset_id nsg_id sec_id r_ips r_fwr neutron_rules w :
  nsx_get_or_create_security_group env sg_id = inr (ipset_id, nsg_id, sec_id) →
  nsx_get_revisions env IPSet None = inr r_ips →
  nsx_get_revisions env FirewallRule (Some ("section_id", sec_id))
  = inr r_fwr →
  rpc_get_rules_for_security_groups_id env sg_id = inr neutron_rules →
  (∃ rule k, rule ∈ neutron_rules ∧ k ∈ attrs ∧ rule !! k = None) →
  ∃ e,
    security_group_rule_updated env sg_id w
    = (Raise e,
       add_events
         [EvLog DEBUG "Updating Security Group '{}' rules";
          EvAcquire sg_id;
          EvNsx (Nsx_get_or_create_security_group sg_id);
          EvNsx (Nsx_get_revisions IPSet None);
          EvNsx (Nsx_get_revisions FirewallRule
                   (Some ("section_id", sec_id)));
          EvRpc (Rpc_get_rules_for_security_groups_id sg_id);
          EvRelease sg_id] w).
Proof.
  intros Hsg Hips Hfwr Hrules Hbad.
  unfold security_group_rule_updated.
  erewrite bind_run by reflexivity. unfold with_lock.
  unfold nsxv3_get_or_create_security_group. rewrite Hsg.
  erewrite bind_run by reflexivity. cbv zeta. cbn [fst snd].
  unfold nsxv3_get_revisions. rewrite Hips.
  erewrite bind_run by reflexivity. rewrite Hfwr.
  erewrite bind_run by reflexivity.
  erewrite bind_run by reflexivity. rewrite Hrules.
  erewrite bind_run by reflexivity.
  match goal with
  | |- context [reconcile_rules ?e ?i ?n ?ri ?m ?rs ?st] =>
      destruct (reconcile_rules_missing e i n ri m rs st
                  (add_event (EvRpc (Rpc_get_rules_for_security_groups_id sg_id))
                     (add_event (EvNsx (Nsx_get_revisions FirewallRule
                                          (Some ("section_id", sec_id))))
                        (add_event (EvNsx (Nsx_get_revisions IPSet None))
                           (add_event (EvNsx (Nsx_get_or_create_security_group sg_id))
                              (add_event (EvAcquire sg_id)
                                 (add_event (EvLog DEBUG
                                               "Updating Security Group '{}' rules")
                                    w))))))
                  Hbad) as [e' Hrun]
  end.
  exists e'. unfold mbind, M_bind. rewrite Hrun.
  by rewrite !add_event_events, !add_events_app.
Qed.

Lemma rule_update_malformed_rule_changes_nothing_witness :
  let good := RuleScenario.rule "Q" PNone in
  let bad := delete "protocol" (RuleScenario.rule "R" PNone) in
  ∃ e,
    security_group_rule_updated (RuleScenario.env PDict [good; bad] true)
      "sg-1" Scenario.world
    = (Raise e,
       add_events
         [EvLog DEBUG "Updating Security Group '{}' rules";
          EvAcquire "sg-1";
          EvNsx (Nsx_get_or_create_security_group "sg-1");
          EvNsx (Nsx_get_revisions IPSet None);
          EvNsx (Nsx_get_revisions FirewallRule
                   (Some ("section_id", "section-1")));
          EvRpc (Rpc_get_rules_for_security_groups_id "sg-1");
          EvRelease "sg-1"] Scenario.world).
Proof.
  intros good bad.
  apply (rule_update_malformed_rule_changes_nothing
           (RuleScenario.env PDict [good; bad] true) "sg-1"
           "ipset-1" "nsg-1" "section-1"
           (∅, RuleScenario.revs_ips, ∅)
           (∅, RuleScenario.revs_fwr, RuleScenario.meta_fwr true)
           [good; bad] Scenario.world); try reflexivity.
  exists bad, "protocol". split; [|split].
  - apply list_elem_of_In. right. left. reflexivity.
  - apply list_elem_of_In. do 3 right. left. reflexivity.
  - reflexivity.
Defined.

(** ** The port update on a port of the agent *)

(** The field of an address record, [None] when it is missing. *)
Definition addr_field (addr : pyval) (k : string) : pyval :=
  match addr with
  | PDict d => dict_get PNone d k
  | _ => PNone
  end.

(** The binding of a fixed ip: its own mac address, or the one of the port
    when it has none. *)
Definition fixed_binding (port : gmap string pyval) (addr : pyval)
    : pyval * pyval :=
  (addr_field addr "ip_address",
   let mac := addr_field addr "mac_address" in
   if truthy mac then mac else dict_get PNone port "mac_address").

Definition allowed_binding (addr : pyval) : pyval * pyval :=
  (addr_field addr "ip_address", addr_field addr "mac_address").

Definition wf_fixed (port : gmap string pyval) (addr : pyval) : Prop :=
  ∃ d, addr = PDict d ∧ is_Some (d !! "ip_address")
       ∧ (truthy (dict_get PNone d "mac_address") = true
          ∨ is_Some (port !! "mac_address")).

Definition wf_allowed (addr : pyval) : Prop :=
  ∃ d, addr = PDict d ∧ is_Some (d !! "ip_address")
       ∧ is_Some (d !! "mac_address").

(** The port is one this agent applies: normal vnic, OVS vif, and bound to
    the host of the agent when it says where it is bound. *)
Definition passes_guards (env : Env) (port : gmap string pyval) : Prop :=
  dict_get PNone port VNIC_TYPE = PStr VNIC_NORMAL
  ∧ dict_get PNone port VIF_TYPE = PStr VIF_TYPE_OVS
  ∧ (port !! "binding:host_id" = None
     ∨ port !! "binding:host_id" = Some (PStr (conf_host env))).

Lemma dict_get_Some {V} (none : V) (d : gmap string V) k v :
  d !! k = Some v → dict_get none d k = v.
Proof. unfold dict_get. by intros ->. Qed.

Lemma fixed_ip_bindings_run port addrs : ∀ bs w,
  Forall (wf_fixed port) addrs →
  fixed_ip_bindings port addrs bs w
  = (Ret (bs ++ (fixed_binding port <$> addrs))%list, w).
Proof.
  induction addrs as [|addr addrs IH]; intros bs w Hwf; simpl.
  - by rewrite app_nil_r.
  - apply Forall_cons in Hwf as [(d & -> & [ip Hip] & Hmac) Hwf].
    assert (Hb : fixed_binding port (PDict d)
                 = (ip, if truthy (dict_get PNone d "mac_address")
                        then dict_get PNone d "mac_address"
                        else dict_get PNone port "mac_address")).
    { unfold fixed_binding, addr_field. by rewrite (dict_get_Some _ _ _ _ Hip). }
    rewrite Hb. erewrite bind_run by reflexivity.
    destruct (truthy (dict_get PNone d "mac_address")) eqn:Ht.
    + erewrite bind_run by reflexivity.
      erewrite bind_run by (simpl; by apply dict_item_run).
      rewrite IH by done. by rewrite <- app_assoc.
    + destruct Hmac as [|[mac Hmac]]; [done|].
      erewrite bind_run by (by apply dict_item_run).
      erewrite bind_run by (simpl; by apply dict_item_run).
      rewrite IH by done. rewrite <- app_assoc.
      by rewrite (dict_get_Some _ _ _ _ Hmac).
Qed.

Lemma allowed_pair_bindings_run addrs : ∀ bs w,
  Forall wf_allowed addrs →
  allowed_pair_bindings addrs bs w
  = (Ret (bs ++ (allowed_binding <$> addrs))%list, w).
Proof.
  induction addrs as [|addr addrs IH]; intros bs w Hwf; simpl.
  - by rewrite app_nil_r.
  - apply Forall_cons in Hwf as [(d & -> & [ip Hip] & [mac Hmac]) Hwf].
    assert (Hb : allowed_binding (PDict d) = (ip, mac)).
    { unfold allowed_binding, addr_field.
      by rewrite (dict_get_Some _ _ _ _ Hip), (dict_get_Some _ _ _ _ Hmac). }
    rewrite Hb.
    erewrite bind_run by (simpl; by apply dict_item_run).
    erewrite bind_run by (simpl; by apply dict_item_run).
    rewrite IH by done. by rewrite <- app_assoc.
Qed.

Section PortUpdate.
Variables (env : Env) (port : gmap string pyval).
Variables (id : string) (revision_number security_groups : pyval).
Variables (fixed_ips allowed_address_pairs : list pyval).

(** The fields [port_update] reads from a port it applies. *)
Definition port_fields : Prop :=
  port !! "fixed_ips" = Some (PList fixed_ips)
  ∧ Forall (wf_fixed port) fixed_ips
  ∧ port !! "allowed_address_pairs" = Some (PList allowed_address_pairs)
  ∧ Forall wf_allowed allowed_address_pairs
  ∧ port !! "id" = Some (PStr id)
  ∧ port !! "revision_number" = Some revision_number
  ∧ port !! "security_groups" = Some security_groups.

Definition port_update_call : NsxCall :=
  Nsx_port_update (PStr id) revision_number security_groups
    ((fixed_binding port <$> fixed_ips)
     ++ (allowed_binding <$> allowed_address_pairs))%list
    (dict_get PNone port "qos_policy_id").

Definition port_update_events : list Event :=
  [EvLog DEBUG "Updating Port='%s' with Segment='%s'";
   EvAcquire id; EvNsx port_update_call; EvRelease id].

Lemma port_update_run w :
  passes_guards env port → port_fields →
  port_update env port w
  = match nsx_mutation env port_update_call with
    | Some e => (Raise e, add_events port_update_events w)
    | None =>
        (dict_item port "mac_address" ≫= updated_devices_add)
          (add_events port_update_events w)
    end.
Proof.
  intros (Hvnic & Hvif & Hhost)
         (Hfixed & Hwff & Hallowed & Hwfa & Hid & Hrev & Hsgs).
  unfold port_update. cbv zeta. rewrite Hvnic, Hvif. simpl.
  assert (Hguard :
            bool_decide (is_Some (port !! "binding:host_id"))
            && negb (pyval_eq_str (dict_get PNone port "binding:host_id")
                       (conf_host env)) = false).
  { unfold dict_get. destruct Hhost as [-> | ->]; [done|]. simpl.
    by rewrite String.eqb_refl. }
  rewrite Hguard.
  erewrite bind_run by reflexivity.
  erewrite bind_run by (by apply dict_item_run).
  erewrite bind_run by reflexivity.
  erewrite bind_run by (by apply fixed_ip_bindings_run).
  erewrite bind_run by (by apply dict_item_run).
  erewrite bind_run by reflexivity.
  erewrite bind_run by (by apply allowed_pair_bindings_run).
  erewrite bind_run by (by apply dict_item_run).
  unfold with_lock_val, with_lock.
  unfold mbind at 1, M_bind at 1.
  erewrite bind_run by (by apply dict_item_run).
  erewrite bind_run by (by apply dict_item_run).
  erewrite bind_run by (by apply dict_item_run).
  unfold nsxv3_mutate, emit. cbn [app].
  fold port_update_call. unfold mbind at 1, M_bind at 1.
  unfold port_update_events.
  destruct (nsx_mutation env port_update_call); unfold raise, mret, M_ret;
    by rewrite !add_event_events, !add_events_app.
Qed.
End PortUpdate.

(** A port of the agent with one fixed ip without a mac address of its own
    and one allowed address pair. *)
Module PortScenario.
Definition fixed_ip : pyval :=
  PDict (<["ip_address" := PStr "10.0.0.5"]>
           (<["subnet_id" := PStr "subnet-1"]> ∅)).

Definition allowed_pair : pyval :=
  PDict (<["ip_address" := PStr "10.0.0.9"]>
           (<["mac_address" := PStr "fa:16:3e:00:00:09"]> ∅)).

Definition port : gmap string pyval :=
  list_to_map
    [("id", PStr "port-1"); ("mac_address", PStr "fa:16:3e:00:00:05");
     ("revision_number", PInt 3); ("qos_policy_id", PNone);
     ("fixed_ips", PList [fixed_ip]);
     ("allowed_address_pairs", PList [allowed_pair]);
     ("security_groups", PList [PStr "sg-1"]);
     ("binding:host_id", PStr "node-1");
     (VNIC_TYPE, PStr VNIC_NORMAL); (VIF_TYPE, PStr VIF_TYPE_OVS)].

(** The collaborators of the scenario, with a target store that answers
    every mutation with [failure]. *)
Definition env (failure : option exn) : Env :=
  {| rpc_max_records_per_query := 100;
     conf_host := "node-1";
     polling_interval := 30;
     rpc_query := λ _ _ _, [];
     rpc_get_rules_for_security_groups_id := λ _, inr [];
     rpc_get_security_group_revision := λ sg, inr (PStr sg, PInt 1);
     nsx_get_revisions := λ _ _, inr (∅, ∅, ∅);
     nsx_get_or_create_security_group := λ sg, inr (sg, sg, sg);
     nsx_get_security_group_rule_spec := PDict;
     nsx_mutation := λ _, failure;
     timestamp_has_expired := inr false;
     runner_active := 0;
     runner_passive := 0 |}.

Lemma guards p failure :
  p = port ∨ p = delete "mac_address" port → passes_guards (env failure) p.
Proof. intros [-> | ->]; repeat split; by right. Defined.

Lemma fields :
  port_fields port "port-1" (PInt 3) (PList [PStr "sg-1"])
    [fixed_ip] [allowed_pair].
Proof.
  repeat split; repeat constructor.
  - eexists. split; [reflexivity|]. split; [by eexists|].
    right. by eexists.
  - eexists. split; [reflexivity|]. split; by eexists.
Defined.
End PortScenario.

(** X7. [port_update] of a port of the agent takes the lock of the port, calls
    the target store once, with the bindings of the fixed ips (each with its
    own mac address, or with the one of the port when it has none) followed
    by the allowed address pairs, releases the lock and adds the mac address
    of the port to [updated_devices]. *)
Theorem port_update_applies
    env port id revision_number security_groups fixed_ips
    allowed_address_pairs mac w :
  passes_guards env port →
  port_fields port id revision_number security_groups fixed_ips
    allowed_address_pairs →
  port !! "mac_address" = Some mac → hashable mac = true →
  nsx_mutation env
    (port_update_call port id revision_number security_groups fixed_ips
       allowed_address_pairs) = None →
  port_update env port w
  = (Ret tt,
     {| events :=
          events w
          ++ [EvLog DEBUG "Updating Port='%s' with Segment='%s'";
              EvAcquire id;
              EvNsx (Nsx_port_update (PStr id) revision_number security_groups
                       ((fixed_binding port <$> fixed_ips)
                        ++ (allowed_binding <$> allowed_address_pairs))
                       (dict_get PNone port "qos_policy_id"));
              EvRelease id];
        updated_devices := mac :: updated_devices w;
        last_sync_time := last_sync_time w |}).
Proof.
  intros Hguards Hfields Hmac Hhash Hok.
  rewrite (port_update_run env port id revision_number security_groups
             fixed_ips allowed_address_pairs w Hguards Hfields), Hok.
  erewrite bind_run by (by apply dict_item_run).
  unfold updated_devices_add. by rewrite Hhash.
Qed.

Lemma port_update_applies_witness :
  port_update (PortScenario.env None) PortScenario.port Scenario.world
  = (Ret tt,
     {| events :=
          [EvLog DEBUG "Updating Port='%s' with Segment='%s'";
           EvAcquire "port-1";
           EvNsx (Nsx_port_update (PStr "port-1") (PInt 3)
                    (PList [PStr "sg-1"])
                    [(PStr "10.0.0.5", PStr "fa:16:3e:00:00:05");
                     (PStr "10.0.0.9", PStr "fa:16:3e:00:00:09")]
                    PNone);
           EvRelease "port-1"];
        updated_devices := [PStr "fa:16:3e:00:00:05"];
        last_sync_time := 0 |}).
Proof.
  apply (port_update_applies (PortScenario.env None) PortScenario.port
           "port-1" (PInt 3) (PList [PStr "sg-1"])
           [PortScenario.fixed_ip] [PortScenario.allowed_pair]
           (PStr "fa:16:3e:00:00:05") Scenario.world).
  - apply PortScenario.guards. by left.
  - exact PortScenario.fields.
  - reflexivity.
  - reflexivity.
  - reflexivity.
Defined.

(** X8. When the target store refuses the update, [port_update] raises what the
    store raised, with the lock of the port released and [updated_devices]
    as it was. *)
Theorem port_update_store_failure
    env port id revision_number security_groups fixed_ips
    allowed_address_pairs e w :
  passes_guards env port →
  port_fields port id revision_number security_groups fixed_ips
    allowed_address_pairs →
  nsx_mutation env
    (port_update_call port id revision_number security_groups fixed_ips
       allowed_address_pairs) = Some e →
  port_update env port w
  = (Raise e,
     add_events
       [EvLog DEBUG "Updating Port='%s' with Segment='%s'";
        EvAcquire id;
        EvNsx (Nsx_port_update (PStr id) revision_number security_groups
                 ((fixed_binding port <$> fixed_ips)
                  ++ (allowed_binding <$> allowed_address_pairs))
                 (dict_get PNone port "qos_policy_id"));
        EvRelease id] w).
Proof.
  intros Hguards Hfields Hfail.
  by rewrite (port_update_run env port id revision_number security_groups
                fixed_ips allowed_address_pairs w Hguards Hfields), Hfail.
Qed.

Lemma port_update_store_failure_witness :
  let env := PortScenario.env (Some (StoreError "revision conflict")) in
  (port_update env PortScenario.port Scenario.world).1
  = Raise (StoreError "revision conflict")
  ∧ updated_devices (port_update env PortScenario.port Scenario.world).2 = [].
Proof.
  intros env.
  rewrite (port_update_store_failure env PortScenario.port
             "port-1" (PInt 3) (PList [PStr "sg-1"])
             [PortScenario.fixed_ip] [PortScenario.allowed_pair]
             (StoreError "revision conflict") Scenario.world
             (PortScenario.guards _ _ (or_introl eq_refl))
             PortScenario.fields eq_refl).
  split; reflexivity.
Defined.

(** X9. A port that has no [mac_address] of its own, all of whose fixed ips
    carry one, is updated in the target store; only then does
    [port_update] raise [KeyError], on [port['mac_address']], with the lock
    released and nothing added to [updated_devices]. *)
Theorem port_update_without_port_mac
    env port id revision_number security_groups fixed_ips
    allowed_address_pairs w :
  passes_guards env port →
  port_fields port id revision_number security_groups fixed_ips
    allowed_address_pairs →
  port !! "mac_address" = None →
  nsx_mutation env
    (port_update_call port id revision_number security_groups fixed_ips
       allowed_address_pairs) = None →
  port_update env port w
  = (Raise (KeyError "mac_address"),
     add_events
       [EvLog DEBUG "Updating Port='%s' with Segment='%s'";
        EvAcquire id;
        EvNsx (Nsx_port_update (PStr id) revision_number security_groups
                 ((fixed_binding port <$> fixed_ips)
                  ++ (allowed_binding <$> allowed_address_pairs))
                 (dict_get PNone port "qos_policy_id"));
        EvRelease id] w).
Proof.
  intros Hguards Hfields Hmac Hok.
  rewrite (port_update_run env port id revision_number security_groups
             fixed_ips allowed_address_pairs w Hguards Hfields), Hok.
  unfold mbind, M_bind, dict_item. by rewrite Hmac.
Qed.

Lemma port_update_without_port_mac_witness :
  let addr :=
    PDict (<["ip_address" := PStr "10.0.0.5"]>
             (<["mac_address" := PStr "fa:16:3e:00:00:05"]> ∅)) in
  let port : gmap string pyval :=
    list_to_map
      [("id", PStr "port-2"); ("revision_number", PInt 1);
       ("fixed_ips", PList [addr]); ("allowed_address_pairs", PList []);
       ("security_groups", PList []);
       (VNIC_TYPE, PStr VNIC_NORMAL); (VIF_TYPE, PStr VIF_TYPE_OVS)] in
  port_update (PortScenario.env None) port Scenario.world
  = (Raise (KeyError "mac_address"),
     add_events
       [EvLog DEBUG "Updating Port='%s' with Segment='%s'";
        EvAcquire "port-2";
        EvNsx (Nsx_port_update (PStr "port-2") (PInt 1) (PList [])
                 [(PStr "10.0.0.5", PStr "fa:16:3e:00:00:05")] PNone);
        EvRelease "port-2"] Scenario.world).
Proof.
  intros addr port.
  apply (port_update_without_port_mac (PortScenario.env None) port
           "port-2" (PInt 1) (PList []) [addr] [] Scenario.world).
  - repeat split. by left.
  - repeat split; repeat constructor.
    eexists. split; [reflexivity|]. split; [by eexists|]. by left.
  - reflexivity.
  - reflexivity.
Defined.

(** ** The polling throttle *)

Lemma sync_inventory_only_events env fuel w :
  ∃ evs, (sync_inventory env fuel w).2 = add_events evs w.
Proof.
  assert (Hany : emits_only (λ _, True) (sync_inventory env fuel)).
  { unfold sync_inventory. apply emits_only_with_lock; [exact I..|].
    unfold log, timestamp_has_expired_call, timestamp_update,
      _sync_inventory_full, _sync_inventory_shallow, runner_run, _sync_report.
    cbv zeta. repeat lock_free_step.
    destruct a; repeat lock_free_step.
    destruct (nsx_mutation _ _); repeat lock_free_step. }
  destruct (Hany w) as (evs & Hw & _). by exists evs.
Qed.

(** X10. [get_all_devices] synchronizes at most once per polling interval: a
    call that finds no callbacks or comes within the interval changes
    nothing at all; a synchronization that returns sets [last_sync_time] to
    the first reading of the clock, so that a next call within the interval
    of it is idle; a synchronization that raises leaves [last_sync_time] as
    it was, so that the next call tries again. *)
Theorem get_all_devices_throttle env fuel rpc now now' w :
  (rpc = false ∨ (now' - last_sync_time w ≤ polling_interval env)%Z →
   get_all_devices env fuel rpc now now' w = (Ret ∅, w))
  ∧ (∀ w1 fuel2 now2 now2',
       rpc = true → polling_interval env < now' - last_sync_time w →
       sync_inventory env fuel w = (Ret tt, w1) →
       (now2' - now ≤ polling_interval env)%Z →
       ∃ w2,
         get_all_devices env fuel rpc now now' w = (Ret ∅, w2)
         ∧ events w2 = events w1 ∧ last_sync_time w2 = now
         ∧ get_all_devices env fuel2 rpc now2 now2' w2 = (Ret ∅, w2))
  ∧ (∀ e w1,
       rpc = true → polling_interval env < now' - last_sync_time w →
       sync_inventory env fuel w = (Raise e, w1) →
       ∃ w2,
         get_all_devices env fuel rpc now now' w = (Ret ∅, w2)
         ∧ last_sync_time w2 = last_sync_time w).
Proof.
  split; [|split].
  - intros Hidle.
    destruct (get_all_devices_cases env fuel rpc now now' w)
      as [[_ Hrun] | [[Hrpc Hel] _]]; [done|].
    destruct Hidle as [Hno | Hle]; [congruence | lia].
  - intros w1 fuel2 now2 now2' Hrpc Hel Hsync Hnext.
    destruct (get_all_devices_cases env fuel rpc now now' w)
      as [[Hno _] | [_ Hrun]]; [by destruct Hno|].
    rewrite Hsync in Hrun. eexists. split; [exact Hrun|].
    split; [done|]. split; [done|].
    destruct (get_all_devices_cases env fuel2 rpc now2 now2'
                {| events := events w1;
                   updated_devices := updated_devices w1;
                   last_sync_time := now |})
      as [[_ Hrun2] | [[_ Hel2] _]]; [done|].
    simpl in Hel2. lia.
  - intros e w1 Hrpc Hel Hsync.
    destruct (get_all_devices_cases env fuel rpc now now' w)
      as [[Hno _] | [_ Hrun]]; [by destruct Hno|].
    rewrite Hsync in Hrun. eexists. split; [exact Hrun|].
    destruct (sync_inventory_only_events env fuel w) as (evs & Hw).
    rewrite Hsync in Hw. simpl in Hw. by subst w1.
Qed.

Lemma get_all_devices_throttle_witness :
  ∃ w2,
    get_all_devices Scenario.env 1 true 100 100 Scenario.world = (Ret ∅, w2)
    ∧ last_sync_time w2 = 100
    ∧ get_all_devices Scenario.env 1 true 120 120 w2 = (Ret ∅, w2).
Proof.
  destruct (proj1 (proj2 (get_all_devices_throttle Scenario.env 1 true
                            100 100 Scenario.world))
              (sync_inventory Scenario.env 1 Scenario.world).2
              1%nat 120 120 eq_refl eq_refl eq_refl ltac:(simpl; lia))
    as (w2 & Hrun & _ & Hlast & Hidle).
  exists w2. split; [exact Hrun|]. split; [exact Hlast | exact Hidle].
Defined.

(** ** The marker is written only after a complete full pass *)

Definition is_rpc_call (e : Event) : Prop := ∃ c, e = EvRpc c.

Lemma get_revisions_queries_only env fuel query w :
  ∃ evs, (get_revisions env fuel query w).2 = add_events evs w
         ∧ Forall is_rpc_call evs.
Proof.
  apply (emits_only_get_revisions is_rpc_call env fuel query).
  intros limit created_after. by eexists.
Qed.

Lemma rpc_calls_submit_nothing evs :
  Forall is_rpc_call evs →
  submissions evs = [] ∧ (EvNsx Nsx_timestamp_update ∉ evs).
Proof.
  induction 1 as [|e evs [c ->] _ [IHs IHn]]; [split; [done|set_solver]|].
  split; [done|]. intros Hin. apply elem_of_cons in Hin as [Hin|Hin]; done.
Qed.

(** However a full pass ends, it does not write the marker; and when it
    returns it has submitted its three batches. *)
Lemma full_pass_shape env fuel w :
  ∃ evs,
    (_sync_inventory_full env fuel w).2 = add_events evs w
    ∧ (EvNsx Nsx_timestamp_update ∉ evs)
    ∧ ((_sync_inventory_full env fuel w).1 = Ret tt →
       ∃ sg qos ports,
         submissions evs
         = [(HIGHER, sg, H_sync_security_group); (HIGH, qos, H_sync_qos);
            (MEDIUM, ports, H_sync_port)]).
Proof.
  unfold _sync_inventory_full, mbind, M_bind, runner_run, emit.
  destruct (get_revisions_queries_only env fuel
              get_security_group_revision_tuples w) as (l1 & H1 & F1).
  apply rpc_calls_submit_nothing in F1 as [S1 N1].
  destruct (get_revisions env fuel get_security_group_revision_tuples w)
    as [[r1|e|] w1]; simpl in *; subst w1; [|by exists l1..].
  match goal with
  | |- context [get_revisions env fuel get_qos_policy_revision_tuples ?w0] =>
      destruct (get_revisions_queries_only env fuel
                  get_qos_policy_revision_tuples w0) as (l2 & H2 & F2);
      apply rpc_calls_submit_nothing in F2 as [S2 N2];
      destruct (get_revisions env fuel get_qos_policy_revision_tuples w0)
        as [[r2|e|] w2]; simpl in *; subst w2
  end.
  2,3: rewrite add_event_events, !add_events_app; eexists;
       (split; [done|]); split; [set_solver | done].
  match goal with
  | |- context [get_revisions env fuel get_port_revision_tuples ?w0] =>
      destruct (get_revisions_queries_only env fuel
                  get_port_revision_tuples w0) as (l3 & H3 & F3);
      apply rpc_calls_submit_nothing in F3 as [S3 N3];
      destruct (get_revisions env fuel get_port_revision_tuples w0)
        as [[r3|e|] w3]; simpl in *; subst w3
  end.
  2,3: rewrite !add_event_events, !add_events_app; eexists;
       (split; [done|]); split; [set_solver | done].
  rewrite !add_event_events, !add_events_app. eexists. split; [done|].
  split; [set_solver|]. intros _. exists (dom r1), (dom r2), (dom r3).
  rewrite !submissions_app, S1, S2, S3. done.
Qed.

(** X11. In every run of [sync_inventory], however it ends, the timestamp
    marker is written at most once, as the last call before the lock is
    released, and only after the three batches of a full pass have been
    submitted. *)
Theorem marker_written_only_after_full_pass env fuel w :
  ∃ evs,
    (sync_inventory env fuel w).2 = add_events evs w
    ∧ (EvNsx Nsx_timestamp_update ∈ evs →
       ∃ pre sg qos ports,
         evs = (pre ++ [EvNsx Nsx_timestamp_update;
                        EvRelease AGENT_SYNCHRONIZATION_LOCK])%list
         ∧ (EvNsx Nsx_timestamp_update ∉ pre)
         ∧ submissions pre
           = [(HIGHER, sg, H_sync_security_group); (HIGH, qos, H_sync_qos);
              (MEDIUM, ports, H_sync_port)]).
Proof.
  destruct (timestamp_has_expired env) as [e | [|]] eqn:Hexp.
  - exists (if bool_decide (0 < runner_passive env)%nat
            then [EvAcquire AGENT_SYNCHRONIZATION_LOCK; pools_size_line;
                  EvRelease AGENT_SYNCHRONIZATION_LOCK]
            else [EvAcquire AGENT_SYNCHRONIZATION_LOCK; pools_size_line;
                  EvNsx Nsx_timestamp_has_expired;
                  EvRelease AGENT_SYNCHRONIZATION_LOCK]).
    unfold sync_inventory, with_lock, timestamp_has_expired_call, log,
      mbind, M_bind, emit, answer, raise, mret, M_ret.
    rewrite Hexp. case_bool_decide; simpl;
      rewrite !add_event_events, !add_events_app;
      (split; [done | set_solver]).
  - destruct (decide (0 < runner_passive env)%nat) as [Hp|Hp].
    { exists [EvAcquire AGENT_SYNCHRONIZATION_LOCK; pools_size_line;
              EvRelease AGENT_SYNCHRONIZATION_LOCK].
      rewrite sync_inventory_backlog by done. split; [done | set_solver]. }
    unfold sync_inventory, with_lock, timestamp_has_expired_call, log.
    erewrite bind_run by reflexivity.
    rewrite bool_decide_eq_false_2 by done. rewrite Hexp.
    erewrite bind_run by reflexivity. cbv iota.
    erewrite bind_run by reflexivity.
    match goal with
    | |- context [(_sync_inventory_full env fuel ≫= _) ?w0] =>
        destruct (full_pass_shape env fuel w0) as (l & Hl & Hno & Hsub);
        unfold mbind, M_bind;
        destruct (_sync_inventory_full env fuel w0) as [[[]|e|] w1];
          simpl in *; subst w1
    end.
    + unfold timestamp_update, mbind, M_bind, emit, raise, mret, M_ret.
      destruct (Hsub eq_refl) as (sg & qos & ports & Hsubs).
      exists ([EvAcquire AGENT_SYNCHRONIZATION_LOCK; pools_size_line;
               EvNsx Nsx_timestamp_has_expired;
               EvLog INFO "Starting a full inventory synchronization"]
              ++ l ++ [EvNsx Nsx_timestamp_update;
                       EvRelease AGENT_SYNCHRONIZATION_LOCK])%list.
      split.
      { destruct (nsx_mutation env Nsx_timestamp_update); simpl;
          rewrite !add_event_events, !add_events_app;
          by rewrite <- ?app_assoc. }
      intros _.
      exists ([EvAcquire AGENT_SYNCHRONIZATION_LOCK; pools_size_line;
               EvNsx Nsx_timestamp_has_expired;
               EvLog INFO "Starting a full inventory synchronization"]
              ++ l)%list, sg, qos, ports.
      split; [by rewrite <- !app_assoc|]. split; [|done].
      rewrite elem_of_app. intros [Hin | Hin]; [|done].
      repeat (apply elem_of_cons in Hin as [Hin|Hin]; [done|]).
      by apply not_elem_of_nil in Hin.
    + eexists. rewrite !add_event_events, !add_events_app. split; [done|].
      intros Hin. exfalso. clear Hsub. set_solver.
    + eexists. rewrite !add_event_events, !add_events_app. split; [done|].
      intros Hin. exfalso. clear Hsub. set_solver.
  - destruct (sync_inventory_fresh_no_marker env fuel Hexp w)
      as (evs & Hw & Hno).
    exists evs. split; [done|]. intros Hin. exfalso.
    by eapply Forall_forall in Hno.
Qed.

(** X12. A failure to read the marker ends the attempt: the exception of the
    target store goes to the caller, the global lock is released and
    nothing is submitted to the runner. *)
Theorem sync_inventory_marker_read_failure env fuel e w :
  runner_passive env = 0%nat →
  timestamp_has_expired env = inl e →
  sync_inventory env fuel w
  = (Raise e,
     add_events [EvAcquire AGENT_SYNCHRONIZATION_LOCK; pools_size_line;
                 EvNsx Nsx_timestamp_has_expired;
                 EvRelease AGENT_SYNCHRONIZATION_LOCK] w).
Proof.
  intros Hp Hexp.
  unfold sync_inventory, with_lock, timestamp_has_expired_call, log,
    mbind, M_bind, emit, answer, raise, mret, M_ret.
  rewrite Hexp, bool_decide_eq_false_2 by lia.
  by rewrite !add_event_events, !add_events_app.
Qed.

Lemma sync_inventory_marker_read_failure_witness :
  sync_inventory (Scenario.env_gate 0 (inl (StoreError "timeout"))) 1
    Scenario.world
  = (Raise (StoreError "timeout"),
     add_events [EvAcquire AGENT_SYNCHRONIZATION_LOCK; pools_size_line;
                 EvNsx Nsx_timestamp_has_expired;
                 EvRelease AGENT_SYNCHRONIZATION_LOCK] Scenario.world).
Proof.
  apply (sync_inventory_marker_read_failure
           (Scenario.env_gate 0 (inl (StoreError "timeout"))) 1
           (StoreError "timeout") Scenario.world); reflexivity.
Defined.

(** ** The full pass covers the shallow pass *)

(** X13. Whatever the shallow pass would submit for re-application is among the
    keys the full pass submits for the same kind of object, and no orphan of
    the shallow pass is among them. *)
Theorem full_pass_covers_shallow_pass
    env n_sg n_qos n_port r_ips r_qos r_lps fuel w :
  source_pages_end env n_sg n_qos n_port →
  enough_fuel n_sg n_qos n_port fuel →
  target_answers env r_ips r_qos r_lps →
  ∃ shallow full,
    _sync_inventory_shallow env fuel w = (Ret tt, add_events shallow w)
    ∧ _sync_inventory_full env fuel w = (Ret tt, add_events full w)
    ∧ ∀ s, s ∈ submissions shallow →
        ∃ s', s' ∈ submissions full
              ∧ handler_kind s'.2 = handler_kind s.2
              ∧ if is_orphan_handler s.2
                then s.1.2 ## s'.1.2
                else s.1.2 ⊆ s'.1.2.
Proof.
  intros Hsrc Hfuel Htgt.
  exists (shallow_pass_events env n_sg n_qos n_port r_ips r_qos r_lps),
         (full_pass_events env n_sg n_qos n_port).
  split; [by apply sync_inventory_shallow_run|].
  split; [by apply sync_inventory_full_run|].
  rewrite shallow_pass_submissions, full_pass_submissions.
  assert (Hout : ∀ revs_os revs_nsx,
             (revision_diff revs_os revs_nsx).1 ⊆ dom revs_os).
  { intros revs_os revs_nsx k Hk.
    apply revision_diff_outdated in Hk as (rev & Hk & _).
    apply elem_of_dom. eauto. }
  assert (Horph : ∀ revs_os revs_nsx,
             (revision_diff revs_os revs_nsx).2 ## dom revs_os).
  { intros revs_os revs_nsx k Hk Hin.
    apply revision_diff_orphaned in Hk as [_ Hk]. done. }
  intros s Hs.
  repeat (apply elem_of_cons in Hs as [->|Hs]);
    try (by apply not_elem_of_nil in Hs); simpl.
  1-4: eexists; split; [apply list_elem_of_here|]; split; [done|]; simpl;
       first [apply Hout | apply Horph].
  1: eexists; split; [apply list_elem_of_further, list_elem_of_here|];
     split; [done|]; apply Hout.
  1-2: eexists; split;
       [apply list_elem_of_further, list_elem_of_further, list_elem_of_here|];
       split; [done|]; simpl; first [apply Hout | apply Horph].
Qed.

Lemma full_pass_covers_shallow_pass_witness :
  ∃ shallow full,
    _sync_inventory_shallow Scenario.env 1 Scenario.world
    = (Ret tt, add_events shallow Scenario.world)
    ∧ _sync_inventory_full Scenario.env 1 Scenario.world
      = (Ret tt, add_events full Scenario.world)
    ∧ ∀ s, s ∈ submissions shallow →
        ∃ s', s' ∈ submissions full
              ∧ handler_kind s'.2 = handler_kind s.2
              ∧ if is_orphan_handler s.2
                then s.1.2 ## s'.1.2
                else s.1.2 ⊆ s'.1.2.
Proof.
  apply (full_pass_covers_shallow_pass Scenario.env 0 0 0
           (Scenario.target, ∅, ∅) (Scenario.target, ∅, ∅)
           (Scenario.target, ∅, ∅) 1 Scenario.world).
  - exact (scenario_pages_end 0 (inr false)).
  - unfold enough_fuel. lia.
  - exact scenario_target_answers.
Defined.

(** ** Synchronizing one port *)

(** What the source store and the JSON decoder answer to [sync_port]: the
    row of the port (id, mac address, admin state, status, QoS policy id,
    revision, binding host, vif details), the decoded vif details, the
    addresses (ip, subnet), the allowed address pairs (ip, mac) and the
    security groups of the port. *)
Record PortSource : Type := {
  rpc_get_port :
    string →
    exn + (pyval * pyval * pyval * pyval * pyval * pyval * pyval * pyval);
  json_loads : pyval → exn + pyval;
  rpc_get_port_addresses : string → exn + list (pyval * pyval);
  rpc_get_port_allowed_pairs : string → exn + list (pyval * pyval);
  rpc_get_port_security_groups : string → exn + list pyval
}.

(** [s in v] for a string [s]: a substring of a string, an element of a
    list, a key of a dictionary. *)
Definition py_contains_str (s : string) (v : pyval) : M bool :=
  match v with
  | PStr t => mret (match index 0 s t with Some _ => true | None => false end)
  | PList l => mret (existsb (λ x, pyval_eq_str x s) l)
  | PDict d => mret (bool_decide (is_Some (d !! s)))
  | _ => raise TypeError
  end.

(** The loop over [self.rpc.get_port_allowed_pairs(port_id)]. *)
Fixpoint allowed_pairs_of (pairs : list (pyval * pyval))
    (allowed : list pyval) : M (list pyval) :=
  match pairs with
  | [] => mret allowed
  | (ip, mac) :: pairs =>
      (* NSX-T does not support CIDR as port manual binding *)
      cidr ← py_contains_str "/" ip;
      if cidr : bool then allowed_pairs_of pairs allowed
      else
        allowed_pairs_of pairs
          (allowed
           ++ [PDict (<["ip_address" := ip]> (<["mac_address" := mac]> ∅))])
  end.

Definition sync_port (env : Env) (src : PortSource) (port_id : string)
    : M unit :=
  log DEBUG "Synching port '{}'.";;
  row ← answer (rpc_get_port src port_id);
  let '(id, mac, up, status, qos_id, rev, binding_host, vif_details) := row in
  details ← answer (json_loads src vif_details);
  _ ← py_get details "segmentation_id";
  addresses ← answer (rpc_get_port_addresses src port_id);
  let fixed_ips :=
    (λ a : pyval * pyval,
       PDict (<["ip_address" := a.1]>
                (<["mac_address" := mac]> (<["subnet_id" := a.2]> ∅))))
      <$> addresses in
  pairs ← answer (rpc_get_port_allowed_pairs src port_id);
  allowed ← allowed_pairs_of pairs [];
  sgs ← answer (rpc_get_port_security_groups src port_id);
  let port : gmap string pyval :=
    list_to_map
      [("id", id); ("mac_address", mac); ("admin_state_up", up);
       ("status", status); ("qos_policy_id", qos_id);
       ("fixed_ips", PList fixed_ips);
       ("allowed_address_pairs", PList allowed);
       ("security_groups", PList sgs); ("revision_number", rev);
       ("binding:host_id", binding_host);
       (VNIC_TYPE, PStr VNIC_NORMAL); (VIF_TYPE, PStr VIF_TYPE_OVS)] in
  port_update env port.

(** The allowed address pairs with a plain ip address. *)
Definition plain_pairs (pairs : list (string * pyval))
    : list (string * pyval) :=
  filter (λ a, index 0 "/" a.1 = None) pairs.

Lemma allowed_pairs_of_run (pairs : list (string * pyval)) : ∀ allowed w,
  allowed_pairs_of (prod_map PStr id <$> pairs) allowed w
  = (Ret (allowed
          ++ ((λ a : string * pyval,
                 PDict (<["ip_address" := PStr a.1]>
                          (<["mac_address" := a.2]> ∅)))
                <$> plain_pairs pairs))%list, w).
Proof.
  induction pairs as [|[ip mac] pairs IH]; intros allowed w; simpl.
  - by rewrite app_nil_r.
  - unfold plain_pairs. rewrite filter_cons. simpl.
    erewrite bind_run by reflexivity.
    destruct (index 0 "/" ip) eqn:Hip.
    + rewrite decide_False by done. apply IH.
    + rewrite decide_True by done. rewrite IH, <- app_assoc. done.
Qed.

Section SyncPort.
Variables (env : Env) (src : PortSource) (port_id : string).
Variables (id : string) (mac up status qos_id rev binding_host : pyval).
Variables (vif_details : pyval) (details : gmap string pyval).
Variables (addresses : list (pyval * pyval)).
Variables (pairs : list (string * pyval)) (sgs : list pyval).

(** The source store answers every read of [sync_port], and the ip
    addresses of the allowed pairs are strings. *)
Definition port_answers : Prop :=
  rpc_get_port src port_id
  = inr (PStr id, mac, up, status, qos_id, rev, binding_host, vif_details)
  ∧ json_loads src vif_details = inr (PDict details)
  ∧ rpc_get_port_addresses src port_id = inr addresses
  ∧ rpc_get_port_allowed_pairs src port_id = inr (prod_map PStr (λ m, m) <$> pairs)
  ∧ rpc_get_port_security_groups src port_id = inr sgs.

(** The port [sync_port] hands to [port_update]. *)
Definition synced_port : gmap string pyval :=
  list_to_map
    [("id", PStr id); ("mac_address", mac); ("admin_state_up", up);
     ("status", status); ("qos_policy_id", qos_id);
     ("fixed_ips",
      PList ((λ a : pyval * pyval,
                PDict (<["ip_address" := a.1]>
                         (<["mac_address" := mac]>
                            (<["subnet_id" := a.2]> ∅))))
               <$> addresses));
     ("allowed_address_pairs",
      PList ((λ a : string * pyval,
                PDict (<["ip_address" := PStr a.1]>
                         (<["mac_address" := a.2]> ∅)))
               <$> plain_pairs pairs));
     ("security_groups", PList sgs); ("revision_number", rev);
     ("binding:host_id", binding_host);
     (VNIC_TYPE, PStr VNIC_NORMAL); (VIF_TYPE, PStr VIF_TYPE_OVS)].

Lemma sync_port_run w :
  port_answers →
  sync_port env src port_id w
  = port_update env synced_port
      (add_event (EvLog DEBUG "Synching port '{}'.") w).
Proof.
  intros (Hrow & Hjson & Haddr & Hpairs & Hsgs). unfold sync_port.
  erewrite bind_run by reflexivity. rewrite Hrow.
  erewrite bind_run by reflexivity. cbv beta iota zeta. rewrite Hjson.
  erewrite bind_run by reflexivity.
  erewrite bind_run by reflexivity. rewrite Haddr.
  erewrite bind_run by reflexivity. rewrite Hpairs.
  erewrite bind_run by reflexivity.
  erewrite bind_run by apply allowed_pairs_of_run. rewrite Hsgs.
  erewrite bind_run by reflexivity. reflexivity.
Qed.
End SyncPort.

Lemma synced_port_fields id mac up status qos_id rev binding_host
    addresses pairs sgs :
  let port :=
    synced_port id mac up status qos_id rev binding_host addresses pairs sgs in
  port_fields port id rev (PList sgs)
    ((λ a : pyval * pyval,
        PDict (<["ip_address" := a.1]>
                 (<["mac_address" := mac]> (<["subnet_id" := a.2]> ∅))))
       <$> addresses)
    ((λ a : string * pyval,
        PDict (<["ip_address" := PStr a.1]> (<["mac_address" := a.2]> ∅)))
       <$> plain_pairs pairs)
  ∧ (fixed_binding port
       <$> ((λ a : pyval * pyval,
               PDict (<["ip_address" := a.1]>
                        (<["mac_address" := mac]> (<["subnet_id" := a.2]> ∅))))
              <$> addresses))
    = (λ a : pyval * pyval, (a.1, mac)) <$> addresses
  ∧ (allowed_binding
       <$> ((λ a : string * pyval,
               PDict (<["ip_address" := PStr a.1]>
                        (<["mac_address" := a.2]> ∅)))
              <$> plain_pairs pairs))
    = (λ a : string * pyval, (PStr a.1, a.2)) <$> plain_pairs pairs.
Proof.
  intros port. split; [|split].
  - split; [reflexivity|]. split.
    { apply Forall_fmap, Forall_forall. intros a _. eexists.
      split; [reflexivity|]. split; [by eexists|]. right. by eexists. }
    split; [reflexivity|]. split.
    { apply Forall_fmap, Forall_forall. intros a _. eexists.
      split; [reflexivity|]. split; by eexists. }
    by repeat split.
  - rewrite <- list_fmap_compose. apply list_fmap_ext. intros i a _.
    assert (Hm : port !! "mac_address" = Some mac) by reflexivity.
    unfold fixed_binding, addr_field, dict_get, compose. simpl.
    rewrite Hm, lookup_insert_eq, lookup_insert_ne by done.
    rewrite lookup_insert_eq. simpl. by destruct (truthy mac).
  - rewrite <- list_fmap_compose. apply list_fmap_ext. intros i a _.
    unfold allowed_binding, addr_field, dict_get, compose. simpl.
    rewrite lookup_insert_eq, lookup_insert_ne by done.
    by rewrite lookup_insert_eq.
Qed.

(** X14. [sync_port] of a port bound to the host of the agent updates the port
    in the target store under the lock of the port: every address of the
    port is bound to the mac address of the port, and of the allowed address
    pairs only those whose ip address has no ["/"] are bound. *)
Theorem sync_port_binds_plain_addresses
    env src port_id id mac up status qos_id rev vif_details details
    addresses pairs sgs w :
  port_answers src port_id id mac up status qos_id rev
    (PStr (conf_host env)) vif_details details addresses pairs sgs →
  hashable mac = true →
  nsx_mutation env
    (Nsx_port_update (PStr id) rev (PList sgs)
       (((λ a : pyval * pyval, (a.1, mac)) <$> addresses)
        ++ ((λ a : string * pyval, (PStr a.1, a.2)) <$> plain_pairs pairs))
       qos_id) = None →
  sync_port env src port_id w
  = (Ret tt,
     {| events :=
          events w
          ++ [EvLog DEBUG "Synching port '{}'.";
              EvLog DEBUG "Updating Port='%s' with Segment='%s'";
              EvAcquire id;
              EvNsx (Nsx_port_update (PStr id) rev (PList sgs)
                       (((λ a : pyval * pyval, (a.1, mac)) <$> addresses)
                        ++ ((λ a : string * pyval, (PStr a.1, a.2))
                              <$> plain_pairs pairs))
                       qos_id);
              EvRelease id];
        updated_devices := mac :: updated_devices w;
        last_sync_time := last_sync_time w |}).
Proof.
  intros Hans Hhash Hok.
  rewrite (sync_port_run env src port_id id mac up status qos_id rev
             (PStr (conf_host env)) vif_details details addresses pairs sgs
             w Hans).
  destruct (synced_port_fields id mac up status qos_id rev
              (PStr (conf_host env)) addresses pairs sgs)
    as (Hfields & Hfixed & Hallowed).
  erewrite port_update_run; [|by repeat split; right|exact Hfields].
  unfold port_update_events, port_update_call. rewrite Hfixed, Hallowed.
  change (dict_get PNone (synced_port id mac up status qos_id rev
                            (PStr (conf_host env)) addresses pairs sgs)
            "qos_policy_id") with qos_id.
  rewrite Hok.
  erewrite bind_run by (by apply dict_item_run). cbn [snd].
  unfold updated_devices_add. rewrite Hhash.
  unfold add_events, add_event. simpl. by rewrite <- app_assoc.
Qed.

(** The source store of a port with two allowed address pairs, one of them
    a CIDR. *)
Module SyncPortScenario.
Definition src (binding_host : pyval) : PortSource :=
  {| rpc_get_port := λ port_id,
       inr (PStr port_id, PStr "fa:16:3e:00:00:05", PBool true, PStr "ACTIVE",
            PNone, PInt 4, binding_host, PStr "{'segmentation_id': 100}");
     json_loads := λ _, inr (PDict {["segmentation_id" := PInt 100]});
     rpc_get_port_addresses := λ _, inr [(PStr "10.0.0.5", PStr "subnet-1")];
     rpc_get_port_allowed_pairs := λ _,
       inr [(PStr "10.1.0.0/24", PStr "fa:16:3e:00:00:07");
            (PStr "10.0.0.9", PStr "fa:16:3e:00:00:09")];
     rpc_get_port_security_groups := λ _, inr [PStr "sg-1"] |}.

Lemma answers binding_host :
  port_answers (src binding_host) "port-1" "port-1"
    (PStr "fa:16:3e:00:00:05") (PBool true) (PStr "ACTIVE") PNone (PInt 4)
    binding_host (PStr "{'segmentation_id': 100}")
    {["segmentation_id" := PInt 100]}
    [(PStr "10.0.0.5", PStr "subnet-1")]
    [("10.1.0.0/24", PStr "fa:16:3e:00:00:07");
     ("10.0.0.9", PStr "fa:16:3e:00:00:09")]
    [PStr "sg-1"].
Proof. repeat split. Defined.
End SyncPortScenario.

Lemma sync_port_binds_plain_addresses_witness :
  sync_port (PortScenario.env None) (SyncPortScenario.src (PStr "node-1"))
    "port-1" Scenario.world
  = (Ret tt,
     {| events :=
          [EvLog DEBUG "Synching port '{}'.";
           EvLog DEBUG "Updating Port='%s' with Segment='%s'";
           EvAcquire "port-1";
           EvNsx (Nsx_port_update (PStr "port-1") (PInt 4)
                    (PList [PStr "sg-1"])
                    [(PStr "10.0.0.5", PStr "fa:16:3e:00:00:05");
                     (PStr "10.0.0.9", PStr "fa:16:3e:00:00:09")]
                    PNone);
           EvRelease "port-1"];
        updated_devices := [PStr "fa:16:3e:00:00:05"];
        last_sync_time := 0 |}).
Proof.
  apply (sync_port_binds_plain_addresses (PortScenario.env None)
           (SyncPortScenario.src (PStr "node-1")) "port-1" "port-1"
           (PStr "fa:16:3e:00:00:05") (PBool true) (PStr "ACTIVE") PNone
           (PInt 4) (PStr "{'segmentation_id': 100}")
           {["segmentation_id" := PInt 100]}
           [(PStr "10.0.0.5", PStr "subnet-1")]
           [("10.1.0.0/24", PStr "fa:16:3e:00:00:07");
            ("10.0.0.9", PStr "fa:16:3e:00:00:09")]
           [PStr "sg-1"] Scenario.world).
  - exact (SyncPortScenario.answers (PStr "node-1")).
  - reflexivity.
  - reflexivity.
Defined.

(** X15. [sync_port] of a port that is not bound to the host of the agent, be it
    bound to another host or to none, reads the port from the source store
    and leaves the target store alone: no lock, no call, no device
    recorded. *)
Theorem sync_port_skips_foreign_port
    env src port_id id mac up status qos_id rev binding_host vif_details
    details addresses pairs sgs w :
  port_answers src port_id id mac up status qos_id rev binding_host
    vif_details details addresses pairs sgs →
  binding_host ≠ PStr (conf_host env) →
  sync_port env src port_id w
  = (Ret tt,
     add_events
       [EvLog DEBUG "Synching port '{}'.";
        EvLog DEBUG "Skipping Port='%s'. It is not assigned to agent."] w).
Proof.
  intros Hans Hhost.
  rewrite (sync_port_run env src port_id id mac up status qos_id rev
             binding_host vif_details details addresses pairs sgs w Hans).
  unfold port_update. cbv zeta.
  change (dict_get PNone
            (synced_port id mac up status qos_id rev binding_host
               addresses pairs sgs) VNIC_TYPE) with (PStr VNIC_NORMAL).
  change (dict_get PNone
            (synced_port id mac up status qos_id rev binding_host
               addresses pairs sgs) VIF_TYPE) with (PStr VIF_TYPE_OVS).
  change (dict_get PNone
            (synced_port id mac up status qos_id rev binding_host
               addresses pairs sgs) "binding:host_id") with binding_host.
  change (synced_port id mac up status qos_id rev binding_host
            addresses pairs sgs !! "binding:host_id")
    with (Some binding_host).
  rewrite bool_decide_eq_true_2 by eauto.
  destruct (pyval_eq_str binding_host (conf_host env)) eqn:Heq.
  { by apply pyval_eq_str_true in Heq. }
  simpl. unfold log, emit. by rewrite !add_event_events, !add_events_app.
Qed.

Lemma sync_port_skips_foreign_port_witness :
  sync_port (PortScenario.env None) (SyncPortScenario.src PNone)
    "port-1" Scenario.world
  = (Ret tt,
     add_events
       [EvLog DEBUG "Synching port '{}'.";
        EvLog DEBUG "Skipping Port='%s'. It is not assigned to agent."]
       Scenario.world).
Proof.
  apply (sync_port_skips_foreign_port (PortScenario.env None)
           (SyncPortScenario.src PNone) "port-1" "port-1"
           (PStr "fa:16:3e:00:00:05") (PBool true) (PStr "ACTIVE") PNone
           (PInt 4) PNone (PStr "{'segmentation_id': 100}")
           {["segmentation_id" := PInt 100]}
           [(PStr "10.0.0.5", PStr "subnet-1")]
           [("10.1.0.0/24", PStr "fa:16:3e:00:00:07");
            ("10.0.0.9", PStr "fa:16:3e:00:00:09")]
           [PStr "sg-1"] Scenario.world).
  - exact (SyncPortScenario.answers PNone).
  - discriminate.
Defined.

(** ** The command-line synchronization loop *)

Section Execute.
(** [str(e)] of an exception. *)
Variable exn_str : exn → string.
Variable callback : string → M unit.

(** The [for id in ids] loop of [execute], on [status] and [error]. *)
Fixpoint execute_loop (ids : list string) (status : gmap string string)
    (error : bool) : M (gmap string string * bool) :=
  match ids with
  | [] => mret (status, error)
  | id :: ids =>
      st ← try_except
             (callback id;;
              mret (<[id := "Success"]> status, error))
             (λ e,
                log ERROR "LOG.exception(e)";;
                mret (<[id := "Error: " ++ exn_str e]> status, true));
      execute_loop ids st.1 st.2
  end.

Definition execute (ids : list string) : M (gmap string string * bool) :=
  execute_loop ids ∅ false.

(** The callback ends, by returning or by raising. *)
Definition callback_ends : Prop := ∀ id w, (callback id w).1 ≠ Diverge.

Lemma execute_step id (status : gmap string string) (error : bool) w :
  callback_ends →
  ∃ st w1,
    try_except
      (callback id;; mret (<[id := "Success"]> status, error))
      (λ e,
         log ERROR "LOG.exception(e)";;
         mret (<[id := "Error: " ++ exn_str e]> status, true)) w
    = (Ret st, w1)
    ∧ (st = (<[id := "Success"]> status, error)
       ∨ ∃ e, st = (<[id := "Error: " ++ exn_str e]> status, true)).
Proof.
  intros Hends. unfold try_except, mbind, M_bind.
  specialize (Hends id w).
  destruct (callback id w) as [[[]|e|] w1]; simpl in *; [| |done].
  - eexists _, _. split; [reflexivity|]. by left.
  - eexists _, _. split; [reflexivity|]. right. by exists e.
Qed.

Lemma execute_loop_spec ids : ∀ status0 error0 w,
  callback_ends →
  ∃ status error w',
    execute_loop ids status0 error0 w = (Ret (status, error), w')
    ∧ dom status = dom status0 ∪ list_to_set ids
    ∧ (∀ k, k ∉ ids → status !! k = status0 !! k)
    ∧ (error = false →
       error0 = false ∧ ∀ id, id ∈ ids → status !! id = Some "Success")
    ∧ (NoDup ids → error0 = false →
       (∀ id, id ∈ ids → status !! id = Some "Success") → error = false).
Proof.
  induction ids as [|id ids IH]; intros status0 error0 w Hends.
  - exists status0, error0, w. split; [done|]. split; [set_solver|].
    split; [done|]. split; [|done]. intros ->. split; [done|].
    intros id Hin. by apply not_elem_of_nil in Hin.
  - destruct (execute_step id status0 error0 w Hends)
      as (st & w1 & Hstep & Hst).
    simpl. erewrite bind_run by exact Hstep.
    destruct (IH st.1 st.2 w1 Hends)
      as (status & error & w' & Hrun & Hdom & Hkeep & Hok & Hall).
    exists status, error, w'. split; [done|].
    assert (Hdom1 : dom st.1 = {[id]} ∪ dom status0).
    { destruct Hst as [-> | [e ->]]; simpl; apply dom_insert_L. }
    split; [rewrite Hdom, Hdom1; set_solver|]. split.
    { intros k Hk. apply not_elem_of_cons in Hk as [Hne Hk].
      rewrite Hkeep by done.
      destruct Hst as [-> | [e ->]]; simpl; by rewrite lookup_insert_ne. }
    split.
    + intros Herr. destruct (Hok Herr) as [Hst2 Hsucc].
      destruct Hst as [-> | [e ->]]; simpl in *; [|done].
      split; [done|]. intros id' Hin.
      destruct (decide (id' ∈ ids)) as [Hin'|Hnin]; [by apply Hsucc|].
      apply elem_of_cons in Hin as [->|Hin]; [|done].
      rewrite Hkeep by done. simpl. apply lookup_insert_eq.
    + intros Hnd Herr0 Hsucc. apply NoDup_cons in Hnd as [Hfresh Hnd].
      destruct Hst as [-> | [e ->]]; simpl in *.
      * apply Hall; [done..|]. intros id' Hin. apply Hsucc. by right.
      * exfalso. specialize (Hsucc id (list_elem_of_here _ _)).
        rewrite Hkeep in Hsucc by done. simpl in Hsucc.
        rewrite lookup_insert_eq in Hsucc. discriminate.
Qed.

(** X16. [execute] never raises: with callbacks that end it returns a status for
    each id and for no other key, whatever the callbacks raise; when the
    error flag is not set every id has the status ["Success"], and for
    pairwise distinct ids the converse holds too. *)
Theorem execute_reports_every_id ids w :
  callback_ends →
  ∃ status error w',
    execute ids w = (Ret (status, error), w')
    ∧ dom status = list_to_set ids
    ∧ (error = false → ∀ id, id ∈ ids → status !! id = Some "Success")
    ∧ (NoDup ids →
       (∀ id, id ∈ ids → status !! id = Some "Success") → error = false).
Proof.
  intros Hends.
  destruct (execute_loop_spec ids ∅ false w Hends)
    as (status & error & w' & Hrun & Hdom & _ & Hok & Hall).
  exists status, error, w'. split; [done|].
  split; [rewrite Hdom; set_solver|]. split.
  - intros Herr. by apply Hok.
  - intros Hnd. by apply Hall.
Qed.
End Execute.

Lemma execute_reports_every_id_witness :
  let exn_str e :=
    match e with StoreError msg => msg | _ => "error" end in
  let callback id : M unit :=
    if String.eqb id "qos-2" then raise (StoreError "Object exists")
    else sync_qos_orphaned id in
  ∃ status error w',
    execute exn_str callback ["qos-1"; "qos-2"] Scenario.world
    = (Ret (status, error), w')
    ∧ dom status = list_to_set ["qos-1"; "qos-2"]
    ∧ (error = false →
       ∀ id, id ∈ ["qos-1"; "qos-2"] → status !! id = Some "Success")
    ∧ (NoDup ["qos-1"; "qos-2"] →
       (∀ id, id ∈ ["qos-1"; "qos-2"] → status !! id = Some "Success") →
       error = false).
Proof.
  intros exn_str callback.
  apply (execute_reports_every_id exn_str callback ["qos-1"; "qos-2"]
           Scenario.world).
  intros id w. unfold callback.
  destruct (String.eqb id "qos-2"); [discriminate|].
  unfold sync_qos_orphaned. erewrite bind_run by reflexivity. cbv zeta.
  erewrite delete_policy_run by (by simplify_map_eq). discriminate.
Defined.

(** ** A shallow pass that fails half way *)

Lemma bind_raise {A B} (c : M A) (f : A → M B) w e w1 :
  c w = (Raise e, w1) → (c ≫= f) w = (Raise e, w1).
Proof. intros Hc. unfold mbind, M_bind. by rewrite Hc. Qed.

Lemma sync_get_content_fails env fuel sdk_model os_query w w1 revs_os e :
  get_revisions env fuel os_query w = (Ret revs_os, w1) →
  nsx_get_revisions env sdk_model None = inl e →
  _sync_get_content env fuel sdk_model os_query w
  = (Raise e, add_event (EvNsx (Nsx_get_revisions sdk_model None)) w1).
Proof.
  intros Hos Hnsx. unfold _sync_get_content.
  erewrite bind_run by exact Hos.
  unfold nsxv3_get_revisions, mbind, M_bind, emit, answer, raise.
  by rewrite Hnsx.
Qed.

(** X17. When the target store fails to answer the read of the QoS profiles,
    the shallow pass raises what the store raised; the four batches of the
    security groups are submitted by then and stay submitted, nothing is
    submitted for QoS policies and ports, and no report is logged. *)
Theorem shallow_pass_stops_at_failed_read env n_sg n_qos r_ips e fuel w :
  first_short_page_at env get_security_group_revision_tuples n_sg →
  first_short_page_at env get_qos_policy_revision_tuples n_qos →
  (n_sg < fuel)%nat → (n_qos < fuel)%nat →
  nsx_get_revisions env IPSet None = inr r_ips →
  nsx_get_revisions env QosSwitchingProfile None = inl e →
  let diff :=
    revision_diff
      (source_revisions env get_security_group_revision_tuples n_sg)
      r_ips.1.1 in
  _sync_inventory_shallow env fuel w
  = (Raise e,
     add_events
       (page_queries env get_security_group_revision_tuples 0 (S n_sg)
        ++ [EvNsx (Nsx_get_revisions IPSet None);
            EvRun HIGHER diff.1 H_security_group_updated;
            EvRun HIGH diff.1 H_security_group_member_updated;
            EvRun MEDIUM diff.1 H_security_group_rule_updated;
            EvRun LOW diff.2 H_sync_security_group_orphaned]
        ++ page_queries env get_qos_policy_revision_tuples 0 (S n_qos)
        ++ [EvNsx (Nsx_get_revisions QosSwitchingProfile None)]) w).
Proof.
  intros Hsg Hqos Fsg Fqos Hips Hfail diff.
  unfold _sync_inventory_shallow. cbv zeta.
  erewrite bind_run
    by (eapply sync_get_content_run; [by apply get_revisions_run | done]).
  do 4 (erewrite bind_run by reflexivity).
  erewrite bind_raise
    by (eapply sync_get_content_fails; [by apply get_revisions_run | done]).
  unfold runner_run, emit.
  rewrite !add_event_events, !add_events_app. by rewrite <- ?app_assoc.
Qed.

Lemma shallow_pass_stops_at_failed_read_witness :
  let env :=
    {| rpc_max_records_per_query := 100;
       conf_host := "node-1";
       polling_interval := 30;
       rpc_query := λ _ _ _, [];
       rpc_get_rules_for_security_groups_id := λ _, inr [];
       rpc_get_security_group_revision := λ sg, inr (PStr sg, PInt 1);
       nsx_get_revisions := λ m _,
         match m with
         | IPSet => inr ({["C" := PStr "9"]}, ∅, ∅)
         | _ => inl (StoreError "connection reset")
         end;
       nsx_get_or_create_security_group := λ sg, inr (sg, sg, sg);
       nsx_get_security_group_rule_spec := PDict;
       nsx_mutation := λ _, None;
       timestamp_has_expired := inr false;
       runner_active := 0;
       runner_passive := 0 |} in
  (_sync_inventory_shallow env 1 Scenario.world).1
  = Raise (StoreError "connection reset")
  ∧ submissions (events (_sync_inventory_shallow env 1 Scenario.world).2)
    = [(HIGHER, ∅, H_security_group_updated);
       (HIGH, ∅, H_security_group_member_updated);
       (MEDIUM, ∅, H_security_group_rule_updated);
       (LOW, {["C"]}, H_sync_security_group_orphaned)].
Proof.
  intros env.
  assert (Hend : ∀ q, first_short_page_at env q 0).
  { intros q. split; [reflexivity|]. intros m Hm. exfalso. lia. }
  rewrite (shallow_pass_stops_at_failed_read env 0 0
             ({["C" := PStr "9"]}, ∅, ∅) (StoreError "connection reset") 1
             Scenario.world (Hend _) (Hend _) (Nat.lt_0_1) (Nat.lt_0_1)
             eq_refl eq_refl).
  split; [reflexivity|]. vm_compute. reflexivity.
Defined.
